(** * Blackijecky: wire codec and round engine

    A shallow embedding of [protocol.py], [game.py] and the round engine of
    [server.py], with the properties of the specification stated over it.

    Conventions of the embedding:
    - a Python [int] is a [Z]; [x & 0xFF] is [Z.land x 255];
    - a [bytes] value is a [list byte];
    - a Python [str] is the list of its code points ([list Z]);
    - a raised exception is the [Raise] case of [outcome];
    - the socket, the console-independent part of the process state and the
      source of randomness are the record [world], threaded through the
      state-and-exception monad [M]. *)

From Stdlib Require Import Ascii String.
From Stdlib Require Import Strings.Byte.
From Stdlib Require Import ZArith List Lia Bool Permutation.
From Stdlib Require Import DecimalString.
Import ListNotations.
Open Scope Z_scope.

(* ================================================================== *)
(** * Bytes and integers *)

Definition b2z (b : byte) : Z := Z.of_N (Byte.to_N b).

Definition z2b (z : Z) : byte :=
  match Byte.of_N (Z.to_N (z mod 256)) with
  | Some b => b
  | None => x00
  end.

(** A Python [str]: the sequence of its code points. *)
Definition pystr := list Z.

Definition str_of (s : string) : pystr :=
  map (fun a => Z.of_N (N_of_ascii a)) (list_ascii_of_string s).

Fixpoint str_eqb (s t : pystr) : bool :=
  match s, t with
  | [], [] => true
  | a :: s', b :: t' => (a =? b) && str_eqb s' t'
  | _, _ => false
  end.

(** Exceptions the modelled code can raise. *)
Inductive exn : Type :=
| ValueError
| UnicodeEncodeError
| IndexError
| ConnectionError
| SocketTimeout.

Inductive outcome (A : Type) : Type :=
| Ret (a : A)
| Raise (e : exn).
Arguments Ret {A} a.
Arguments Raise {A} e.

(* ================================================================== *)
(** * Library codecs used by [protocol.py] *)

(** [struct.pack] with the big-endian formats [I], [H] and [B].  Every
    argument the source passes is a constant or is masked to the width of its
    field, so the range check of [struct.pack] never fires. *)
Definition pack_u8 (v : Z) : list byte := [z2b v].
Definition pack_u16 (v : Z) : list byte := [z2b (v / 256); z2b v].
Definition pack_u32 (v : Z) : list byte :=
  [z2b (v / 16777216); z2b (v / 65536); z2b (v / 256); z2b v].

(** [struct.unpack] reads each field as a big-endian unsigned integer.  It
    raises unless the buffer has exactly the length of the format; every call
    of the source comes after a length check that guarantees it. *)
Definition be_int (bs : list byte) : Z :=
  fold_left (fun acc b => acc * 256 + b2z b) bs 0.

(** Python slice [data[i:j]] for [0 <= i <= j]. *)
Definition slice (i j : nat) (data : list byte) : list byte :=
  firstn (j - i) (skipn i data).

(** [str.encode("utf-8", errors="ignore")]: lone surrogates cannot be encoded
    and are dropped.  [ch >> 6] is [ch / 64] and [ch & 0x3f] is [ch mod 64]. *)
Definition utf8_encode_char (ch : Z) : list byte :=
  if ch <? 0x80 then [z2b ch]
  else if ch <? 0x800 then [z2b (0xC0 + ch / 64); z2b (0x80 + ch mod 64)]
  else if (0xD800 <=? ch) && (ch <=? 0xDFFF) then []
  else if ch <? 0x10000 then
    [z2b (0xE0 + ch / 4096); z2b (0x80 + (ch / 64) mod 64); z2b (0x80 + ch mod 64)]
  else
    [z2b (0xF0 + ch / 262144); z2b (0x80 + (ch / 4096) mod 64);
     z2b (0x80 + (ch / 64) mod 64); z2b (0x80 + ch mod 64)].

Definition utf8_encode_ignore (s : pystr) : list byte :=
  flat_map utf8_encode_char s.

Definition is_continuation (b : byte) : bool :=
  (0x80 <=? b2z b) && (b2z b <? 0xC0).

(** [bytes.decode("utf-8", errors="ignore")], after CPython's decoder: an
    invalid start byte is skipped alone; an invalid continuation byte ends the
    skipped range just before it; a sequence cut short by the end of the
    buffer is skipped up to the end. *)
Fixpoint utf8_decode_ignore (bs : list byte) : pystr :=
  match bs with
  | [] => []
  | b1 :: r1 =>
    let ch := b2z b1 in
    if ch <? 0x80 then ch :: utf8_decode_ignore r1
    else if ch <? 0xC2 then utf8_decode_ignore r1
    else if ch <? 0xE0 then
      match r1 with
      | [] => []
      | b2 :: r2 =>
        if is_continuation b2
        then (ch * 64 + b2z b2 - 0x3080) :: utf8_decode_ignore r2
        else utf8_decode_ignore r1
      end
    else if ch <? 0xF0 then
      match r1 with
      | [] => []
      | b2 :: r2 =>
        if negb (is_continuation b2)
           || (if b2z b2 <? 0xA0 then ch =? 0xE0 else ch =? 0xED)
        then utf8_decode_ignore r1
        else
          match r2 with
          | [] => []
          | b3 :: r3 =>
            if is_continuation b3
            then (ch * 4096 + b2z b2 * 64 + b2z b3 - 0xE2080)
                   :: utf8_decode_ignore r3
            else utf8_decode_ignore r2
          end
      end
    else if ch <? 0xF5 then
      match r1 with
      | [] => []
      | b2 :: r2 =>
        if negb (is_continuation b2)
           || (if b2z b2 <? 0x90 then ch =? 0xF0 else ch =? 0xF4)
        then utf8_decode_ignore r1
        else
          match r2 with
          | [] => []
          | b3 :: r3 =>
            if negb (is_continuation b3) then utf8_decode_ignore r2
            else
              match r3 with
              | [] => []
              | b4 :: r4 =>
                if is_continuation b4
                then (ch * 262144 + b2z b2 * 4096 + b2z b3 * 64 + b2z b4
                      - 0x3C82080) :: utf8_decode_ignore r4
                else utf8_decode_ignore r3
              end
          end
      end
    else utf8_decode_ignore r1
  end.

(** [str.encode("ascii")]: raises on the first character outside ASCII. *)
Fixpoint ascii_encode (s : pystr) : outcome (list byte) :=
  match s with
  | [] => Ret []
  | ch :: s' =>
    if (0 <=? ch) && (ch <? 0x80) then
      match ascii_encode s' with
      | Ret bs => Ret (z2b ch :: bs)
      | Raise e => Raise e
      end
    else Raise UnicodeEncodeError
  end.

(** [bytes.decode("ascii", errors="ignore")]: bytes from 0x80 up are dropped. *)
Definition ascii_decode_ignore (bs : list byte) : pystr :=
  map b2z (filter (fun b => b2z b <? 0x80) bs).

(** [b.split(b"\x00", 1)[0]]: the bytes before the first zero byte. *)
Fixpoint before_nul (bs : list byte) : list byte :=
  match bs with
  | [] => []
  | b :: r => if b2z b =? 0 then [] else b :: before_nul r
  end.

(** [raw.ljust(n, b"\x00")]. *)
Definition ljust (n : nat) (raw : list byte) : list byte :=
  raw ++ repeat x00 (n - length raw).

(* ================================================================== *)
(** * protocol.py *)

Definition MAGIC_COOKIE : Z := 0xabcddcba.

Definition TYPE_OFFER : Z := 0x2.
Definition TYPE_REQUEST : Z := 0x3.
Definition TYPE_PAYLOAD : Z := 0x4.

Definition RESULT_NOT_OVER : Z := 0x0.
Definition RESULT_TIE : Z := 0x1.
Definition RESULT_LOSS : Z := 0x2.
Definition RESULT_WIN : Z := 0x3.

Definition NAME_LEN : nat := 32.

Definition OFFER_SIZE : nat := 4 + 1 + 2 + NAME_LEN.
Definition REQUEST_SIZE : nat := 4 + 1 + 1 + NAME_LEN.
Definition CLIENT_PAYLOAD_SIZE : nat := 4 + 1 + 5.
Definition SERVER_PAYLOAD_SIZE : nat := 4 + 1 + 1 + 2 + 1.

Definition Hittt : pystr := str_of "Hittt"%string.
Definition Stand : pystr := str_of "Stand"%string.

Definition _pack_name (name : pystr) : list byte :=
  let raw := firstn NAME_LEN (utf8_encode_ignore name) in
  ljust NAME_LEN raw.

Definition _unpack_name (b : list byte) : pystr :=
  utf8_decode_ignore (before_nul b).

Definition pack_offer (tcp_port : Z) (server_name : pystr) : list byte :=
  (pack_u32 MAGIC_COOKIE ++ pack_u8 TYPE_OFFER ++ pack_u16 (Z.land tcp_port 0xFFFF))
    ++ _pack_name server_name.

Definition unpack_offer (data : list byte) : option (Z * pystr) :=
  if (length data <? OFFER_SIZE)%nat then None
  else
    let hdr := slice 0 7 data in
    let cookie := be_int (slice 0 4 hdr) in
    let mtype := be_int (slice 4 5 hdr) in
    let tcp_port := be_int (slice 5 7 hdr) in
    if negb (cookie =? MAGIC_COOKIE) || negb (mtype =? TYPE_OFFER) then None
    else
      let name := _unpack_name (slice 7 (7 + NAME_LEN) data) in
      Some (tcp_port, name).

Definition pack_request (num_rounds : Z) (client_name : pystr) : list byte :=
  (pack_u32 MAGIC_COOKIE ++ pack_u8 TYPE_REQUEST ++ pack_u8 (Z.land num_rounds 0xFF))
    ++ _pack_name client_name.

Definition unpack_request (data : list byte) : option (Z * pystr) :=
  if (length data <? REQUEST_SIZE)%nat then None
  else
    let hdr := slice 0 6 data in
    let cookie := be_int (slice 0 4 hdr) in
    let mtype := be_int (slice 4 5 hdr) in
    let rounds := be_int (slice 5 6 hdr) in
    if negb (cookie =? MAGIC_COOKIE) || negb (mtype =? TYPE_REQUEST) then None
    else
      let name := _unpack_name (slice 6 (6 + NAME_LEN) data) in
      Some (rounds, name).

Definition is_decision (decision : pystr) : bool :=
  str_eqb decision Hittt || str_eqb decision Stand.

Definition pack_client_payload (decision : pystr) : outcome (list byte) :=
  if negb (is_decision decision) then Raise ValueError
  else
    match ascii_encode decision with
    | Ret text => Ret ((pack_u32 MAGIC_COOKIE ++ pack_u8 TYPE_PAYLOAD) ++ text)
    | Raise e => Raise e
    end.

Definition unpack_client_payload (data : list byte) : option pystr :=
  if negb (length data =? CLIENT_PAYLOAD_SIZE)%nat then None
  else
    let hdr := slice 0 5 data in
    let cookie := be_int (slice 0 4 hdr) in
    let mtype := be_int (slice 4 5 hdr) in
    if negb (cookie =? MAGIC_COOKIE) || negb (mtype =? TYPE_PAYLOAD) then None
    else
      let decision := ascii_decode_ignore (slice 5 10 data) in
      if negb (is_decision decision) then None
      else Some decision.

Definition pack_server_payload (result_code rank suit : Z) : list byte :=
  pack_u32 MAGIC_COOKIE ++ pack_u8 TYPE_PAYLOAD ++ pack_u8 (Z.land result_code 0xFF)
    ++ pack_u16 (Z.land rank 0xFFFF) ++ pack_u8 (Z.land suit 0xFF).

Definition unpack_server_payload (data : list byte) : option (Z * Z * Z) :=
  if negb (length data =? SERVER_PAYLOAD_SIZE)%nat then None
  else
    let cookie := be_int (slice 0 4 data) in
    let mtype := be_int (slice 4 5 data) in
    let result := be_int (slice 5 6 data) in
    let rank := be_int (slice 6 8 data) in
    let suit := be_int (slice 8 9 data) in
    if negb (cookie =? MAGIC_COOKIE) || negb (mtype =? TYPE_PAYLOAD) then None
    else Some (result, rank, suit).

(* ================================================================== *)
(** * game.py *)

(** A card is [(rank, suit)] with rank 1..13 and suit 0..3. *)
Definition Card : Type := Z * Z.

(** The deck [create_deck] builds before shuffling it. *)
Definition sorted_deck : list Card :=
  flat_map (fun rank => map (fun suit => (rank, suit)) [0; 1; 2; 3])
           [1; 2; 3; 4; 5; 6; 7; 8; 9; 10; 11; 12; 13].

Definition card_value (rank : Z) : Z :=
  if rank =? 1 then 11
  else if rank >=? 11 then 10
  else rank.

(** [sum(card_value(r) for r, _ in hand)]: a left-to-right sum from 0. *)
Definition hand_value (hand : list Card) : Z :=
  fold_left (fun acc c => acc + card_value (fst c)) hand 0.

(* ================================================================== *)
(** * The process state and its monad *)

(** What the peer does once the bytes it sent are used up: it has closed the
    connection, or it stays silent until the read times out. *)
Inductive stream_end : Type := PeerClosed | TimedOut.

Inductive event : Type :=
| Sent (data : list byte)
| Recvd (data : list byte).

(** [inbox]: the chunks the socket will hand out, in order; [at_end]: what
    follows them; [trace]: every [sendall] and [recv] so far, oldest first;
    [rng]: the deck that the [k]-th shuffle of the process leaves, given in
    draw order (its head is the last element of the Python list, the one
    [deck.pop()] takes); [dealt]: the number of decks created so far. *)
Record world : Type := mkWorld {
  inbox : list (list byte);
  at_end : stream_end;
  trace : list event;
  rng : nat -> list Card;
  dealt : nat
}.

Definition M (A : Type) : Type := world -> outcome A * world.

Definition ret {A} (a : A) : M A := fun w => (Ret a, w).

Definition raise {A} (e : exn) : M A := fun w => (Raise e, w).

Definition bind {A B} (c : M A) (k : A -> M B) : M B :=
  fun w =>
    match c w with
    | (Ret a, w') => k a w'
    | (Raise e, w') => (Raise e, w')
    end.

Notation "x <- c ;; k" := (bind c (fun x => k))
  (at level 61, c at next level, right associativity).
Notation "' pat <- c ;; k" :=
  (bind c (fun x => match x with pat => k end))
  (at level 61, pat pattern, c at next level, right associativity).
Notation "c ;;; k" := (bind c (fun _ => k))
  (at level 61, right associativity).

Definition log (e : event) : M unit :=
  fun w => (Ret tt, mkWorld (inbox w) (at_end w) (trace w ++ [e]) (rng w) (dealt w)).

Definition set_inbox (chunks : list (list byte)) : M unit :=
  fun w => (Ret tt, mkWorld chunks (at_end w) (trace w) (rng w) (dealt w)).

(** [conn.sendall(data)].  A send that fails on a broken connection is left
    out of the model: every frame handed to [sendall] is sent. *)
Definition sendall (data : list byte) : M unit := log (Sent data).

(** [sock.recv(bufsize)]: at most [bufsize] bytes of the next chunk; [b""]
    when the peer has closed; [socket.timeout] when nothing arrives. *)
Definition recv (bufsize : nat) : M (list byte) :=
  fun w =>
    match inbox w with
    | [] =>
      match at_end w with
      | PeerClosed => (log (Recvd []) ;;; ret []) w
      | TimedOut => raise SocketTimeout w
      end
    | chunk :: rest =>
      if (length chunk <=? bufsize)%nat
      then (set_inbox rest ;;; log (Recvd chunk) ;;; ret chunk) w
      else (set_inbox (skipn bufsize chunk :: rest) ;;;
            log (Recvd (firstn bufsize chunk)) ;;;
            ret (firstn bufsize chunk)) w
    end.

(** The loop of [recv_exact].  Every turn adds at least one byte to [got], so
    [n] turns are enough; [fuel] counts them. *)
Fixpoint recv_exact_loop (fuel : nat) (n : nat) (chunks : list (list byte))
         (got : nat) : M (option (list byte)) :=
  if (got <? n)%nat then
    match fuel with
    | O => ret None
    | S fuel' =>
      part <- recv (n - got) ;;
      match part with
      | [] => ret None
      | _ => recv_exact_loop fuel' n (chunks ++ [part]) (got + length part)
      end
    end
  else ret (Some (concat chunks)).

Definition recv_exact (n : nat) : M (option (list byte)) :=
  recv_exact_loop n n [] 0.

(* ================================================================== *)
(** * server.py *)

(** [create_deck()]: the 52 cards, shuffled.  The permutation is the next
    one of the world's [rng]. *)
Definition create_deck : M (list Card) :=
  fun w => (Ret (rng w (dealt w)),
            mkWorld (inbox w) (at_end w) (trace w) (rng w) (S (dealt w))).

(** [deck.pop()]. *)
Definition pop (deck : list Card) : M (Card * list Card) :=
  match deck with
  | [] => raise IndexError
  | card :: deck' => ret (card, deck')
  end.

(** [hand[-1]]. *)
Definition last_of (hand : list Card) : M Card :=
  match rev hand with
  | [] => raise IndexError
  | card :: _ => ret card
  end.

Definition send_card (card : Card) (result_code : Z) : M unit :=
  let '(rank, suit) := card in
  sendall (pack_server_payload result_code rank suit).

(** How the player loop is left: by the [return] of the bust branch, or by
    [break] with the variables the rest of the round reads. *)
Inductive player_exit : Type :=
| PlayerReturn (code : Z)
| PlayerBreak (deck player : list Card) (last_card_sent : Card).

(** The [while True] loop of the player turn.  Each turn that goes round
    again has popped a card, so the recursion is on the deck. *)
Fixpoint player_turn (deck player : list Card) (last_card_sent : Card)
         {struct deck} : M player_exit :=
  if hand_value player >? 21 then
    last_card_sent <- last_of player ;;
    send_card last_card_sent RESULT_LOSS ;;;
    ret (PlayerReturn RESULT_LOSS)
  else
    data <- recv_exact CLIENT_PAYLOAD_SIZE ;;
    match data with
    | None => raise ConnectionError
    | Some data =>
      match unpack_client_payload data with
      | None => raise ConnectionError
      | Some decision =>
        if str_eqb decision Hittt then
          match deck with
          | [] => raise IndexError
          | card :: deck' =>
            send_card card RESULT_NOT_OVER ;;;
            player_turn deck' (player ++ [card]) card
          end
        else ret (PlayerBreak deck player last_card_sent)
      end
    end.

Inductive dealer_exit : Type :=
| DealerReturn (code : Z)
| DealerDone (deck dealer : list Card) (last_card_sent : Card).

(** The [while hand_value(dealer) < 17] loop of the dealer turn. *)
Fixpoint dealer_loop (deck dealer : list Card) (last_card_sent : Card)
         {struct deck} : M dealer_exit :=
  if hand_value dealer <? 17 then
    match deck with
    | [] => raise IndexError
    | card :: deck' =>
      let dealer' := dealer ++ [card] in
      send_card card RESULT_NOT_OVER ;;;
      if hand_value dealer' >? 21 then
        send_card card RESULT_WIN ;;;
        ret (DealerReturn RESULT_WIN)
      else dealer_loop deck' dealer' card
    end
  else ret (DealerDone deck dealer last_card_sent).

(** The "Decide winner" block. *)
Definition decide_winner (ps ds : Z) : Z :=
  if ps >? 21 then RESULT_LOSS
  else if ds >? 21 then RESULT_WIN
  else if ps >? ds then RESULT_WIN
  else if ps <? ds then RESULT_LOSS
  else RESULT_TIE.

(** The body of [play_one_round] once the deck is made. *)
Definition play_round_with (deck : list Card) : M Z :=
  '(p0, deck) <- pop deck ;;
  '(p1, deck) <- pop deck ;;
  '(d0, deck) <- pop deck ;;
  '(d1, deck) <- pop deck ;;
  let player := [p0; p1] in
  let dealer := [d0; d1] in
  send_card p0 RESULT_NOT_OVER ;;;
  send_card p1 RESULT_NOT_OVER ;;;
  send_card d0 RESULT_NOT_OVER ;;;
  let last_card_sent := d0 in
  left <- player_turn deck player last_card_sent ;;
  match left with
  | PlayerReturn code => ret code
  | PlayerBreak deck player _ =>
    let last_card_sent := d1 in
    send_card d1 RESULT_NOT_OVER ;;;
    left <- dealer_loop deck dealer last_card_sent ;;
    match left with
    | DealerReturn code => ret code
    | DealerDone deck dealer last_card_sent =>
      let result := decide_winner (hand_value player) (hand_value dealer) in
      send_card last_card_sent result ;;;
      ret result
    end
  end.

Definition play_one_round : M Z :=
  deck <- create_deck ;;
  play_round_with deck.

(** [for i in range(1, rounds + 1): play_one_round(conn)]. *)
Fixpoint play_rounds (rounds : nat) : M unit :=
  match rounds with
  | O => ret tt
  | S rounds' => play_one_round ;;; play_rounds rounds'
  end.

(** The ways [handle_client] ends, one per message it prints or early
    [return]. *)
Inductive session_end : Type :=
| NoRequest
| InvalidRequest
| Finished
| TimedOutSession
| ConnectionFailed.

Definition session (start : world) : outcome session_end * world :=
  (req <- recv_exact REQUEST_SIZE ;;
   match req with
   | None => ret NoRequest
   | Some req =>
     match unpack_request req with
     | None => ret InvalidRequest
     | Some (rounds, client_name) =>
       let rounds := if rounds <? 1 then 1 else rounds in
       play_rounds (Z.to_nat rounds) ;;;
       ret Finished
     end
   end) start.

(** [handle_client]: the [try] block with its two [except] clauses; any other
    exception leaves the function. *)
Definition handle_client : M session_end :=
  fun w =>
    match session w with
    | (Raise SocketTimeout, w') => (Ret TimedOutSession, w')
    | (Raise ConnectionError, w') => (Ret ConnectionFailed, w')
    | r => r
    end.

(* ================================================================== *)
(** * Statements: the vocabulary of the properties *)

(** The five bytes every frame of type [mtype] starts with. *)
Definition header (mtype : Z) : list byte := pack_u32 MAGIC_COOKIE ++ pack_u8 mtype.

(** A character that UTF-8 can encode and that is not NUL: a Unicode scalar
    value (a code point that is not a surrogate) other than 0. *)
Definition encodable (ch : Z) : Prop :=
  0 < ch <= 0x10FFFF /\ ~ (0xD800 <= ch <= 0xDFFF).

(** A name that fits its field: every character is encodable and the
    encoding has at most [NAME_LEN] bytes. *)
Definition fits_name_field (name : pystr) : Prop :=
  Forall encodable name /\ (length (utf8_encode_ignore name) <= NAME_LEN)%nat.

(** The frames of the two decisions, as [pack_client_payload] builds them. *)
Definition hit_frame : list byte :=
  header TYPE_PAYLOAD ++ list_byte_of_string "Hittt".
Definition stand_frame : list byte :=
  header TYPE_PAYLOAD ++ list_byte_of_string "Stand".

(** The event of sending [card] with [result_code]. *)
Definition card_frame (result_code : Z) (card : Card) : event :=
  Sent (pack_server_payload result_code (fst card) (snd card)).

(** The world after the socket has moved on to [chunks] and [events] have
    been added to the trace. *)
Definition step_world (w : world) (chunks : list (list byte))
           (events : list event) : world :=
  mkWorld chunks (at_end w) (trace w ++ events) (rng w) (dealt w).

(** The world after [events], with the inbox untouched. *)
Definition sent (w : world) (events : list event) : world :=
  step_world w (inbox w) events.

Definition card_eqb (c1 c2 : Card) : bool :=
  (fst c1 =? fst c2) && (snd c1 =? snd c2).

(** A full deck that deals [front] first: the other cards follow in the
    order of [sorted_deck]. *)
Definition deck_with (front : list Card) : list Card :=
  front ++ filter (fun c => negb (existsb (card_eqb c) front)) sorted_deck.

(** The bytes the peer has sent and the socket has not handed out yet. *)
Definition wire (w : world) : list byte := concat (inbox w).

(** No chunk of the inbox is empty: [recv] returns [b""] only once the peer
    has closed. *)
Definition tidy (w : world) : Prop := Forall (fun chunk => chunk <> []) (inbox w).

(** The frames sent, in order, among the events of a trace. *)
Definition sends (t : list event) : list event :=
  filter (fun e => match e with Sent _ => true | Recvd _ => false end) t.

(** The three frames of the initial deal. *)
Definition deal_events (p0 p1 d0 : Card) : list event :=
  [card_frame RESULT_NOT_OVER p0; card_frame RESULT_NOT_OVER p1;
   card_frame RESULT_NOT_OVER d0].

Definition is_sent (e : event) : bool :=
  match e with Sent _ => true | Recvd _ => false end.

(** The run of sends at the end of a trace: what was sent after the last
    read. *)
Fixpoint sends_at_end_rev (rev_trace : list event) : list event :=
  match rev_trace with
  | e :: t => if is_sent e then e :: sends_at_end_rev t else []
  | [] => []
  end.

Definition sent_after_last_read (t : list event) : list event :=
  rev (sends_at_end_rev (rev t)).

(** A world at the start of a round: nothing traced yet, [chunks] on their
    way, the peer closing after them, every shuffle leaving [deck]. *)
Definition fresh_world (chunks : list (list byte)) (deck : list Card) : world :=
  mkWorld chunks PeerClosed [] (fun _ => deck) 0.

(** Scenario B: the player is dealt King and 5 and hits a 9. *)
Definition deck_B : list Card :=
  deck_with [(13, 0); (5, 1); (8, 2); (13, 3); (9, 0)].

(** The player is dealt King and 2, hits a 5, then hits a 9. *)
Definition deck_two_hits : list Card :=
  deck_with [(13, 0); (2, 1); (8, 2); (13, 3); (5, 0); (9, 0)].

(** The round of scenario B, with the one Hittt it takes. *)
Definition run_B : outcome Z * world :=
  play_round_with deck_B (fresh_world [hit_frame] deck_B).

(** Two Hittt frames that reach the socket cut in three pieces, none of them
    a whole frame. *)
Definition hits_in_pieces : list (list byte) :=
  [firstn 3 hit_frame; skipn 3 hit_frame ++ firstn 4 hit_frame;
   skipn 4 hit_frame].

(** Every card of [drawn] was drawn on a total below 17: the hand before
    each of them is worth less than 17. *)
Definition drawn_below_17 (dealer drawn : list Card) : Prop :=
  forall k, (k < length drawn)%nat ->
            hand_value (dealer ++ firstn k drawn) < 17.

(** What the dealer loop leaves when it has drawn [drawn] off [deck], with
    [rest] left on the deck, starting from the hand [dealer], the variable
    [last_card_sent] at [last] and the world [w]. *)
Definition dealer_outcome (dealer drawn rest : list Card) (last : Card)
           (w : world) (out : outcome dealer_exit) (w' : world) : Prop :=
  match out with
  | Ret (DealerDone deck' dealer' last') =>
    deck' = rest /\ dealer' = dealer ++ drawn /\ last' = List.last drawn last /\
    17 <= hand_value dealer' /\
    w' = sent w (map (card_frame RESULT_NOT_OVER) drawn)
  | Ret (DealerReturn code) =>
    code = RESULT_WIN /\ 21 < hand_value (dealer ++ drawn) /\
    exists before card,
      drawn = before ++ [card] /\
      w' = sent w (map (card_frame RESULT_NOT_OVER) drawn
                   ++ [card_frame RESULT_WIN card])
  | Raise e =>
    e = IndexError /\ rest = [] /\ hand_value (dealer ++ drawn) < 17 /\
    w' = sent w (map (card_frame RESULT_NOT_OVER) drawn)
  end.

(** The dealer holds two sixes and the deck has a 5 and then a 2 on top. *)
Definition deck_17 : list Card :=
  deck_with [(10, 0); (9, 1); (6, 2); (6, 3); (5, 0); (2, 0)].

(** Scenario A: the player is dealt 10 and 9 and stands; the dealer holds 8
    and King. *)
Definition deck_A : list Card :=
  deck_with [(10, 0); (9, 1); (8, 2); (13, 3)].

(** The player is dealt two Aces. *)
Definition deck_two_aces : list Card :=
  deck_with [(1, 0); (1, 1); (5, 2); (13, 3)].

Definition world_17 : world := fresh_world [] deck_17.

(** A computation that creates no deck: it leaves the source of shuffles and
    the count of decks as they are. *)
Definition keeps_decks {A} (c : M A) : Prop :=
  forall w, rng (snd (c w)) = rng w /\ dealt (snd (c w)) = dealt w.

(** The number of rounds [handle_client] asks for when the Request carries
    [rounds]. *)
Definition rounds_to_play (rounds : Z) : nat :=
  if rounds =? 0 then 1%nat else Z.to_nat rounds.

(** A session of scenario A rounds: the Request, then one Stand a round. *)
Definition session_world (rounds : Z) (stands : nat) : world :=
  fresh_world (pack_request rounds (str_of "cli") :: repeat stand_frame stands)
              deck_A.

(* ================================================================== *)
(** * game.py: the text of a card *)

Definition SUITS_LONG : list pystr :=
  [str_of "Hearts"%string; str_of "Diamonds"%string; str_of "Clubs"%string;
   str_of "Spades"%string].

(** [seq[i]] on a Python list: a negative index counts from the end, and an
    index that falls outside the list raises [IndexError]. *)
Definition py_index {A} (seq : list A) (i : Z) : outcome A :=
  let n := Z.of_nat (length seq) in
  let j := if i <? 0 then i + n else i in
  if (j <? 0) || (n <=? j) then Raise IndexError
  else
    match nth_error seq (Z.to_nat j) with
    | Some a => Ret a
    | None => Raise IndexError
    end.

(** [str(n)] for an [int]: its decimal digits, with a minus sign before
    them when it is negative. *)
Definition str_int (n : Z) : pystr :=
  str_of (NilZero.string_of_int (Z.to_int n)).

Definition card_to_string (card : Card) : outcome pystr :=
  let '(rank, suit) := card in
  let rank_str :=
      if rank =? 1 then str_of "A"%string
      else if rank =? 11 then str_of "J"%string
      else if rank =? 12 then str_of "Q"%string
      else if rank =? 13 then str_of "K"%string
      else str_int rank in
  match py_index SUITS_LONG suit with
  | Ret suit_str => Ret (rank_str ++ str_of " of "%string ++ suit_str)
  | Raise e => Raise e
  end.

(* ================================================================== *)
(** * client.py *)

(** How a computation of the client ends: with a value, by an exception of
    the socket and codec layer, by [EOFError] when [input()] finds the
    standard input at its end, or, for the loops that read frames, by the
    fuel of the model running out (which a fuel above the number of bytes on
    the wire rules out). *)
Inductive result (A : Type) : Type :=
| Done (a : A)
| Failed (e : exn)
| EndOfInput
| OutOfFuel.
Arguments Done {A} a.
Arguments Failed {A} e.
Arguments EndOfInput {A}.
Arguments OutOfFuel {A}.

(** The state of the client: its socket, and the lines still to come on its
    standard input. *)
Record client : Type := mkClient {
  conn : world;
  stdin : list pystr
}.

Definition C (A : Type) : Type := client -> result A * client.

Definition cret {A} (a : A) : C A := fun s => (Done a, s).

Definition cfail {A} (e : exn) : C A := fun s => (Failed e, s).

Definition cbind {A B} (c : C A) (k : A -> C B) : C B :=
  fun s =>
    match c s with
    | (Done a, s') => k a s'
    | (Failed e, s') => (Failed e, s')
    | (EndOfInput, s') => (EndOfInput, s')
    | (OutOfFuel, s') => (OutOfFuel, s')
    end.

Notation "x <~ c ;; k" := (cbind c (fun x => k))
  (at level 61, c at next level, right associativity).
Notation "' pat <~ c ;; k" :=
  (cbind c (fun x => match x with pat => k end))
  (at level 61, pat pattern, c at next level, right associativity).
Notation "c ;;~ k" := (cbind c (fun _ => k))
  (at level 61, right associativity).

(** A computation on the socket, run by the client. *)
Definition on_socket {A} (m : M A) : C A :=
  fun s =>
    match m (conn s) with
    | (Ret a, w) => (Done a, mkClient w (stdin s))
    | (Raise e, w) => (Failed e, mkClient w (stdin s))
    end.

(** A value or an exception of the codec, met by the client. *)
Definition of_outcome {A} (o : outcome A) : C A :=
  match o with
  | Ret a => cret a
  | Raise e => cfail e
  end.

(** [print(...)] of a text that may fail to be built.  The console is not
    part of the state: what is kept of a [print] is the evaluation of its
    argument, which can raise. *)
Definition print (text : outcome pystr) : C unit :=
  _ <~ of_outcome text ;; cret tt.

(** The characters that [str.strip()] removes: those for which
    [str.isspace()] holds. *)
Definition is_space (ch : Z) : bool :=
  ((0x09 <=? ch) && (ch <=? 0x0D)) || ((0x1C <=? ch) && (ch <=? 0x20))
  || (ch =? 0x85) || (ch =? 0xA0) || (ch =? 0x1680)
  || ((0x2000 <=? ch) && (ch <=? 0x200A))
  || (ch =? 0x2028) || (ch =? 0x2029) || (ch =? 0x202F) || (ch =? 0x205F)
  || (ch =? 0x3000).

Fixpoint lstrip (s : pystr) : pystr :=
  match s with
  | [] => []
  | ch :: s' => if is_space ch then lstrip s' else s
  end.

Definition strip (s : pystr) : pystr := rev (lstrip (rev (lstrip s))).

(** The loop of [ask_decision] over the lines to come: each turn takes one
    line; the line that, stripped, is a decision ends it. *)
Fixpoint ask_decision_from (lines : list pystr) : option (pystr * list pystr) :=
  match lines with
  | [] => None
  | line :: lines' =>
    let d := strip line in
    if is_decision d then Some (d, lines') else ask_decision_from lines'
  end.

Definition ask_decision : C pystr :=
  fun s =>
    match ask_decision_from (stdin s) with
    | Some (d, lines') => (Done d, mkClient (conn s) lines')
    | None => (EndOfInput, mkClient (conn s) [])
    end.

Definition _read_one_server_payload : C (Z * Z * Z) :=
  on_socket
    (data <- recv_exact SERVER_PAYLOAD_SIZE ;;
     match data with
     | None => raise ConnectionError
     | Some data =>
       match unpack_server_payload data with
       | None => raise ValueError
       | Some parsed => ret parsed
       end
     end).

(** The counters [wins], [losses] and [ties] of [play_session]. *)
Record tally : Type := mkTally { wins : Z; losses : Z; ties : Z }.

(** The [if result == RESULT_WIN ... elif ... else] that counts a result. *)
Definition count (result : Z) (t : tally) : tally :=
  if result =? RESULT_WIN then mkTally (wins t + 1) (losses t) (ties t)
  else if result =? RESULT_LOSS then mkTally (wins t) (losses t + 1) (ties t)
  else mkTally (wins t) (losses t) (ties t + 1).

(** The [for _ in range(3)] loop of the initial deal; [n] is the number of
    frames still to read. *)
Fixpoint client_deal (n : nat) (player_cards dealer_cards : list Card)
  : C (list Card * list Card) :=
  match n with
  | O => cret (player_cards, dealer_cards)
  | S n' =>
    '(result, rank, suit) <~ _read_one_server_payload ;;
    let card := (rank, suit) in
    let '(player_cards, dealer_cards) :=
        if (length player_cards <? 2)%nat
        then (player_cards ++ [card], dealer_cards)
        else (player_cards, dealer_cards ++ [card]) in
    print (card_to_string card) ;;~
    if negb (result =? RESULT_NOT_OVER) then cfail ValueError
    else client_deal n' player_cards dealer_cards
  end.

(** The [while True] loop that waits for the result after a local bust; it
    prints no card. *)
Fixpoint wait_for_result (fuel : nat) (t : tally) : C tally :=
  match fuel with
  | O => fun s => (OutOfFuel, s)
  | S fuel' =>
    '(result2, r2, s2) <~ _read_one_server_payload ;;
    if negb (result2 =? RESULT_NOT_OVER) then cret (count result2 t)
    else wait_for_result fuel' t
  end.

(** The [while True] loop of the dealer phase, after a Stand. *)
Fixpoint watch_dealer (fuel : nat) (dealer_cards : list Card) (t : tally)
  : C tally :=
  match fuel with
  | O => fun s => (OutOfFuel, s)
  | S fuel' =>
    '(result, rank, suit) <~ _read_one_server_payload ;;
    let dealer_cards := dealer_cards ++ [(rank, suit)] in
    print (card_to_string (rank, suit)) ;;~
    if negb (result =? RESULT_NOT_OVER) then cret (count result t)
    else watch_dealer fuel' dealer_cards t
  end.

(** The [while not round_done] loop of the player turn.  Every path through
    it ends the round or reads a frame and goes round again. *)
Fixpoint client_turn (fuel : nat) (player_cards dealer_cards : list Card)
         (t : tally) : C tally :=
  match fuel with
  | O => fun s => (OutOfFuel, s)
  | S fuel' =>
    let ps := hand_value player_cards in
    if ps >? 21 then wait_for_result fuel' t
    else
      decision <~ ask_decision ;;
      frame <~ of_outcome (pack_client_payload decision) ;;
      on_socket (sendall frame) ;;~
      if str_eqb decision Stand then watch_dealer fuel' dealer_cards t
      else
        '(result, rank, suit) <~ _read_one_server_payload ;;
        let player_cards := player_cards ++ [(rank, suit)] in
        print (card_to_string (rank, suit)) ;;~
        if negb (result =? RESULT_NOT_OVER) then cret (count result t)
        else client_turn fuel' player_cards dealer_cards t
  end.

(** One turn of the [for r in range(1, rounds + 1)] loop. *)
Definition client_round (fuel : nat) (t : tally) : C tally :=
  '(player_cards, dealer_cards) <~ client_deal 3 [] [] ;;
  client_turn fuel player_cards dealer_cards t.

Fixpoint client_rounds (fuel : nat) (rounds : nat) (t : tally) : C tally :=
  match rounds with
  | O => cret t
  | S rounds' =>
    t' <~ client_round fuel t ;;
    client_rounds fuel rounds' t'
  end.

(** [play_session(tcp, rounds)]; the value is the tally its last line
    prints. *)
Definition play_session (fuel : nat) (rounds : Z) : C tally :=
  client_rounds fuel (Z.to_nat rounds) (mkTally 0 0 0).

Definition CLIENT_NAME : pystr := str_of "Blackijecky-Client"%string.

(** The two statements of [main] between the connection and the end of the
    session: the Request is sent, then [play_session] runs. *)
Definition request_and_play (fuel : nat) (rounds : Z) : C tally :=
  on_socket (sendall (pack_request rounds CLIENT_NAME)) ;;~
  play_session fuel rounds.

(* ================================================================== *)
(** * Statements: further vocabulary *)

(** A Unicode scalar value: a code point that is not a surrogate. *)
Definition scalar (ch : Z) : Prop :=
  0 <= ch <= 0x10FFFF /\ ~ (0xD800 <= ch <= 0xDFFF).

(** What the decoder owes for the buffer [bs]: it yields scalar values only,
    no NUL unless [bs] has a zero byte, and never more than [bs] can hold
    once encoded again. *)
Definition decodes_well (bs : list byte) : Prop :=
  Forall scalar (utf8_decode_ignore bs) /\
  (Forall (fun b => b2z b <> 0) bs ->
   Forall (fun ch => ch <> 0) (utf8_decode_ignore bs)) /\
  (length (utf8_encode_ignore (utf8_decode_ignore bs)) <= length bs)%nat.

(** From [w] to [w'] nothing was sent: only reads took place. *)
Definition quiet (w w' : world) : Prop :=
  sends (trace w') = sends (trace w) /\ at_end w' = at_end w /\
  rng w' = rng w /\ dealt w' = dealt w.

(** Every card of [drawn] was drawn on a hit at 21 or less: the hand before
    each of them is worth at most 21. *)
Definition hit_at_most_21 (player drawn : list Card) : Prop :=
  forall k, (k < length drawn)%nat ->
            hand_value (player ++ firstn k drawn) <= 21.

(** What the player loop leaves when it has drawn [drawn] off the deck, with
    [rest] left on it, starting from the hand [player], the variable
    [last_card_sent] at [last] and the world [w]. *)
Definition player_outcome (player drawn rest : list Card) (last : Card)
           (w : world) (out : outcome player_exit) (w' : world) : Prop :=
  match out with
  | Ret (PlayerReturn code) =>
    code = RESULT_LOSS /\ 21 < hand_value (player ++ drawn) /\
    exists before card,
      player ++ drawn = before ++ [card] /\
      sends (trace w')
      = sends (trace w) ++ map (card_frame RESULT_NOT_OVER) drawn
        ++ [card_frame RESULT_LOSS card]
  | Ret (PlayerBreak deck' player' last') =>
    deck' = rest /\ player' = player ++ drawn /\
    last' = List.last drawn last /\ hand_value player' <= 21 /\
    sends (trace w') = sends (trace w) ++ map (card_frame RESULT_NOT_OVER) drawn
  | Raise e =>
    hand_value (player ++ drawn) <= 21 /\
    sends (trace w') = sends (trace w) ++ map (card_frame RESULT_NOT_OVER) drawn /\
    (e = ConnectionError \/ e = SocketTimeout \/ (e = IndexError /\ rest = []))
  end.

(** A card of the game: rank 1..13, suit 0..3. *)
Definition valid_card (c : Card) : Prop :=
  1 <= fst c <= 13 /\ 0 <= snd c <= 3.

(** How a round on the deck [p0 :: p1 :: d0 :: d1 :: deck0] can go, told by
    the cards it uses: [hits] are the cards the player draws, [draws] the
    cards the dealer draws, [rest] what is left of the deck; [frames] are the
    frames sent by the round, [out] is how [play_one_round] ends. *)
Inductive round_story (p0 p1 d0 d1 : Card) (deck0 : list Card)
          (frames : list event) (out : outcome Z) : Prop :=
| PlayerBusts (hits rest before : list Card) (card : Card) :
    deck0 = hits ++ rest ->
    hit_at_most_21 [p0; p1] hits ->
    21 < hand_value ([p0; p1] ++ hits) ->
    [p0; p1] ++ hits = before ++ [card] ->
    frames = deal_events p0 p1 d0 ++ map (card_frame RESULT_NOT_OVER) hits
             ++ [card_frame RESULT_LOSS card] ->
    out = Ret RESULT_LOSS ->
    round_story p0 p1 d0 d1 deck0 frames out
| PlayerTurnFails (hits rest : list Card) (e : exn) :
    deck0 = hits ++ rest ->
    hit_at_most_21 [p0; p1] hits ->
    hand_value ([p0; p1] ++ hits) <= 21 ->
    frames = deal_events p0 p1 d0 ++ map (card_frame RESULT_NOT_OVER) hits ->
    e = ConnectionError \/ e = SocketTimeout \/ (e = IndexError /\ rest = []) ->
    out = Raise e ->
    round_story p0 p1 d0 d1 deck0 frames out
| DealerBusts (hits draws rest before : list Card) (card : Card) :
    deck0 = hits ++ draws ++ rest ->
    hit_at_most_21 [p0; p1] hits ->
    hand_value ([p0; p1] ++ hits) <= 21 ->
    drawn_below_17 [d0; d1] draws ->
    21 < hand_value ([d0; d1] ++ draws) ->
    draws = before ++ [card] ->
    frames = deal_events p0 p1 d0 ++ map (card_frame RESULT_NOT_OVER) hits
             ++ [card_frame RESULT_NOT_OVER d1]
             ++ map (card_frame RESULT_NOT_OVER) draws
             ++ [card_frame RESULT_WIN card] ->
    out = Ret RESULT_WIN ->
    round_story p0 p1 d0 d1 deck0 frames out
| Resolved (hits draws rest : list Card) :
    deck0 = hits ++ draws ++ rest ->
    hit_at_most_21 [p0; p1] hits ->
    hand_value ([p0; p1] ++ hits) <= 21 ->
    drawn_below_17 [d0; d1] draws ->
    17 <= hand_value ([d0; d1] ++ draws) ->
    frames = deal_events p0 p1 d0 ++ map (card_frame RESULT_NOT_OVER) hits
             ++ [card_frame RESULT_NOT_OVER d1]
             ++ map (card_frame RESULT_NOT_OVER) draws
             ++ [card_frame (decide_winner (hand_value ([p0; p1] ++ hits))
                                           (hand_value ([d0; d1] ++ draws)))
                            (List.last draws d1)] ->
    out = Ret (decide_winner (hand_value ([p0; p1] ++ hits))
                             (hand_value ([d0; d1] ++ draws))) ->
    round_story p0 p1 d0 d1 deck0 frames out
| DeckRunsOut (hits draws : list Card) :
    deck0 = hits ++ draws ->
    hit_at_most_21 [p0; p1] hits ->
    hand_value ([p0; p1] ++ hits) <= 21 ->
    drawn_below_17 [d0; d1] draws ->
    hand_value ([d0; d1] ++ draws) < 17 ->
    frames = deal_events p0 p1 d0 ++ map (card_frame RESULT_NOT_OVER) hits
             ++ [card_frame RESULT_NOT_OVER d1]
             ++ map (card_frame RESULT_NOT_OVER) draws ->
    out = Raise IndexError ->
    round_story p0 p1 d0 d1 deck0 frames out.

(* ================================================================== *)
(** * Statements about the two sides together *)

(** The dealer phase of [play_one_round]: what the function does once the
    player loop is left by [break]. *)
Definition dealer_phase (d0 d1 : Card) (deck player : list Card) : M Z :=
  send_card d1 RESULT_NOT_OVER ;;;
  left <- dealer_loop deck [d0; d1] d1 ;;
  match left with
  | DealerReturn code => ret code
  | DealerDone deck dealer last_card_sent =>
    let result := decide_winner (hand_value player) (hand_value dealer) in
    send_card last_card_sent result ;;; ret result
  end.

(** The round from the player turn on: what [play_one_round] does after the
    deal. *)
Definition round_from (d0 d1 : Card) (deck player : list Card) (last : Card)
  : M Z :=
  left <- player_turn deck player last ;;
  match left with
  | PlayerReturn code => ret code
  | PlayerBreak deck player _ => dealer_phase d0 d1 deck player
  end.

(** The bytes of the frames among the events of a trace, in order: what the
    peer finds on its side of the connection. *)
Definition sent_bytes (t : list event) : list byte :=
  flat_map (fun e => match e with Sent data => data | Recvd _ => [] end) t.

(** The frame [pack_client_payload] builds for a decision. *)
Definition decision_frame (d : pystr) : list byte :=
  header TYPE_PAYLOAD ++ map z2b d.

(** The decisions that successive calls of [ask_decision] return on the
    lines to come. *)
Definition all_decisions (lines : list pystr) : list pystr :=
  filter is_decision (map strip lines).

(** The bytes of the decisions the user is going to type, one frame each. *)
Definition typed_frames (lines : list pystr) : list byte :=
  concat (map decision_frame (all_decisions lines)).

(** The bytes sent between the world [w] and a later world [w']. *)
Definition sent_since (w w' : world) : list byte :=
  sent_bytes (skipn (length (sends (trace w))) (sends (trace w'))).

(** The bytes read off the stream between [w] and a later world [w']. *)
Definition read_since (w w' : world) : list byte :=
  firstn (length (wire w) - length (wire w')) (wire w).

(** The result a frame of the server announces, if it announces one: the
    code of a ServerPayload that is not NOT_OVER. *)
Definition result_of (e : event) : list Z :=
  match e with
  | Sent data =>
    match unpack_server_payload data with
    | Some (result, _, _) =>
      if result =? RESULT_NOT_OVER then [] else [result]
    | None => []
    end
  | Recvd _ => []
  end.

(** The results announced by a run of frames, in order. *)
Definition results_in (frames : list event) : list Z :=
  flat_map result_of frames.

(** The frames sent between the world [w] and a later world [w']. *)
Definition frames_since (w w' : world) : list event :=
  skipn (length (sends (trace w))) (sends (trace w')).

(** The tally after counting [results], one after the other. *)
Definition tally_of (results : list Z) (t : tally) : tally :=
  fold_left (fun t result => count result t) results t.

(** The client follows the server through the rest of a round: fed the
    frames [new] that the server sends, the loop of the player turn, from
    the hand [player] and the lines [lines], ends the round counting [code],
    has read [new] and nothing more, has sent [consumed], and has used up
    the lines down to [lines']. *)
Definition client_follows (player : list Card) (lines lines' : list pystr)
           (code : Z) (new : list event) (consumed : list byte) : Prop :=
  forall (wc : world) (fuel : nat) (t : tally) (dealer_cards : list Card)
         (rest : list byte),
    tidy wc -> wire wc = sent_bytes new ++ rest ->
    (length (sent_bytes new) < fuel)%nat ->
    exists wc' out,
      client_turn fuel player dealer_cards t (mkClient wc lines)
      = (Done (count code t), mkClient wc' lines') /\
      tidy wc' /\ wire wc' = rest /\
      sends (trace wc') = sends (trace wc) ++ out /\ sent_bytes out = consumed.

(** The server went from [ws] to [ws'] and ended the round with [code],
    reading the decisions the user types, and the client follows it. *)
Definition turn_agrees (player : list Card) (lines : list pystr)
           (ws ws' : world) (code : Z) : Prop :=
  exists new consumed lines',
    tidy ws' /\ sends (trace ws') = sends (trace ws) ++ new /\
    wire ws = consumed ++ wire ws' /\ wire ws' = typed_frames lines' /\
    1 <= code <= 3 /\ results_in new = [code] /\
    client_follows player lines lines' code new consumed.

(** What the user types in the examples: a line that is no decision, then
    the decision, with blanks around it. *)
Definition types_stand : list pystr :=
  [str_of "stand"%string; str_of "  Stand "%string].

(** The server of an example: it will receive what the user types, in one
    chunk, and every shuffle leaves [deck]. *)
Definition server_of (lines : list pystr) (deck : list Card) : world :=
  fresh_world [typed_frames lines] deck.

(** The client of an example: it will receive what the server sends between
    [ws] and [ws']. *)
Definition client_of (ws ws' : world) : world :=
  fresh_world [sent_since ws ws'] [].

(** What the server of an example session receives: the Request, then what
    the user types, in one chunk. *)
Definition session_server (rounds : Z) (lines : list pystr) (deck : list Card)
  : world :=
  fresh_world [pack_request rounds CLIENT_NAME ++ typed_frames lines] deck.

(** The user stands in two rounds. *)
Definition types_two_stands : list pystr :=
  [str_of "Stand"%string; str_of "Stand"%string].

(** The number of results a tally has counted. *)
Definition total (t : tally) : Z := wins t + losses t + ties t.

(** Between the states [s] and [s'] the client has sent the frames of the
    decisions [ds] and nothing else, and these are the decisions typed on
    the lines that it has used up, in their order. *)
Definition sent_as_typed (s s' : client) (ds : list pystr) : Prop :=
  sends (trace (conn s'))
  = sends (trace (conn s)) ++ map (fun d => Sent (decision_frame d)) ds /\
  all_decisions (stdin s) = ds ++ all_decisions (stdin s').

(** A computation of the client that sends nothing but what is typed. *)
Definition typed_only {A} (c : C A) : Prop :=
  forall s, exists ds, sent_as_typed s (snd (c s)) ds.

(** A computation that, when it completes, has counted one result more than
    [t]. *)
Definition counts_one (t : tally) (c : C tally) : Prop :=
  forall s t', fst (c s) = Done t' -> total t' = total t + 1.

(** The ways the first frame of a session can be bad, with the exception
    each of them makes [play_session] raise: the stream ends before nine
    bytes have come, the peer having closed or staying silent; the nine
    bytes are no ServerPayload; the frame carries a suit above 3; the frame
    carries a result although the cards are still being dealt. *)
Inductive bad_first_frame (s : client) : exn -> Prop :=
| ClosedEarly :
    (length (wire (conn s)) < SERVER_PAYLOAD_SIZE)%nat ->
    at_end (conn s) = PeerClosed ->
    bad_first_frame s ConnectionError
| SilentEarly :
    (length (wire (conn s)) < SERVER_PAYLOAD_SIZE)%nat ->
    at_end (conn s) = TimedOut ->
    bad_first_frame s SocketTimeout
| NotAPayload (data rest : list byte) :
    wire (conn s) = data ++ rest -> length data = SERVER_PAYLOAD_SIZE ->
    unpack_server_payload data = None ->
    bad_first_frame s ValueError
| NoSuchSuit (data rest : list byte) (code rank suit : Z) :
    wire (conn s) = data ++ rest -> length data = SERVER_PAYLOAD_SIZE ->
    unpack_server_payload data = Some (code, rank, suit) ->
    4 <= suit ->
    bad_first_frame s IndexError
| ResultInDeal (data rest : list byte) (code rank suit : Z) :
    wire (conn s) = data ++ rest -> length data = SERVER_PAYLOAD_SIZE ->
    unpack_server_payload data = Some (code, rank, suit) ->
    0 <= suit <= 3 -> code <> RESULT_NOT_OVER ->
    bad_first_frame s ValueError.

(** A client whose server has sent one frame and closed. *)
Definition client_with_frame (frame : list byte) : client :=
  mkClient (fresh_world [frame] []) types_stand.

(** The user hits nine times. *)
Definition types_nine_hits : list pystr := repeat Hittt 9.

(* ================================================================== *)
(** * Properties *)

(* ================================================================== *)
(** * Facts about bytes *)

Lemma b2z_range (b : byte) : 0 <= b2z b < 256.
Proof.
  unfold b2z. pose proof (Byte.to_N_bounded b). lia.
Qed.

Lemma z2b_b2z (b : byte) : z2b (b2z b) = b.
Proof.
  unfold z2b. pose proof (b2z_range b) as Hr.
  rewrite Z.mod_small by exact Hr.
  unfold b2z. rewrite N2Z.id, Byte.of_to_N. reflexivity.
Qed.

Lemma b2z_z2b (z : Z) : 0 <= z < 256 -> b2z (z2b z) = z.
Proof.
  intros Hz. unfold z2b. rewrite Z.mod_small by exact Hz.
  destruct (Byte.of_N (Z.to_N z)) as [b|] eqn:E.
  - apply Byte.to_of_N in E. unfold b2z. rewrite E. lia.
  - apply Byte.of_N_None_iff in E. lia.
Qed.

Lemma b2z_inj (a b : byte) : b2z a = b2z b -> a = b.
Proof.
  intros H. rewrite <- (z2b_b2z a), <- (z2b_b2z b), H. reflexivity.
Qed.

Lemma b2z_eq_z2b (b : byte) (z : Z) : b2z b = z -> b = z2b z.
Proof.
  intros <-. symmetry. apply z2b_b2z.
Qed.

Lemma be_int_1 (a : byte) : be_int [a] = b2z a.
Proof. reflexivity. Qed.

Lemma be_int_2 (a b : byte) : be_int [a; b] = b2z a * 256 + b2z b.
Proof. reflexivity. Qed.

Lemma be_int_4 (a b c d : byte) :
  be_int [a; b; c; d] = ((b2z a * 256 + b2z b) * 256 + b2z c) * 256 + b2z d.
Proof. reflexivity. Qed.

(** The cookie is recognised exactly on its four bytes. *)
Lemma cookie_bytes (a b c d : byte) :
  be_int [a; b; c; d] = MAGIC_COOKIE <-> [a; b; c; d] = pack_u32 MAGIC_COOKIE.
Proof.
  split.
  - rewrite be_int_4. unfold MAGIC_COOKIE. intros H.
    pose proof (b2z_range a). pose proof (b2z_range b).
    pose proof (b2z_range c). pose proof (b2z_range d).
    assert (b2z a = 0xab) by lia. assert (b2z b = 0xcd) by lia.
    assert (b2z c = 0xdc) by lia. assert (b2z d = 0xba) by lia.
    rewrite (b2z_eq_z2b a 0xab), (b2z_eq_z2b b 0xcd),
            (b2z_eq_z2b c 0xdc), (b2z_eq_z2b d 0xba) by assumption.
    reflexivity.
  - intros H. injection H as -> -> -> ->. reflexivity.
Qed.

Lemma tag_byte (t : byte) (T : Z) :
  0 <= T < 256 -> (be_int [t] = T <-> t = z2b T).
Proof.
  intros HT. rewrite be_int_1. split.
  - apply b2z_eq_z2b.
  - intros ->. apply b2z_z2b. exact HT.
Qed.

(* ================================================================== *)
(** * The frame header *)

(** Take the next byte off a buffer known to be long enough. *)
Ltac uncons data :=
  destruct data as [|? data]; [simpl in *; try lia; try congruence|].

Lemma header_check (T : Z) (a b c d t : byte) :
  0 <= T < 256 ->
  (negb (be_int [a; b; c; d] =? MAGIC_COOKIE) || negb (be_int [t] =? T) = false
   <-> [a; b; c; d; t] = header T).
Proof.
  intros HT. rewrite orb_false_iff, !negb_false_iff, !Z.eqb_eq.
  rewrite cookie_bytes, (tag_byte t T HT). unfold header, pack_u8.
  split.
  - intros [H ->]. rewrite <- H. reflexivity.
  - intros H.
    change ([a; b; c; d; t]) with ([a; b; c; d] ++ [t]) in H.
    apply app_inj_tail in H. destruct H as [H ->]. split; [exact H|reflexivity].
Qed.

(** Normal forms of the four decoders on a buffer that passes the length
    check. *)
Lemma unpack_offer_eq (a b c d t p0 p1 : byte) (rest : list byte) :
  (32 <= length rest)%nat ->
  unpack_offer (a :: b :: c :: d :: t :: p0 :: p1 :: rest) =
  if negb (be_int [a; b; c; d] =? MAGIC_COOKIE) || negb (be_int [t] =? TYPE_OFFER)
  then None
  else Some (be_int [p0; p1], _unpack_name (firstn 32 rest)).
Proof.
  intros Hlen. unfold unpack_offer, OFFER_SIZE, NAME_LEN.
  replace (length (a :: b :: c :: d :: t :: p0 :: p1 :: rest) <? 4 + 1 + 2 + 32)%nat
    with false by (symmetry; apply Nat.ltb_ge; simpl; lia).
  reflexivity.
Qed.

Lemma unpack_request_eq (a b c d t r : byte) (rest : list byte) :
  (32 <= length rest)%nat ->
  unpack_request (a :: b :: c :: d :: t :: r :: rest) =
  if negb (be_int [a; b; c; d] =? MAGIC_COOKIE) || negb (be_int [t] =? TYPE_REQUEST)
  then None
  else Some (be_int [r], _unpack_name (firstn 32 rest)).
Proof.
  intros Hlen. unfold unpack_request, REQUEST_SIZE, NAME_LEN.
  replace (length (a :: b :: c :: d :: t :: r :: rest) <? 4 + 1 + 1 + 32)%nat
    with false by (symmetry; apply Nat.ltb_ge; simpl; lia).
  reflexivity.
Qed.

Lemma unpack_client_payload_eq (a b c d t x1 x2 x3 x4 x5 : byte) :
  unpack_client_payload [a; b; c; d; t; x1; x2; x3; x4; x5] =
  if negb (be_int [a; b; c; d] =? MAGIC_COOKIE) || negb (be_int [t] =? TYPE_PAYLOAD)
  then None
  else if negb (is_decision (ascii_decode_ignore [x1; x2; x3; x4; x5])) then None
       else Some (ascii_decode_ignore [x1; x2; x3; x4; x5]).
Proof. reflexivity. Qed.

Lemma unpack_server_payload_eq (a b c d t r k1 k2 s : byte) :
  unpack_server_payload [a; b; c; d; t; r; k1; k2; s] =
  if negb (be_int [a; b; c; d] =? MAGIC_COOKIE) || negb (be_int [t] =? TYPE_PAYLOAD)
  then None
  else Some (be_int [r], be_int [k1; k2], be_int [s]).
Proof. reflexivity. Qed.

Lemma unpack_offer_short (data : list byte) :
  (length data < OFFER_SIZE)%nat -> unpack_offer data = None.
Proof.
  intros H. unfold unpack_offer. apply Nat.ltb_lt in H. rewrite H. reflexivity.
Qed.

Lemma unpack_request_short (data : list byte) :
  (length data < REQUEST_SIZE)%nat -> unpack_request data = None.
Proof.
  intros H. unfold unpack_request. apply Nat.ltb_lt in H. rewrite H. reflexivity.
Qed.

Lemma unpack_client_payload_length (data : list byte) :
  length data <> CLIENT_PAYLOAD_SIZE -> unpack_client_payload data = None.
Proof.
  intros H. unfold unpack_client_payload. apply Nat.eqb_neq in H. rewrite H.
  reflexivity.
Qed.

Lemma unpack_server_payload_length (data : list byte) :
  length data <> SERVER_PAYLOAD_SIZE -> unpack_server_payload data = None.
Proof.
  intros H. unfold unpack_server_payload. apply Nat.eqb_neq in H. rewrite H.
  reflexivity.
Qed.

(** A decoder answers only on a buffer that starts with its header. *)
Lemma unpack_offer_header (data : list byte) :
  unpack_offer data <> None -> firstn 5 data = header TYPE_OFFER.
Proof.
  intros H.
  destruct (Nat.lt_ge_cases (length data) OFFER_SIZE) as [Hs|Hl].
  { elim H. apply unpack_offer_short, Hs. }
  unfold OFFER_SIZE, NAME_LEN in Hl.
  do 7 uncons data.
  rewrite unpack_offer_eq in H by (simpl in Hl; lia).
  destruct (negb _ || negb _) eqn:E; [congruence|].
  apply header_check in E; [|unfold TYPE_OFFER; lia]. exact E.
Qed.

Lemma unpack_request_header (data : list byte) :
  unpack_request data <> None -> firstn 5 data = header TYPE_REQUEST.
Proof.
  intros H.
  destruct (Nat.lt_ge_cases (length data) REQUEST_SIZE) as [Hs|Hl].
  { elim H. apply unpack_request_short, Hs. }
  unfold REQUEST_SIZE, NAME_LEN in Hl.
  do 6 uncons data.
  rewrite unpack_request_eq in H by (simpl in Hl; lia).
  destruct (negb _ || negb _) eqn:E; [congruence|].
  apply header_check in E; [|unfold TYPE_REQUEST; lia]. exact E.
Qed.

Lemma unpack_client_payload_header (data : list byte) :
  unpack_client_payload data <> None -> firstn 5 data = header TYPE_PAYLOAD.
Proof.
  intros H.
  destruct (Nat.eq_dec (length data) CLIENT_PAYLOAD_SIZE) as [Hl|Hn];
    [|elim H; apply unpack_client_payload_length, Hn].
  unfold CLIENT_PAYLOAD_SIZE in Hl.
  do 10 uncons data. destruct data; [|discriminate].
  rewrite unpack_client_payload_eq in H.
  destruct (negb _ || negb _) eqn:E; [congruence|].
  apply header_check in E; [|unfold TYPE_PAYLOAD; lia]. exact E.
Qed.

Lemma unpack_server_payload_header (data : list byte) :
  unpack_server_payload data <> None -> firstn 5 data = header TYPE_PAYLOAD.
Proof.
  intros H.
  destruct (Nat.eq_dec (length data) SERVER_PAYLOAD_SIZE) as [Hl|Hn];
    [|elim H; apply unpack_server_payload_length, Hn].
  unfold SERVER_PAYLOAD_SIZE in Hl.
  do 9 uncons data. destruct data; [|discriminate].
  rewrite unpack_server_payload_eq in H.
  destruct (negb _ || negb _) eqn:E; [congruence|].
  apply header_check in E; [|unfold TYPE_PAYLOAD; lia]. exact E.
Qed.

(** What a header says about the cookie bytes and the tag byte. *)
Lemma header_parts (T : Z) (data : list byte) :
  firstn 5 data = header T ->
  firstn 4 data = pack_u32 MAGIC_COOKIE /\ nth_error data 4 = Some (z2b T).
Proof.
  intros H. unfold header, pack_u8 in H.
  destruct data as [|a [|b [|c [|d [|t data]]]]]; try discriminate.
  simpl in H. injection H as -> -> -> -> ->. split; reflexivity.
Qed.

Lemma not_none_dec {A} (o : option A) : o = None \/ o <> None.
Proof. destruct o; [right; discriminate|left; reflexivity]. Qed.

(** C7.  Each of the four decoders returns [None] on a buffer shorter than
    the fixed length of its message type, on a buffer whose first four bytes
    are not the four bytes of the magic cookie (so with at least one of them
    changed), and on a buffer whose fifth byte is not the tag of its message
    type. *)
Theorem decode_rejects_bad_frames :
  (forall data,
      (length data < 39)%nat \/ firstn 4 data <> pack_u32 MAGIC_COOKIE
      \/ nth_error data 4 <> Some (z2b TYPE_OFFER) ->
      unpack_offer data = None) /\
  (forall data,
      (length data < 38)%nat \/ firstn 4 data <> pack_u32 MAGIC_COOKIE
      \/ nth_error data 4 <> Some (z2b TYPE_REQUEST) ->
      unpack_request data = None) /\
  (forall data,
      (length data < 10)%nat \/ firstn 4 data <> pack_u32 MAGIC_COOKIE
      \/ nth_error data 4 <> Some (z2b TYPE_PAYLOAD) ->
      unpack_client_payload data = None) /\
  (forall data,
      (length data < 9)%nat \/ firstn 4 data <> pack_u32 MAGIC_COOKIE
      \/ nth_error data 4 <> Some (z2b TYPE_PAYLOAD) ->
      unpack_server_payload data = None).
Proof.
  repeat split; intros data H.
  - destruct (not_none_dec (unpack_offer data)) as [E|E]; [exact E|exfalso].
    destruct H as [H|H].
    + apply E, unpack_offer_short, H.
    + apply unpack_offer_header, header_parts in E. tauto.
  - destruct (not_none_dec (unpack_request data)) as [E|E]; [exact E|exfalso].
    destruct H as [H|H].
    + apply E, unpack_request_short, H.
    + apply unpack_request_header, header_parts in E. tauto.
  - destruct (not_none_dec (unpack_client_payload data)) as [E|E];
      [exact E|exfalso].
    destruct H as [H|H].
    + apply E, unpack_client_payload_length. unfold CLIENT_PAYLOAD_SIZE. lia.
    + apply unpack_client_payload_header, header_parts in E. tauto.
  - destruct (not_none_dec (unpack_server_payload data)) as [E|E];
      [exact E|exfalso].
    destruct H as [H|H].
    + apply E, unpack_server_payload_length. unfold SERVER_PAYLOAD_SIZE. lia.
    + apply unpack_server_payload_header, header_parts in E. tauto.
Qed.

(** A frame with one flipped cookie byte, a frame with the tag of another
    type, and a frame one byte short are all rejected. *)
Lemma decode_rejects_bad_frames_witness :
  unpack_offer (z2b 0xab :: z2b 0xcd :: z2b 0xdd :: skipn 3 (pack_offer 8080 (str_of "srv"))) = None /\
  unpack_request (pack_offer 8080 (str_of "srv")) = None /\
  unpack_client_payload (firstn 9 (header TYPE_PAYLOAD ++ map z2b Stand)) = None /\
  unpack_server_payload (pack_request 3 (str_of "cli")) = None.
Proof.
  destruct decode_rejects_bad_frames as (Ho & Hr & Hc & Hs).
  split; [|split; [|split]].
  - apply Ho. right. left. vm_compute. discriminate.
  - apply Hr. right. right. vm_compute. discriminate.
  - apply Hc. left. vm_compute. lia.
  - apply Hs. right. right. vm_compute. discriminate.
Defined.

Lemma unpack_offer_prefix (data : list byte) :
  (OFFER_SIZE <= length data)%nat ->
  unpack_offer data = unpack_offer (firstn OFFER_SIZE data) /\
  (firstn 5 data = header TYPE_OFFER -> unpack_offer data <> None).
Proof.
  unfold OFFER_SIZE, NAME_LEN. intros Hl. do 7 uncons data.
  simpl in Hl. change (4 + 1 + 2 + 32)%nat with (7 + 32)%nat.
  cbn [Nat.add]. rewrite !firstn_cons.
  rewrite !unpack_offer_eq by (rewrite ?length_firstn; lia).
  rewrite firstn_firstn. split; [reflexivity|].
  intros H. apply header_check in H; [|unfold TYPE_OFFER; lia].
  rewrite H. discriminate.
Qed.

Lemma unpack_request_prefix (data : list byte) :
  (REQUEST_SIZE <= length data)%nat ->
  unpack_request data = unpack_request (firstn REQUEST_SIZE data) /\
  (firstn 5 data = header TYPE_REQUEST -> unpack_request data <> None).
Proof.
  unfold REQUEST_SIZE, NAME_LEN. intros Hl. do 6 uncons data.
  simpl in Hl. change (4 + 1 + 1 + 32)%nat with (6 + 32)%nat.
  cbn [Nat.add]. rewrite !firstn_cons.
  rewrite !unpack_request_eq by (rewrite ?length_firstn; lia).
  rewrite firstn_firstn. split; [reflexivity|].
  intros H. apply header_check in H; [|unfold TYPE_REQUEST; lia].
  rewrite H. discriminate.
Qed.

(** C10.  [unpack_offer] and [unpack_request] take any buffer of at least 39
    and 38 bytes: the answer is the one for its first 39 (38) bytes, whatever
    follows them, and it is not [None] when these start with the header;
    [unpack_client_payload] and [unpack_server_payload] return [None] on every
    buffer whose length is not exactly 10 and 9 bytes. *)
Theorem length_validation_is_asymmetric :
  (forall data, (39 <= length data)%nat ->
     unpack_offer data = unpack_offer (firstn 39 data) /\
     (firstn 5 data = header TYPE_OFFER -> unpack_offer data <> None)) /\
  (forall data, (38 <= length data)%nat ->
     unpack_request data = unpack_request (firstn 38 data) /\
     (firstn 5 data = header TYPE_REQUEST -> unpack_request data <> None)) /\
  (forall data, length data <> 10%nat -> unpack_client_payload data = None) /\
  (forall data, length data <> 9%nat -> unpack_server_payload data = None).
Proof.
  split; [|split; [|split]].
  - exact unpack_offer_prefix.
  - exact unpack_request_prefix.
  - exact unpack_client_payload_length.
  - exact unpack_server_payload_length.
Qed.

(** An Offer and a Request followed by three stray bytes decode as if the
    stray bytes were not there; a ClientPayload and a ServerPayload followed
    by one are refused. *)
Lemma length_validation_is_asymmetric_witness :
  unpack_offer (pack_offer 8080 (str_of "srv") ++ [x01; x02; x03])
    = Some (8080, str_of "srv") /\
  unpack_request (pack_request 3 (str_of "cli") ++ [x01; x02; x03])
    = Some (3, str_of "cli") /\
  unpack_client_payload (header TYPE_PAYLOAD ++ map z2b Stand ++ [x01]) = None /\
  unpack_server_payload (pack_server_payload 0 13 2 ++ [x01]) = None.
Proof.
  destruct length_validation_is_asymmetric as (Ho & Hr & Hc & Hs).
  split; [|split; [|split]].
  - destruct (Ho (pack_offer 8080 (str_of "srv") ++ [x01; x02; x03])) as [E _].
    + vm_compute. lia.
    + rewrite E. vm_compute. reflexivity.
  - destruct (Hr (pack_request 3 (str_of "cli") ++ [x01; x02; x03])) as [E _].
    + vm_compute. lia.
    + rewrite E. vm_compute. reflexivity.
  - apply Hc. vm_compute. lia.
  - apply Hs. vm_compute. lia.
Defined.

(* ================================================================== *)
(** * Decision text *)

Lemma str_eqb_eq (s t : pystr) : str_eqb s t = true <-> s = t.
Proof.
  revert t. induction s as [|a s IH]; intros [|b t]; simpl;
    try (split; [discriminate|discriminate]); try tauto.
  rewrite andb_true_iff, Z.eqb_eq, IH. split.
  - intros [-> ->]. reflexivity.
  - intros H. injection H as -> ->. split; reflexivity.
Qed.

Lemma is_decision_spec (s : pystr) :
  is_decision s = true <-> s = Hittt \/ s = Stand.
Proof.
  unfold is_decision. rewrite orb_true_iff, !str_eqb_eq. reflexivity.
Qed.

(** Five bytes decode to five characters only if none is dropped, and then
    they are the bytes of these characters. *)
Lemma ascii_decode_five (x1 x2 x3 x4 x5 : byte) (s : pystr) :
  length s = 5%nat ->
  ascii_decode_ignore [x1; x2; x3; x4; x5] = s ->
  [x1; x2; x3; x4; x5] = map z2b s.
Proof.
  intros Hlen <-. revert Hlen. unfold ascii_decode_ignore. simpl filter.
  destruct (b2z x1 <? 128), (b2z x2 <? 128), (b2z x3 <? 128),
           (b2z x4 <? 128), (b2z x5 <? 128); simpl; intros Hlen;
    try discriminate Hlen.
  rewrite !z2b_b2z. reflexivity.
Qed.

(** C8.  [pack_client_payload] raises [ValueError] for every decision string
    that is neither "Hittt" nor "Stand", and [unpack_client_payload] returns
    [None] for every frame of 10 bytes whose last five bytes are neither the
    bytes of "Hittt" nor those of "Stand". *)
Theorem decision_text_is_checked :
  (forall decision : pystr,
      decision <> Hittt -> decision <> Stand ->
      pack_client_payload decision = Raise ValueError) /\
  (forall data : list byte,
      length data = 10%nat ->
      slice 5 10 data <> list_byte_of_string "Hittt" ->
      slice 5 10 data <> list_byte_of_string "Stand" ->
      unpack_client_payload data = None).
Proof.
  split.
  - intros decision H1 H2. unfold pack_client_payload.
    destruct (is_decision decision) eqn:E; [|reflexivity].
    apply is_decision_spec in E. tauto.
  - intros data Hlen H1 H2.
    do 10 uncons data. destruct data; [|discriminate].
    rewrite unpack_client_payload_eq.
    destruct (negb _ || negb _); [reflexivity|].
    destruct (is_decision _) eqn:E; [exfalso|reflexivity].
    apply is_decision_spec in E. cbv [slice] in H1, H2. simpl in H1, H2.
    destruct E as [E|E]; apply ascii_decode_five in E; try reflexivity.
    + apply H1. rewrite E. reflexivity.
    + apply H2. rewrite E. reflexivity.
Qed.

(** "hit" and "stand" are refused by the encoder, and so is a frame that
    carries "HITTT" by the decoder. *)
Lemma decision_text_is_checked_witness :
  pack_client_payload (str_of "hit") = Raise ValueError /\
  pack_client_payload (str_of "stand") = Raise ValueError /\
  unpack_client_payload (header TYPE_PAYLOAD ++ list_byte_of_string "HITTT") = None.
Proof.
  destruct decision_text_is_checked as [Hp Hu].
  split; [|split].
  - apply Hp; vm_compute; discriminate.
  - apply Hp; vm_compute; discriminate.
  - apply Hu; vm_compute; [reflexivity|discriminate|discriminate].
Defined.

(* ================================================================== *)
(** * Hand values *)

Lemma hand_value_from (hand : list Card) (acc : Z) :
  fold_left (fun acc c => acc + card_value (fst c)) hand acc
  = acc + hand_value hand.
Proof.
  unfold hand_value. revert acc.
  induction hand as [|c hand IH]; intros acc; simpl.
  - lia.
  - rewrite IH, (IH (card_value (fst c))). lia.
Qed.

Lemma hand_value_nil : hand_value [] = 0.
Proof. reflexivity. Qed.

Lemma hand_value_cons (c : Card) (hand : list Card) :
  hand_value (c :: hand) = card_value (fst c) + hand_value hand.
Proof.
  unfold hand_value at 1. simpl. apply hand_value_from.
Qed.

Lemma hand_value_app (h1 h2 : list Card) :
  hand_value (h1 ++ h2) = hand_value h1 + hand_value h2.
Proof.
  induction h1 as [|c h1 IH]; simpl.
  - change (hand_value []) with 0. lia.
  - rewrite !hand_value_cons, IH. lia.
Qed.

(** C5.  [card_value] gives the Ace 11, the ranks from 11 up 10 and any other
    rank below 11 the rank itself; [hand_value] is the plain sum of these
    values over the hand, so an Ace stays at 11 in a hand over 21:
    {Ace, King} is worth 21, {10, 10, 5} is worth 25 and {Ace, Ace, 9} is
    worth 31, whatever the suits. *)
Theorem hand_value_fixed_ace :
  card_value 1 = 11 /\
  (forall rank, 11 <= rank <= 13 -> card_value rank = 10) /\
  (forall rank, rank <> 1 -> rank < 11 -> card_value rank = rank) /\
  (forall hand,
      hand_value hand = fold_right Z.add 0 (map (fun c => card_value (fst c)) hand)) /\
  (forall s1 s2, hand_value [(1, s1); (13, s2)] = 21) /\
  (forall s1 s2 s3, hand_value [(10, s1); (10, s2); (5, s3)] = 25) /\
  (forall s1 s2 s3, hand_value [(1, s1); (1, s2); (9, s3)] = 31).
Proof.
  split; [reflexivity|].
  split.
  { intros rank H. unfold card_value.
    destruct (Z.eqb_spec rank 1); [lia|].
    destruct (Z.geb_spec rank 11); [reflexivity|lia]. }
  split.
  { intros rank H1 H2. unfold card_value.
    destruct (Z.eqb_spec rank 1); [lia|].
    destruct (Z.geb_spec rank 11); [lia|reflexivity]. }
  split.
  { induction hand as [|c hand IH]; [reflexivity|].
    rewrite hand_value_cons, IH. reflexivity. }
  repeat split.
Qed.

Lemma hand_value_fixed_ace_witness :
  card_value 12 = 10 /\ card_value 7 = 7.
Proof.
  destruct hand_value_fixed_ace as (_ & Hface & Hpip & _).
  split.
  - apply Hface. lia.
  - apply Hpip; lia.
Defined.

(* ================================================================== *)
(** * UTF-8 *)

Lemma b2z_z2b_mod (z : Z) : b2z (z2b z) = z mod 256.
Proof.
  assert (E : z2b z = z2b (z mod 256)).
  { unfold z2b. rewrite Z.mod_mod by lia. reflexivity. }
  rewrite E. apply b2z_z2b. apply Z.mod_pos_bound. lia.
Qed.

Ltac split_ltb :=
  repeat match goal with
         | |- context [?a <? ?b] => destruct (Z.ltb_spec a b); try lia
         | |- context [?a <=? ?b] => destruct (Z.leb_spec a b); try lia
         | |- context [?a =? ?b] => destruct (Z.eqb_spec a b); try lia
         end.

Lemma is_continuation_z2b (z : Z) :
  0x80 <= z < 0xC0 -> is_continuation (z2b z) = true.
Proof.
  intros H. unfold is_continuation. rewrite b2z_z2b by lia.
  apply andb_true_iff. split; [apply Z.leb_le|apply Z.ltb_lt]; lia.
Qed.

(** The decoder on a well-formed sequence of one, two, three and four
    bytes. *)
Lemma decode_one (b1 : byte) (r : list byte) :
  b2z b1 < 0x80 ->
  utf8_decode_ignore (b1 :: r) = b2z b1 :: utf8_decode_ignore r.
Proof.
  intros H. cbn [utf8_decode_ignore]. split_ltb. reflexivity.
Qed.

Lemma decode_two (b1 b2 : byte) (r : list byte) :
  0xC2 <= b2z b1 < 0xE0 -> is_continuation b2 = true ->
  utf8_decode_ignore (b1 :: b2 :: r)
  = (b2z b1 * 64 + b2z b2 - 0x3080) :: utf8_decode_ignore r.
Proof.
  intros H1 H2. cbn [utf8_decode_ignore]. rewrite H2. split_ltb. reflexivity.
Qed.

Lemma decode_three (b1 b2 b3 : byte) (r : list byte) :
  0xE0 <= b2z b1 < 0xF0 ->
  is_continuation b2 = true -> is_continuation b3 = true ->
  (b2z b1 = 0xE0 -> 0xA0 <= b2z b2) ->
  (b2z b1 = 0xED -> b2z b2 < 0xA0) ->
  utf8_decode_ignore (b1 :: b2 :: b3 :: r)
  = (b2z b1 * 4096 + b2z b2 * 64 + b2z b3 - 0xE2080) :: utf8_decode_ignore r.
Proof.
  intros H1 H2 H3 Hlow Hsur. cbn [utf8_decode_ignore]. rewrite H2, H3.
  cbn [negb orb]. split_ltb; reflexivity.
Qed.

Lemma decode_four (b1 b2 b3 b4 : byte) (r : list byte) :
  0xF0 <= b2z b1 < 0xF5 ->
  is_continuation b2 = true -> is_continuation b3 = true ->
  is_continuation b4 = true ->
  (b2z b1 = 0xF0 -> 0x90 <= b2z b2) ->
  (b2z b1 = 0xF4 -> b2z b2 < 0x90) ->
  utf8_decode_ignore (b1 :: b2 :: b3 :: b4 :: r)
  = (b2z b1 * 262144 + b2z b2 * 4096 + b2z b3 * 64 + b2z b4 - 0x3C82080)
      :: utf8_decode_ignore r.
Proof.
  intros H1 H2 H3 H4 Hlow Hhigh. cbn [utf8_decode_ignore]. rewrite H2, H3, H4.
  cbn [negb orb]. split_ltb; reflexivity.
Qed.

Lemma utf8_decode_encode_char (ch : Z) (rest : list byte) :
  0 <= ch <= 0x10FFFF -> ~ (0xD800 <= ch <= 0xDFFF) ->
  utf8_decode_ignore (utf8_encode_char ch ++ rest)
  = ch :: utf8_decode_ignore rest.
Proof.
  intros Hr Hs. unfold utf8_encode_char.
  destruct (Z.ltb_spec ch 0x80).
  { cbn [app]. rewrite decode_one; rewrite b2z_z2b by lia; [reflexivity|lia]. }
  destruct (Z.ltb_spec ch 0x800).
  { cbn [app].
    assert (0 <= ch / 64 < 32) by (split; [apply Z.div_pos|apply Z.div_lt_upper_bound]; lia).
    assert (0 <= ch mod 64 < 64) by (apply Z.mod_pos_bound; lia).
    assert (2 <= ch / 64) by (apply Z.div_le_lower_bound; lia).
    rewrite decode_two.
    - rewrite !b2z_z2b by lia. f_equal.
      pose proof (Z.div_mod ch 64 ltac:(lia)). lia.
    - rewrite b2z_z2b by lia. lia.
    - apply is_continuation_z2b. lia. }
  destruct (Z.leb_spec 0xD800 ch), (Z.leb_spec ch 0xDFFF); cbn [andb]; try lia.
  - (* 0xE000 .. 0x10FFFF *)
    assert (0 <= (ch / 64) mod 64 < 64) by (apply Z.mod_pos_bound; lia).
    assert (0 <= ch mod 64 < 64) by (apply Z.mod_pos_bound; lia).
    pose proof (Z.div_mod ch 64 ltac:(lia)) as E1.
    pose proof (Z.div_mod (ch / 64) 64 ltac:(lia)) as E2.
    assert (E3 : ch / 64 / 64 = ch / 4096) by (rewrite Z.div_div by lia; reflexivity).
    rewrite E3 in E2.
    destruct (Z.ltb_spec ch 0x10000); cbn [app].
    + assert (0 <= ch / 4096 < 16) by (split; [apply Z.div_pos|apply Z.div_lt_upper_bound]; lia).
      rewrite decode_three; rewrite ?b2z_z2b by lia;
        try (apply is_continuation_z2b; lia); try lia.
      f_equal. lia.
    + assert (0 <= (ch / 4096) mod 64 < 64) by (apply Z.mod_pos_bound; lia).
      pose proof (Z.div_mod (ch / 4096) 64 ltac:(lia)) as E4.
      assert (E5 : ch / 4096 / 64 = ch / 262144) by (rewrite Z.div_div by lia; reflexivity).
      rewrite E5 in E4.
      assert (0 <= ch / 262144 < 5) by (split; [apply Z.div_pos|apply Z.div_lt_upper_bound]; lia).
      rewrite decode_four; rewrite ?b2z_z2b by lia;
        try (apply is_continuation_z2b; lia); try lia.
      f_equal. lia.
  - (* 0x800 .. 0xD7FF *)
    destruct (Z.ltb_spec ch 0x10000); [|lia]. cbn [app].
    assert (0 <= ch / 4096 < 16) by (split; [apply Z.div_pos|apply Z.div_lt_upper_bound]; lia).
    assert (0 <= (ch / 64) mod 64 < 64) by (apply Z.mod_pos_bound; lia).
    assert (0 <= ch mod 64 < 64) by (apply Z.mod_pos_bound; lia).
    pose proof (Z.div_mod ch 64 ltac:(lia)) as E1.
    pose proof (Z.div_mod (ch / 64) 64 ltac:(lia)) as E2.
    assert (E3 : ch / 64 / 64 = ch / 4096) by (rewrite Z.div_div by lia; reflexivity).
    rewrite E3 in E2.
    rewrite decode_three; rewrite ?b2z_z2b by lia;
      try (apply is_continuation_z2b; lia); try lia.
    f_equal. lia.
Qed.

Lemma utf8_roundtrip (s : pystr) :
  Forall encodable s -> utf8_decode_ignore (utf8_encode_ignore s) = s.
Proof.
  induction 1 as [|ch s [Hr Hs] _ IH]; [reflexivity|].
  unfold utf8_encode_ignore in *. cbn [flat_map].
  rewrite utf8_decode_encode_char by (try exact Hs; lia).
  rewrite IH. reflexivity.
Qed.

(* ================================================================== *)
(** * Name fields *)

Lemma utf8_encode_char_nonzero (ch : Z) :
  encodable ch -> Forall (fun b => b2z b <> 0) (utf8_encode_char ch).
Proof.
  intros [Hr Hs]. unfold utf8_encode_char.
  assert (0 <= ch mod 64 < 64) by (apply Z.mod_pos_bound; lia).
  assert (0 <= (ch / 64) mod 64 < 64) by (apply Z.mod_pos_bound; lia).
  assert (0 <= (ch / 4096) mod 64 < 64) by (apply Z.mod_pos_bound; lia).
  destruct (Z.ltb_spec ch 0x80).
  { repeat constructor. rewrite b2z_z2b; lia. }
  destruct (Z.ltb_spec ch 0x800).
  { assert (0 <= ch / 64 < 32)
      by (split; [apply Z.div_pos|apply Z.div_lt_upper_bound]; lia).
    repeat constructor; rewrite b2z_z2b; lia. }
  destruct (Z.leb_spec 0xD800 ch), (Z.leb_spec ch 0xDFFF); cbn [andb]; try lia.
  - destruct (Z.ltb_spec ch 0x10000).
    + assert (0 <= ch / 4096 < 16)
        by (split; [apply Z.div_pos|apply Z.div_lt_upper_bound]; lia).
      repeat constructor; rewrite b2z_z2b; lia.
    + assert (0 <= ch / 262144 < 5)
        by (split; [apply Z.div_pos|apply Z.div_lt_upper_bound]; lia).
      repeat constructor; rewrite b2z_z2b; lia.
  - destruct (Z.ltb_spec ch 0x10000); [|lia].
    assert (0 <= ch / 4096 < 16)
      by (split; [apply Z.div_pos|apply Z.div_lt_upper_bound]; lia).
    repeat constructor; rewrite b2z_z2b; lia.
Qed.

Lemma utf8_encode_nonzero (s : pystr) :
  Forall encodable s -> Forall (fun b => b2z b <> 0) (utf8_encode_ignore s).
Proof.
  induction 1 as [|ch s Hch _ IH]; [constructor|].
  unfold utf8_encode_ignore in *. cbn [flat_map].
  apply Forall_app. split; [apply utf8_encode_char_nonzero, Hch|exact IH].
Qed.

Lemma before_nul_padded (raw : list byte) (n : nat) :
  Forall (fun b => b2z b <> 0) raw ->
  before_nul (raw ++ repeat x00 n) = raw.
Proof.
  induction 1 as [|b raw Hb _ IH]; simpl.
  - destruct n; reflexivity.
  - destruct (Z.eqb_spec (b2z b) 0); [contradiction|]. rewrite IH. reflexivity.
Qed.

Lemma length_pack_name (name : pystr) : length (_pack_name name) = NAME_LEN.
Proof.
  unfold _pack_name, ljust. rewrite length_app, repeat_length.
  pose proof (firstn_le_length NAME_LEN (utf8_encode_ignore name)). lia.
Qed.

Lemma unpack_pack_name (name : pystr) :
  fits_name_field name -> _unpack_name (_pack_name name) = name.
Proof.
  intros [Hch Hlen]. unfold _unpack_name, _pack_name, ljust.
  rewrite firstn_all2 by exact Hlen.
  rewrite before_nul_padded by (apply utf8_encode_nonzero, Hch).
  apply utf8_roundtrip, Hch.
Qed.

Lemma name_field_slice (name : pystr) :
  firstn 32 (_pack_name name) = _pack_name name.
Proof.
  apply firstn_all2. rewrite length_pack_name. unfold NAME_LEN. lia.
Qed.

Lemma land_u16 (v : Z) : 0 <= v <= 65535 -> Z.land v 0xFFFF = v.
Proof.
  intros H. change 0xFFFF with (Z.ones 16). rewrite Z.land_ones by lia.
  apply Z.mod_small. change (2 ^ 16) with 65536. lia.
Qed.

Lemma land_u8 (v : Z) : 0 <= v <= 255 -> Z.land v 0xFF = v.
Proof.
  intros H. change 0xFF with (Z.ones 8). rewrite Z.land_ones by lia.
  apply Z.mod_small. change (2 ^ 8) with 256. lia.
Qed.

Lemma be_int_pack_u8 (v : Z) : 0 <= v <= 255 -> be_int (pack_u8 v) = v.
Proof.
  intros H. unfold pack_u8. rewrite be_int_1. apply b2z_z2b. lia.
Qed.

Lemma be_int_pack_u16 (v : Z) : 0 <= v <= 65535 -> be_int (pack_u16 v) = v.
Proof.
  intros H. unfold pack_u16. rewrite be_int_2, !b2z_z2b_mod.
  pose proof (Z.div_mod v 256 ltac:(lia)).
  pose proof (Z.mod_pos_bound v 256 ltac:(lia)).
  rewrite (Z.mod_small (v / 256)); [lia|].
  split; [apply Z.div_pos|apply Z.div_lt_upper_bound]; lia.
Qed.

Lemma ascii_encode_decision (d : pystr) :
  d = Hittt \/ d = Stand ->
  exists x1 x2 x3 x4 x5,
    ascii_encode d = Ret [x1; x2; x3; x4; x5] /\
    ascii_decode_ignore [x1; x2; x3; x4; x5] = d.
Proof.
  intros [->| ->]; do 5 eexists; split; reflexivity.
Qed.

(** C1, amended.  For each of the four message types, decoding the encoding
    of a message returns the message, for every port in 0..65535, every round
    count in 0..255, both decisions, every result and suit in 0..255 and rank
    in 0..65535, and every name that fits its field: its characters are
    encodable and none is NUL, and its UTF-8 encoding has at most 32 bytes. *)
Theorem roundtrip_when_name_fits :
  (forall tcp_port name,
      0 <= tcp_port <= 65535 -> fits_name_field name ->
      unpack_offer (pack_offer tcp_port name) = Some (tcp_port, name)) /\
  (forall rounds name,
      0 <= rounds <= 255 -> fits_name_field name ->
      unpack_request (pack_request rounds name) = Some (rounds, name)) /\
  (forall decision,
      decision = Hittt \/ decision = Stand ->
      exists frame,
        pack_client_payload decision = Ret frame /\
        unpack_client_payload frame = Some decision) /\
  (forall result rank suit,
      0 <= result <= 255 -> 0 <= rank <= 65535 -> 0 <= suit <= 255 ->
      unpack_server_payload (pack_server_payload result rank suit)
      = Some (result, rank, suit)).
Proof.
  split; [|split; [|split]].
  - intros p name Hp Hname. unfold pack_offer. rewrite land_u16 by exact Hp.
    cbn [pack_u32 pack_u8 pack_u16 app].
    rewrite unpack_offer_eq by (rewrite length_pack_name; unfold NAME_LEN; lia).
    change (negb _ || negb _) with false. cbv iota.
    rewrite name_field_slice, unpack_pack_name by exact Hname.
    change [z2b (p / 256); z2b p] with (pack_u16 p).
    rewrite be_int_pack_u16 by exact Hp. reflexivity.
  - intros r name Hr Hname. unfold pack_request. rewrite land_u8 by exact Hr.
    cbn [pack_u32 pack_u8 app].
    rewrite unpack_request_eq by (rewrite length_pack_name; unfold NAME_LEN; lia).
    change (negb _ || negb _) with false. cbv iota.
    rewrite name_field_slice, unpack_pack_name by exact Hname.
    change [z2b r] with (pack_u8 r).
    rewrite be_int_pack_u8 by exact Hr. reflexivity.
  - intros d Hd. unfold pack_client_payload.
    destruct (ascii_encode_decision d Hd) as (x1 & x2 & x3 & x4 & x5 & Henc & Hdec).
    apply is_decision_spec in Hd. rewrite Hd, Henc. cbn [negb].
    eexists. split; [reflexivity|].
    cbn [pack_u32 pack_u8 app]. rewrite unpack_client_payload_eq.
    change (negb _ || negb _) with false. cbv iota.
    rewrite Hdec, Hd. reflexivity.
  - intros res rank suit Hres Hrank Hsuit. unfold pack_server_payload.
    rewrite (land_u8 res), (land_u16 rank), (land_u8 suit) by assumption.
    unfold pack_u32, pack_u16, pack_u8. cbn [app]. rewrite unpack_server_payload_eq.
    change (negb _ || negb _) with false. cbv iota.
    change [z2b res] with (pack_u8 res). change [z2b suit] with (pack_u8 suit).
    change [z2b (rank / 256); z2b rank] with (pack_u16 rank).
    rewrite !be_int_pack_u8, be_int_pack_u16 by assumption. reflexivity.
Qed.

Lemma name_srv_fits : fits_name_field (str_of "srv").
Proof.
  split.
  - repeat constructor; unfold encodable; simpl; lia.
  - vm_compute. lia.
Defined.

(** An Offer and a Request with short names, one of them outside ASCII, a
    decision and a card frame all come back unchanged. *)
Lemma roundtrip_when_name_fits_witness :
  unpack_offer (pack_offer 8080 (str_of "srv")) = Some (8080, str_of "srv") /\
  unpack_request (pack_request 3 [0x20AC; 0x1F0A1]) = Some (3, [0x20AC; 0x1F0A1]) /\
  (exists frame,
      pack_client_payload Hittt = Ret frame /\
      unpack_client_payload frame = Some Hittt) /\
  unpack_server_payload (pack_server_payload 3 13 2) = Some (3, 13, 2).
Proof.
  destruct roundtrip_when_name_fits as (Ho & Hr & Hc & Hs).
  split; [|split; [|split]].
  - apply Ho; [lia|exact name_srv_fits].
  - apply Hr; [lia|]. split.
    + repeat constructor; unfold encodable; simpl; lia.
    + vm_compute. lia.
  - apply Hc. left. reflexivity.
  - apply Hs; lia.
Defined.

(** C1 as stated fails: a name with an embedded NUL comes back cut at the
    NUL, and a name of 33 bytes comes back without its last byte. *)
Lemma roundtrip_loses_long_and_nul_names :
  unpack_offer (pack_offer 8080 [97; 0; 98]) = Some (8080, [97]) /\
  unpack_offer (pack_offer 8080 [97; 0; 98]) <> Some (8080, [97; 0; 98]) /\
  unpack_request (pack_request 3 (repeat 97 33)) = Some (3, repeat 97 32) /\
  unpack_request (pack_request 3 (repeat 97 33)) <> Some (3, repeat 97 33).
Proof.
  split; [vm_compute; reflexivity|].
  split; [vm_compute; discriminate|].
  split; [vm_compute; reflexivity|].
  vm_compute; discriminate.
Qed.

(* ================================================================== *)
(** * Running the monad *)

Lemma bind_ret {A B} (c : M A) (k : A -> M B) (w w' : world) (a : A) :
  c w = (Ret a, w') -> bind c k w = k a w'.
Proof. intros H. unfold bind. rewrite H. reflexivity. Qed.

Lemma world_eta (w : world) : step_world w (inbox w) [] = w.
Proof. destruct w. unfold step_world. simpl. rewrite app_nil_r. reflexivity. Qed.

Lemma step_step (w : world) (c1 c2 : list (list byte)) (e1 e2 : list event) :
  step_world (step_world w c1 e1) c2 e2 = step_world w c2 (e1 ++ e2).
Proof. unfold step_world. simpl. rewrite app_assoc. reflexivity. Qed.

Lemma sent_sent (w : world) (e1 e2 : list event) :
  sent (sent w e1) e2 = sent w (e1 ++ e2).
Proof. unfold sent. simpl. apply step_step. Qed.

Lemma sent_step (w : world) (c : list (list byte)) (e1 e2 : list event) :
  sent (step_world w c e1) e2 = step_world w c (e1 ++ e2).
Proof. unfold sent. simpl. apply step_step. Qed.

Lemma step_sent (w : world) (c : list (list byte)) (e1 e2 : list event) :
  step_world (sent w e1) c e2 = step_world w c (e1 ++ e2).
Proof. unfold sent. apply step_step. Qed.

Lemma send_card_eq (card : Card) (code : Z) (w : world) :
  send_card card code w = (Ret tt, sent w [card_frame code card]).
Proof. destruct card as [rank suit]. reflexivity. Qed.

Lemma last_of_snoc (hand : list Card) (card : Card) (w : world) :
  last_of (hand ++ [card]) w = (Ret card, w).
Proof. unfold last_of. rewrite rev_unit. reflexivity. Qed.

Lemma unpack_hit_frame : unpack_client_payload hit_frame = Some Hittt.
Proof. reflexivity. Qed.

Lemma unpack_stand_frame : unpack_client_payload stand_frame = Some Stand.
Proof. reflexivity. Qed.

(* ================================================================== *)
(** * The bust branch of the player loop *)

Lemma player_turn_bust (deck hand : list Card) (card last : Card) (w : world) :
  21 < hand_value (hand ++ [card]) ->
  player_turn deck (hand ++ [card]) last w
  = (Ret (PlayerReturn RESULT_LOSS), sent w [card_frame RESULT_LOSS card]).
Proof.
  intros H. destruct deck as [|c deck]; cbn [player_turn];
    (replace (hand_value (hand ++ [card]) >? 21) with true
      by (symmetry; apply Z.gtb_lt; lia));
    rewrite (bind_ret _ _ _ _ _ (last_of_snoc hand card w));
    rewrite (bind_ret _ _ _ _ _ (send_card_eq card RESULT_LOSS w));
    reflexivity.
Qed.

(** The fuel of [recv_exact] is enough: with at least as many turns as bytes
    still missing, the loop never stops for lack of fuel, so more fuel
    changes nothing. *)
Lemma recv_exact_loop_fuel (fuel : nat) :
  forall (fuel' n : nat) (chunks : list (list byte)) (got : nat) (w : world),
    (n - got <= fuel)%nat -> (n - got <= fuel')%nat ->
    recv_exact_loop fuel n chunks got w = recv_exact_loop fuel' n chunks got w.
Proof.
  induction fuel as [|fuel IH]; intros fuel' n chunks got w Hf Hf'.
  - destruct fuel'; cbn [recv_exact_loop];
      (replace (got <? n)%nat with false
        by (symmetry; apply Nat.ltb_ge; lia)); reflexivity.
  - destruct fuel' as [|fuel']; cbn [recv_exact_loop];
      destruct (Nat.ltb_spec got n) as [Hlt|Hge]; try reflexivity; try lia.
    unfold bind. destruct (recv (n - got) w) as [[part|e] w1]; [|reflexivity].
    destruct part as [|b part]; [reflexivity|].
    apply IH; simpl; lia.
Qed.

Lemma recv_exact_any_fuel (n fuel : nat) (w : world) :
  (n <= fuel)%nat -> recv_exact_loop fuel n [] 0 w = recv_exact n w.
Proof.
  intros H. unfold recv_exact. apply recv_exact_loop_fuel; lia.
Qed.

(* ================================================================== *)
(** * Reading a frame off the stream, however it is cut into chunks *)

Lemma split_short (c d m r : list byte) :
  (length c <= length d)%nat -> c ++ m = d ++ r ->
  exists d1, d = c ++ d1 /\ m = d1 ++ r.
Proof.
  revert d. induction c as [|x c IH]; intros d Hlen H.
  - exists d. split; [reflexivity|exact H].
  - destruct d as [|y d]; [simpl in Hlen; lia|].
    simpl in H. injection H as -> H.
    destruct (IH d ltac:(simpl in Hlen; lia) H) as (d1 & -> & ->).
    exists d1. split; reflexivity.
Qed.

Lemma split_long (c d m r : list byte) :
  (length d < length c)%nat -> c ++ m = d ++ r ->
  firstn (length d) c = d /\ skipn (length d) c ++ m = r /\
  skipn (length d) c <> [].
Proof.
  revert c. induction d as [|y d IH]; intros c Hlen H.
  - simpl. split; [reflexivity|]. split; [exact H|].
    destruct c; [simpl in Hlen; lia|discriminate].
  - destruct c as [|x c]; [simpl in Hlen; lia|].
    simpl in H. injection H as -> H.
    destruct (IH c ltac:(simpl in Hlen; lia) H) as (H1 & H2 & H3).
    simpl. rewrite H1. split; [reflexivity|]. split; assumption.
Qed.

Lemma recv_chunk (k : nat) (w : world) (chunk : list byte)
      (more : list (list byte)) :
  inbox w = chunk :: more ->
  recv k w =
  if (length chunk <=? k)%nat
  then (Ret chunk, step_world w more [Recvd chunk])
  else (Ret (firstn k chunk),
        step_world w (skipn k chunk :: more) [Recvd (firstn k chunk)]).
Proof.
  intros H. unfold recv. rewrite H.
  destruct (length chunk <=? k)%nat; reflexivity.
Qed.

(** The loop of [recv_exact] when the stream holds the bytes still missing:
    it returns them after what it has, and leaves the rest of the stream. *)
Lemma recv_exact_loop_stream (fuel : nat) :
  forall (n : nat) (chunks : list (list byte)) (got : nat) (w : world)
         (data rest : list byte),
    tidy w -> wire w = data ++ rest ->
    (got + length data = n)%nat -> (length data <= fuel)%nat ->
    exists w' parts,
      recv_exact_loop fuel n chunks got w
      = (Ret (Some (concat chunks ++ data)), w') /\
      tidy w' /\ wire w' = rest /\
      w' = step_world w (inbox w') (map Recvd parts) /\
      (data <> [] -> parts <> []).
Proof.
  assert (Hdone : forall fuel n chunks w rest,
             tidy w -> wire w = rest ->
             exists w' parts,
               recv_exact_loop fuel n chunks n w
               = (Ret (Some (concat chunks ++ [])), w') /\
               tidy w' /\ wire w' = rest /\
               w' = step_world w (inbox w') (map Recvd parts) /\
               (@nil byte <> [] -> parts <> [])).
  { intros f n chunks w rest Ht Hw. exists w, [].
    split.
    - destruct f; cbn [recv_exact_loop]; rewrite Nat.ltb_irrefl, app_nil_r;
        reflexivity.
    - split; [exact Ht|]. split; [exact Hw|].
      split; [symmetry; apply world_eta|]. intros H. elim H. reflexivity. }
  induction fuel as [|fuel IH]; intros n chunks got w data rest Ht Hw Hn Hf.
  - destruct data; [|simpl in Hf; lia].
    simpl in Hn. rewrite Nat.add_0_r in Hn. subst got. apply Hdone; assumption.
  - destruct data as [|b data].
    { simpl in Hn. rewrite Nat.add_0_r in Hn. subst got. apply Hdone; assumption. }
    cbn [recv_exact_loop].
    replace (got <? n)%nat with true
      by (symmetry; apply Nat.ltb_lt; simpl in Hn; lia).
    replace (n - got)%nat with (length (b :: data)) by lia.
    unfold wire in Hw. unfold tidy in Ht.
    destruct (inbox w) as [|chunk more] eqn:Hin; [discriminate Hw|].
    inversion Ht as [|c l Hc Hmore]; subst c l.
    cbn [concat] in Hw.
    unfold bind. rewrite (recv_chunk _ w chunk more Hin).
    destruct (Nat.leb_spec (length chunk) (length (b :: data))) as [Hle|Hgt].
    + destruct (split_short _ _ _ _ Hle Hw) as (d1 & Hd & Hm).
      destruct chunk as [|x chunk]; [contradiction|].
      destruct (IH n (chunks ++ [x :: chunk]) (got + length (x :: chunk))%nat
                   (step_world w more [Recvd (x :: chunk)]) d1 rest)
        as (w' & parts & Hrun & Ht' & Hw' & Hstep & _).
      * exact Hmore.
      * exact Hm.
      * rewrite Hd, length_app in Hn. lia.
      * rewrite Hd, length_app in Hf. simpl in Hf. lia.
      * exists w', ((x :: chunk) :: parts).
        split.
        { rewrite Hrun, Hd, concat_app. cbn [concat].
          rewrite app_nil_r, <- app_assoc. reflexivity. }
        split; [exact Ht'|]. split; [exact Hw'|].
        split; [|discriminate].
        rewrite Hstep at 1. rewrite step_step. reflexivity.
    + destruct (split_long _ _ _ _ Hgt Hw) as (Hfirst & Hskip & Hne).
      rewrite Hfirst.
      destruct (IH n (chunks ++ [b :: data]) (got + length (b :: data))%nat
                   (step_world w (skipn (length (b :: data)) chunk :: more)
                               [Recvd (b :: data)]) [] rest)
        as (w' & parts & Hrun & Ht' & Hw' & Hstep & _).
      * constructor; assumption.
      * unfold wire. cbn [inbox step_world concat]. exact Hskip.
      * simpl in Hn |- *. lia.
      * simpl. lia.
      * exists w', ((b :: data) :: parts).
        split.
        { rewrite Hrun, concat_app. cbn [concat].
          rewrite !app_nil_r. reflexivity. }
        split; [exact Ht'|]. split; [exact Hw'|].
        split; [|discriminate].
        rewrite Hstep at 1. rewrite step_step. reflexivity.
Qed.

(** [recv_exact n] returns the next [n] bytes of the stream. *)
Lemma recv_exact_stream (n : nat) (w : world) (data rest : list byte) :
  tidy w -> wire w = data ++ rest -> length data = n ->
  exists w' parts,
    recv_exact n w = (Ret (Some data), w') /\
    tidy w' /\ wire w' = rest /\
    w' = step_world w (inbox w') (map Recvd parts) /\
    (data <> [] -> parts <> []).
Proof.
  intros Ht Hw Hn. unfold recv_exact.
  apply (recv_exact_loop_stream n n [] 0%nat w data rest Ht Hw); simpl; lia.
Qed.

(** [recv_exact_stream] with the world after the read written out. *)
Lemma recv_exact_next (n : nat) (w : world) (data rest : list byte) :
  tidy w -> wire w = data ++ rest -> length data = n -> data <> [] ->
  exists chunks parts part,
    recv_exact n w
    = (Ret (Some data), step_world w chunks (map Recvd parts ++ [Recvd part])) /\
    Forall (fun chunk => chunk <> []) chunks /\ concat chunks = rest.
Proof.
  intros Ht Hw Hn Hne.
  destruct (recv_exact_stream n w data rest Ht Hw Hn)
    as (w' & parts & Hrun & Ht' & Hw' & Hstep & Hparts).
  destruct (exists_last (Hparts Hne)) as (parts0 & part & ->).
  exists (inbox w'), parts0, part.
  rewrite map_app in Hstep. cbn [map] in Hstep.
  rewrite <- Hstep. auto.
Qed.

Lemma tidy_step (w : world) (chunks : list (list byte)) (events : list event) :
  Forall (fun chunk => chunk <> []) chunks -> tidy (step_world w chunks events).
Proof. intros H. exact H. Qed.

(* ================================================================== *)
(** * Traces *)

Lemma sends_app (t1 t2 : list event) : sends (t1 ++ t2) = sends t1 ++ sends t2.
Proof. apply filter_app. Qed.

Lemma sends_reads (parts : list (list byte)) : sends (map Recvd parts) = [].
Proof. induction parts as [|p parts IH]; [reflexivity|exact IH]. Qed.

Lemma sends_at_end_rev_app (frames t : list event) (part : list byte) :
  Forall (fun e => is_sent e = true) frames ->
  sends_at_end_rev (frames ++ Recvd part :: t) = frames.
Proof.
  induction 1 as [|e frames He _ IH]; [reflexivity|].
  cbn [app sends_at_end_rev]. rewrite He, IH. reflexivity.
Qed.

(** What follows the last read of a trace that ends with a read and then
    frames. *)
Lemma sent_after_last_read_app (t frames : list event) (part : list byte) :
  Forall (fun e => is_sent e = true) frames ->
  sent_after_last_read (t ++ Recvd part :: frames) = frames.
Proof.
  intros H. unfold sent_after_last_read.
  rewrite rev_app_distr. cbn [rev]. rewrite <- app_assoc. cbn [app].
  rewrite sends_at_end_rev_app.
  - apply rev_involutive.
  - apply Forall_rev, H.
Qed.

(* ================================================================== *)
(** * One turn of the player loop, on the stream *)

Lemma player_turn_hit_stream (deck player : list Card) (card last : Card)
      (w : world) (rest : list byte) :
  hand_value player <= 21 -> tidy w -> wire w = hit_frame ++ rest ->
  exists chunks parts part,
    Forall (fun chunk => chunk <> []) chunks /\ concat chunks = rest /\
    player_turn (card :: deck) player last w
    = player_turn deck (player ++ [card]) card
                  (step_world w chunks
                              (map Recvd parts
                               ++ [Recvd part; card_frame RESULT_NOT_OVER card])).
Proof.
  intros Hv Ht Hw.
  destruct (recv_exact_next CLIENT_PAYLOAD_SIZE w hit_frame rest Ht Hw eq_refl
                            ltac:(discriminate))
    as (chunks & parts & part & Hrun & Hc & Hrest).
  exists chunks, parts, part. split; [exact Hc|]. split; [exact Hrest|].
  cbn [player_turn].
  replace (hand_value player >? 21) with false
    by (symmetry; rewrite Z.gtb_ltb; apply Z.ltb_ge; lia).
  rewrite (bind_ret _ _ _ _ _ Hrun), unpack_hit_frame.
  change (str_eqb Hittt Hittt) with true. cbv iota.
  rewrite (bind_ret _ _ _ _ _ (send_card_eq card RESULT_NOT_OVER _)).
  rewrite sent_step, <- app_assoc. reflexivity.
Qed.

Lemma player_turn_stand_stream (deck player : list Card) (last : Card)
      (w : world) (rest : list byte) :
  hand_value player <= 21 -> tidy w -> wire w = stand_frame ++ rest ->
  exists chunks parts part,
    Forall (fun chunk => chunk <> []) chunks /\ concat chunks = rest /\
    player_turn deck player last w
    = (Ret (PlayerBreak deck player last),
       step_world w chunks (map Recvd parts ++ [Recvd part])).
Proof.
  intros Hv Ht Hw.
  destruct (recv_exact_next CLIENT_PAYLOAD_SIZE w stand_frame rest Ht Hw eq_refl
                            ltac:(discriminate))
    as (chunks & parts & part & Hrun & Hc & Hrest).
  exists chunks, parts, part. split; [exact Hc|]. split; [exact Hrest|].
  destruct deck as [|c deck]; cbn [player_turn];
    (replace (hand_value player >? 21) with false
      by (symmetry; rewrite Z.gtb_ltb; apply Z.ltb_ge; lia));
    rewrite (bind_ret _ _ _ _ _ Hrun), unpack_stand_frame; reflexivity.
Qed.

(* ================================================================== *)
(** * The round around the player loop *)

Lemma bind_ret_l {A B} (a : A) (k : A -> M B) (w : world) :
  bind (ret a) k w = k a w.
Proof. reflexivity. Qed.

(** The round up to the player loop: four pops and the three frames of the
    deal. *)
Lemma play_round_deal (p0 p1 d0 d1 : Card) (deck : list Card) (w : world) :
  play_round_with (p0 :: p1 :: d0 :: d1 :: deck) w =
  bind (player_turn deck [p0; p1] d0)
       (fun left =>
          match left with
          | PlayerReturn code => ret code
          | PlayerBreak deck player _ =>
            send_card d1 RESULT_NOT_OVER ;;;
            left <- dealer_loop deck [d0; d1] d1 ;;
            match left with
            | DealerReturn code => ret code
            | DealerDone deck dealer last_card_sent =>
              let result := decide_winner (hand_value player) (hand_value dealer) in
              send_card last_card_sent result ;;; ret result
            end
          end)
       (sent w (deal_events p0 p1 d0)).
Proof.
  unfold play_round_with. repeat (cbn [pop]; rewrite bind_ret_l; cbv beta iota).
  rewrite (bind_ret _ _ _ _ _ (send_card_eq p0 RESULT_NOT_OVER w)).
  rewrite (bind_ret _ _ _ _ _ (send_card_eq p1 RESULT_NOT_OVER _)).
  rewrite (bind_ret _ _ _ _ _ (send_card_eq d0 RESULT_NOT_OVER _)).
  rewrite !sent_sent. reflexivity.
Qed.

Lemma play_round_player_returns (p0 p1 d0 d1 : Card) (deck : list Card)
      (w w' : world) (code : Z) :
  player_turn deck [p0; p1] d0 (sent w (deal_events p0 p1 d0))
  = (Ret (PlayerReturn code), w') ->
  play_round_with (p0 :: p1 :: d0 :: d1 :: deck) w = (Ret code, w').
Proof.
  intros H. rewrite play_round_deal, (bind_ret _ _ _ _ _ H). reflexivity.
Qed.

Lemma play_round_player_breaks (p0 p1 d0 d1 : Card) (deck : list Card)
      (w w' : world) (deck' player : list Card) (last : Card) :
  player_turn deck [p0; p1] d0 (sent w (deal_events p0 p1 d0))
  = (Ret (PlayerBreak deck' player last), w') ->
  play_round_with (p0 :: p1 :: d0 :: d1 :: deck) w =
  bind (dealer_loop deck' [d0; d1] d1)
       (fun left =>
          match left with
          | DealerReturn code => ret code
          | DealerDone deck dealer last_card_sent =>
            let result := decide_winner (hand_value player) (hand_value dealer) in
            send_card last_card_sent result ;;; ret result
          end)
       (sent w' [card_frame RESULT_NOT_OVER d1]).
Proof.
  intros H. rewrite play_round_deal, (bind_ret _ _ _ _ _ H).
  cbv iota beta.
  rewrite (bind_ret _ _ _ _ _ (send_card_eq d1 RESULT_NOT_OVER w')).
  reflexivity.
Qed.

(* ================================================================== *)
(** * A hit that busts *)

(** The player loop over a run of hits that stay at 21 or below, followed by
    one that goes over: the trace it adds ends with the last read of the last
    Hittt and then the bust card twice. *)
Lemma player_turn_hits_then_bust (hits : list Card) :
  forall (card : Card) (deck player : list Card) (last : Card) (w : world)
         (rest : list byte),
    tidy w ->
    wire w = concat (repeat hit_frame (S (length hits))) ++ rest ->
    (forall k, (k <= length hits)%nat ->
               hand_value (player ++ firstn k hits) <= 21) ->
    21 < hand_value (player ++ hits ++ [card]) ->
    exists chunks before part,
      player_turn (hits ++ card :: deck) player last w
      = (Ret (PlayerReturn RESULT_LOSS),
         step_world w chunks
                    (before ++ [Recvd part; card_frame RESULT_NOT_OVER card;
                                card_frame RESULT_LOSS card])) /\
      sends before = map (card_frame RESULT_NOT_OVER) hits /\
      concat chunks = rest.
Proof.
  induction hits as [|h hits IH]; intros card deck player last w rest Ht Hw Hok Hbust.
  - cbn [length repeat concat] in Hw. rewrite app_nil_r in Hw.
    pose proof (Hok 0%nat ltac:(simpl; lia)) as H0.
    cbn [firstn] in H0. rewrite app_nil_r in H0.
    destruct (player_turn_hit_stream deck player card last w rest H0 Ht Hw)
      as (chunks & parts & part & Hc & Hrest & Hrun).
    exists chunks, (map Recvd parts), part.
    cbn [app]. rewrite Hrun, player_turn_bust by exact Hbust.
    rewrite sent_step, <- app_assoc. cbn [app].
    split; [reflexivity|]. split; [apply sends_reads|exact Hrest].
  - cbn [length repeat concat] in Hw. rewrite <- app_assoc in Hw.
    pose proof (Hok 0%nat ltac:(simpl; lia)) as H0.
    cbn [firstn] in H0. rewrite app_nil_r in H0.
    destruct (player_turn_hit_stream (hits ++ card :: deck) player h last w _ H0 Ht Hw)
      as (chunks1 & parts & part1 & Hc & Hrest & Hrun).
    destruct (IH card deck (player ++ [h]) h
                 (step_world w chunks1
                             (map Recvd parts
                              ++ [Recvd part1; card_frame RESULT_NOT_OVER h]))
                 rest)
      as (chunks & before & part & Hrun' & Hsends & Hrest').
    + apply tidy_step, Hc.
    + exact Hrest.
    + intros k Hk. rewrite <- app_assoc. cbn [app].
      apply (Hok (S k)). simpl. lia.
    + rewrite <- app_assoc. exact Hbust.
    + exists chunks,
        ((map Recvd parts ++ [Recvd part1; card_frame RESULT_NOT_OVER h]) ++ before),
        part.
      cbn [app]. rewrite Hrun, Hrun', step_step, <- !app_assoc.
      split; [reflexivity|]. split; [|exact Hrest'].
      rewrite !sends_app, sends_reads, Hsends. reflexivity.
Qed.

(** C3, amended.  In every round in which the player hits a number of times
    without going over 21 and then hits a card that takes the hand over 21,
    however the socket cuts the Hittt frames into chunks, [play_one_round]
    returns LOSS and two frames follow the last read of the last Hittt: the
    bust card with NOT_OVER, then the same card with LOSS.  The frames sent
    before it are the three of the deal and one for each earlier hit: the
    dealer's hole card stays hidden and the dealer draws no card. *)
Theorem bust_card_is_sent_twice :
  forall (p0 p1 d0 d1 : Card) (hits : list Card) (card : Card)
         (deck : list Card) (w : world) (rest : list byte),
    tidy w ->
    wire w = concat (repeat hit_frame (S (length hits))) ++ rest ->
    (forall k, (k <= length hits)%nat ->
               hand_value ([p0; p1] ++ firstn k hits) <= 21) ->
    21 < hand_value ([p0; p1] ++ hits ++ [card]) ->
    exists chunks before part,
      play_round_with (p0 :: p1 :: d0 :: d1 :: hits ++ card :: deck) w
      = (Ret RESULT_LOSS,
         step_world w chunks
                    (deal_events p0 p1 d0 ++ before
                     ++ [Recvd part; card_frame RESULT_NOT_OVER card;
                         card_frame RESULT_LOSS card])) /\
      sends before = map (card_frame RESULT_NOT_OVER) hits /\
      concat chunks = rest /\
      sent_after_last_read
        (trace w ++ deal_events p0 p1 d0 ++ before
         ++ [Recvd part; card_frame RESULT_NOT_OVER card;
             card_frame RESULT_LOSS card])
      = [card_frame RESULT_NOT_OVER card; card_frame RESULT_LOSS card].
Proof.
  intros p0 p1 d0 d1 hits card deck w rest Ht Hw Hok Hbust.
  destruct (player_turn_hits_then_bust
              hits card deck [p0; p1] d0 (sent w (deal_events p0 p1 d0)) rest
              Ht Hw Hok Hbust)
    as (chunks & before & part & Hrun & Hsends & Hrest).
  exists chunks, before, part.
  split.
  { apply play_round_player_returns. rewrite Hrun, step_sent. reflexivity. }
  split; [exact Hsends|]. split; [exact Hrest|].
  rewrite !app_assoc.
  apply sent_after_last_read_app. repeat constructor.
Qed.

(* ================================================================== *)
(** * Decks *)

Lemma card_eqb_eq (c1 c2 : Card) : card_eqb c1 c2 = true <-> c1 = c2.
Proof.
  destruct c1 as [r1 s1], c2 as [r2 s2]. unfold card_eqb. simpl.
  rewrite andb_true_iff, !Z.eqb_eq. split.
  - intros [-> ->]. reflexivity.
  - intros H. injection H as -> ->. split; reflexivity.
Qed.

Lemma card_eq_dec (c1 c2 : Card) : {c1 = c2} + {c1 <> c2}.
Proof. decide equality; apply Z.eq_dec. Defined.

Lemma NoDup_sorted_deck : NoDup sorted_deck.
Proof.
  assert (E : nodup card_eq_dec sorted_deck = sorted_deck)
    by (vm_compute; reflexivity).
  rewrite <- E. apply NoDup_nodup.
Qed.

Lemma filter_split (f : Card -> bool) (l : list Card) :
  Permutation l (filter f l ++ filter (fun c => negb (f c)) l).
Proof.
  induction l as [|c l IH]; simpl; [constructor|].
  destruct (f c); simpl.
  - constructor. exact IH.
  - apply Permutation_cons_app. exact IH.
Qed.

(** [deck_with front] is a shuffle of the 52 cards whenever [front] is a
    list of distinct cards. *)
Lemma deck_with_is_a_shuffle (front : list Card) :
  NoDup front -> incl front sorted_deck ->
  Permutation (deck_with front) sorted_deck.
Proof.
  intros Hnd Hin. unfold deck_with.
  rewrite (filter_split (fun c => existsb (card_eqb c) front) sorted_deck) at 2.
  apply Permutation_app_tail.
  apply NoDup_Permutation.
  - exact Hnd.
  - apply NoDup_filter, NoDup_sorted_deck.
  - intros c. rewrite filter_In, existsb_exists. split.
    + intros H. split; [apply Hin, H|].
      exists c. split; [exact H|apply card_eqb_eq; reflexivity].
    + intros [_ (c' & H & E)]. apply card_eqb_eq in E. subst c'. exact H.
Qed.

(** The same, with both conditions checked by computation. *)
Lemma deck_with_checked (front : list Card) :
  nodup card_eq_dec front = front ->
  forallb (fun c => existsb (card_eqb c) sorted_deck) front = true ->
  Permutation (deck_with front) sorted_deck.
Proof.
  intros Hnd Hin. apply deck_with_is_a_shuffle.
  - rewrite <- Hnd. apply NoDup_nodup.
  - intros c Hc. rewrite forallb_forall in Hin.
    specialize (Hin c Hc). apply existsb_exists in Hin.
    destruct Hin as (c' & Hc' & E). apply card_eqb_eq in E. subst c'. exact Hc'.
Qed.

(** The decks of the scenarios are shuffles of the 52 cards. *)
Lemma scenario_decks_are_shuffles :
  Permutation deck_A sorted_deck /\ Permutation deck_B sorted_deck /\
  Permutation deck_two_hits sorted_deck /\ Permutation deck_17 sorted_deck /\
  Permutation deck_two_aces sorted_deck.
Proof.
  repeat split; apply deck_with_checked; vm_compute; reflexivity.
Qed.

(** The round of the scenario "dealt King and 2, hits a 5, hits a 9", with
    the two Hittt frames arriving in three pieces. *)
Lemma bust_card_is_sent_twice_witness :
  exists chunks before part,
    play_round_with deck_two_hits (fresh_world hits_in_pieces deck_two_hits)
    = (Ret RESULT_LOSS,
       step_world (fresh_world hits_in_pieces deck_two_hits) chunks
                  (deal_events (13, 0) (2, 1) (8, 2) ++ before
                   ++ [Recvd part; card_frame RESULT_NOT_OVER (9, 0);
                       card_frame RESULT_LOSS (9, 0)])) /\
    sends before = map (card_frame RESULT_NOT_OVER) [(5, 0)] /\
    concat chunks = [] /\
    sent_after_last_read
      (trace (fresh_world hits_in_pieces deck_two_hits)
       ++ deal_events (13, 0) (2, 1) (8, 2) ++ before
       ++ [Recvd part; card_frame RESULT_NOT_OVER (9, 0);
           card_frame RESULT_LOSS (9, 0)])
    = [card_frame RESULT_NOT_OVER (9, 0); card_frame RESULT_LOSS (9, 0)].
Proof.
  apply (bust_card_is_sent_twice
           (13, 0) (2, 1) (8, 2) (13, 3) [(5, 0)] (9, 0)
           (skipn 6 deck_two_hits)
           (fresh_world hits_in_pieces deck_two_hits) []).
  - repeat constructor; vm_compute; discriminate.
  - vm_compute. reflexivity.
  - intros [|[|k]] Hk; [vm_compute; discriminate|vm_compute; discriminate|].
    simpl in Hk. lia.
  - vm_compute. reflexivity.
Defined.

(** C3 as stated fails in its own example: dealt King and 5, the player hits
    a 9; the round is lost, and two frames, not one, follow the Hittt. *)
Lemma bust_card_follows_hit_in_two_frames :
  fst run_B = Ret RESULT_LOSS /\
  sent_after_last_read (trace (snd run_B))
  = [card_frame RESULT_NOT_OVER (9, 0); card_frame RESULT_LOSS (9, 0)] /\
  length (sent_after_last_read (trace (snd run_B))) <> 1%nat.
Proof.
  vm_compute. split; [reflexivity|]. split; [reflexivity|discriminate].
Qed.

(* ================================================================== *)
(** * The dealer loop *)

Lemma sent_nil (w : world) : sent w [] = w.
Proof. apply world_eta. Qed.

Lemma dealer_loop_stands (deck dealer : list Card) (last : Card) (w : world) :
  17 <= hand_value dealer ->
  dealer_loop deck dealer last w = (Ret (DealerDone deck dealer last), w).
Proof.
  intros H. destruct deck; cbn [dealer_loop];
    (replace (hand_value dealer <? 17) with false
      by (symmetry; apply Z.ltb_ge; exact H)); reflexivity.
Qed.

Lemma dealer_loop_out_of_cards (dealer : list Card) (last : Card) (w : world) :
  hand_value dealer < 17 ->
  dealer_loop [] dealer last w = (Raise IndexError, w).
Proof.
  intros H. cbn [dealer_loop].
  replace (hand_value dealer <? 17) with true
    by (symmetry; apply Z.ltb_lt; exact H).
  reflexivity.
Qed.

Lemma dealer_loop_draws (card : Card) (deck dealer : list Card) (last : Card)
      (w : world) :
  hand_value dealer < 17 ->
  dealer_loop (card :: deck) dealer last w =
  (if hand_value (dealer ++ [card]) >? 21
   then send_card card RESULT_WIN ;;; ret (DealerReturn RESULT_WIN)
   else dealer_loop deck (dealer ++ [card]) card)
    (sent w [card_frame RESULT_NOT_OVER card]).
Proof.
  intros H. cbn [dealer_loop].
  replace (hand_value dealer <? 17) with true
    by (symmetry; apply Z.ltb_lt; exact H).
  rewrite (bind_ret _ _ _ _ _ (send_card_eq card RESULT_NOT_OVER w)).
  reflexivity.
Qed.

Lemma drawn_below_17_nil (dealer : list Card) : drawn_below_17 dealer [].
Proof. intros k Hk. simpl in Hk. lia. Qed.

Lemma drawn_below_17_cons (dealer drawn : list Card) (card : Card) :
  hand_value dealer < 17 ->
  drawn_below_17 (dealer ++ [card]) drawn ->
  drawn_below_17 dealer (card :: drawn).
Proof.
  intros H0 H [|k] Hk.
  - cbn [firstn]. rewrite app_nil_r. exact H0.
  - cbn [firstn]. change (card :: firstn k drawn) with ([card] ++ firstn k drawn).
    rewrite app_assoc. apply H. simpl in Hk. lia.
Qed.

Lemma last_cons_default (c x y : Card) (l : list Card) :
  List.last (c :: l) x = List.last (c :: l) y.
Proof.
  revert c. induction l as [|c' l IH]; intros c; [reflexivity|].
  change (List.last (c' :: l) x = List.last (c' :: l) y). apply IH.
Qed.

Lemma last_after_draw (card last : Card) (drawn : list Card) :
  List.last (card :: drawn) last = List.last drawn card.
Proof.
  destruct drawn as [|c drawn]; [reflexivity|].
  change (List.last (c :: drawn) last = List.last (c :: drawn) card).
  apply last_cons_default.
Qed.

(** The loop, from any state: it draws a prefix of the deck, each card on a
    total below 17, and ends in one of three ways. *)
Lemma dealer_loop_spec (deck : list Card) :
  forall (dealer : list Card) (last : Card) (w : world),
  exists drawn rest,
    deck = drawn ++ rest /\ drawn_below_17 dealer drawn /\
    dealer_outcome dealer drawn rest last w
                   (fst (dealer_loop deck dealer last w))
                   (snd (dealer_loop deck dealer last w)).
Proof.
  induction deck as [|card deck IH]; intros dealer last w.
  - exists [], []. split; [reflexivity|]. split; [apply drawn_below_17_nil|].
    destruct (Z.lt_ge_cases (hand_value dealer) 17) as [Hlt|Hge].
    + rewrite dealer_loop_out_of_cards by exact Hlt. cbn.
      rewrite app_nil_r, sent_nil. auto.
    + rewrite dealer_loop_stands by exact Hge. cbn.
      rewrite app_nil_r, sent_nil. auto.
  - destruct (Z.lt_ge_cases (hand_value dealer) 17) as [Hlt|Hge].
    2:{ exists [], (card :: deck).
        split; [reflexivity|]. split; [apply drawn_below_17_nil|].
        rewrite dealer_loop_stands by exact Hge. cbn.
        rewrite app_nil_r, sent_nil. auto. }
    rewrite dealer_loop_draws by exact Hlt.
    destruct (hand_value (dealer ++ [card]) >? 21) eqn:Hbust.
    + exists [card], deck.
      split; [reflexivity|].
      split; [apply drawn_below_17_cons; [exact Hlt|apply drawn_below_17_nil]|].
      rewrite (bind_ret _ _ _ _ _ (send_card_eq card RESULT_WIN _)).
      cbn. split; [reflexivity|]. split; [apply Z.gtb_lt, Hbust|].
      exists [], card. split; [reflexivity|]. rewrite sent_sent. reflexivity.
    + destruct (IH (dealer ++ [card]) card
                   (sent w [card_frame RESULT_NOT_OVER card]))
        as (drawn & rest & Hdeck & Hbelow & Hout).
      exists (card :: drawn), rest.
      split; [rewrite Hdeck; reflexivity|].
      split; [apply drawn_below_17_cons; assumption|].
      destruct (dealer_loop deck (dealer ++ [card]) card _) as [[[code|d' h' l']|e] w'];
        cbn in Hout |- *.
      * destruct Hout as (Hc & Hv & before & c & Hd & Hw).
        split; [exact Hc|]. split; [rewrite <- app_assoc in Hv; exact Hv|].
        exists (card :: before), c. split; [rewrite Hd; reflexivity|].
        rewrite Hw, sent_sent. reflexivity.
      * destruct Hout as (Hd & Hh & Hl & Hv & Hw).
        split; [exact Hd|]. split; [rewrite Hh, <- app_assoc; reflexivity|].
        split; [rewrite Hl; symmetry; apply last_after_draw|].
        split; [exact Hv|]. rewrite Hw, sent_sent. reflexivity.
      * destruct Hout as (He & Hr & Hv & Hw).
        split; [exact He|]. split; [exact Hr|].
        split; [rewrite <- app_assoc in Hv; exact Hv|].
        rewrite Hw, sent_sent. reflexivity.
Qed.

(** With cards worth at least 1 each, 17 of them are more than the loop can
    use up: it does not run out of cards. *)
Lemma dealer_loop_returns (deck : list Card) :
  forall (dealer : list Card) (last : Card) (w : world),
    Forall (fun c => 1 <= card_value (fst c)) deck ->
    17 <= hand_value dealer + Z.of_nat (length deck) ->
    exists left, fst (dealer_loop deck dealer last w) = Ret left.
Proof.
  induction deck as [|card deck IH]; intros dealer last w Hpos Hlen.
  - simpl in Hlen. rewrite dealer_loop_stands by lia. eexists. reflexivity.
  - destruct (Z.lt_ge_cases (hand_value dealer) 17) as [Hlt|Hge].
    2:{ rewrite dealer_loop_stands by exact Hge. eexists. reflexivity. }
    rewrite dealer_loop_draws by exact Hlt.
    destruct (hand_value (dealer ++ [card]) >? 21) eqn:Hbust.
    + rewrite (bind_ret _ _ _ _ _ (send_card_eq card RESULT_WIN _)).
      eexists. reflexivity.
    + inversion Hpos as [|c l Hc Hrest]; subst.
      apply IH; [exact Hrest|].
      rewrite hand_value_app, hand_value_cons. change (hand_value []) with 0.
      rewrite length_cons, Nat2Z.inj_succ in Hlen. lia.
Qed.

Lemma trace_sent (w : world) (events : list event) :
  trace (sent w events) = trace w ++ events.
Proof. reflexivity. Qed.

(** Below 17 with a card on the deck, the first thing the loop does is to
    send that card. *)
Lemma dealer_loop_draws_first (card : Card) (deck dealer : list Card)
      (last : Card) (w : world) :
  hand_value dealer < 17 ->
  exists events,
    trace (snd (dealer_loop (card :: deck) dealer last w))
    = trace w ++ card_frame RESULT_NOT_OVER card :: events.
Proof.
  intros Hlt.
  destruct (dealer_loop_spec (card :: deck) dealer last w)
    as (drawn & rest & Hdeck & _ & Hout).
  assert (Hne : drawn = [] -> rest = [] \/ 17 <= hand_value dealer).
  { intros ->.
    destruct (dealer_loop (card :: deck) dealer last w) as [[[code|d' h' l']|e] w'];
      cbn in Hout.
    - destruct Hout as (_ & _ & before & c & Hd & _). destruct before; discriminate.
    - destruct Hout as (_ & Hh & _ & Hv & _). rewrite Hh, app_nil_r in Hv.
      right. exact Hv.
    - destruct Hout as (_ & Hr & _). left. exact Hr. }
  destruct drawn as [|c drawn].
  { destruct (Hne eq_refl) as [Hr|Hv]; [|lia]. subst rest. discriminate. }
  injection Hdeck as <- _.
  destruct (dealer_loop (card :: deck) dealer last w) as [[[code|d' h' l']|e] w'];
    cbn in Hout |- *.
  - destruct Hout as (_ & _ & before & c & _ & ->).
    rewrite trace_sent. eexists. reflexivity.
  - destruct Hout as (_ & _ & _ & _ & ->).
    rewrite trace_sent. eexists. reflexivity.
  - destruct Hout as (_ & _ & _ & ->).
    rewrite trace_sent. eexists. reflexivity.
Qed.

(** C4.  From every dealer hand and every deck, the dealer loop
    - draws nothing and sends nothing when the hand is worth 17 or more, so
      never on 17 itself;
    - draws the top card first when the hand is worth less than 17;
    - altogether draws a prefix of the deck, each card on a total below 17,
      and stops at the first total of 17 or more: with the hand it then
      holds, or with WIN when that total is over 21 (it fails only when the
      deck runs out below 17);
    - returns whenever the deck has cards worth at least 1 each and enough
      of them to reach 17. *)
Theorem dealer_draws_exactly_below_17 :
  forall (deck dealer : list Card) (last : Card) (w : world),
    let run := dealer_loop deck dealer last w in
    (17 <= hand_value dealer -> run = (Ret (DealerDone deck dealer last), w)) /\
    (hand_value dealer < 17 ->
     forall card deck', deck = card :: deck' ->
       exists events,
         trace (snd run) = trace w ++ card_frame RESULT_NOT_OVER card :: events) /\
    (exists drawn rest,
        deck = drawn ++ rest /\ drawn_below_17 dealer drawn /\
        dealer_outcome dealer drawn rest last w (fst run) (snd run)) /\
    (Forall (fun c => 1 <= card_value (fst c)) deck ->
     17 <= hand_value dealer + Z.of_nat (length deck) ->
     exists left, fst run = Ret left).
Proof.
  intros deck dealer last w run. subst run.
  split; [apply dealer_loop_stands|].
  split; [intros Hlt card deck' ->; apply dealer_loop_draws_first, Hlt|].
  split; [apply dealer_loop_spec|].
  apply dealer_loop_returns.
Qed.

(** The dealer holds two sixes: it draws the 5 on top of the deck; holding
    6, 6 and 5, worth 17, it draws nothing and leaves the 2. *)
Lemma dealer_draws_exactly_below_17_witness :
  dealer_loop (skipn 5 deck_17) [(6, 2); (6, 3); (5, 0)] (5, 0) world_17
  = (Ret (DealerDone (skipn 5 deck_17) [(6, 2); (6, 3); (5, 0)] (5, 0)), world_17) /\
  (exists events,
      trace (snd (dealer_loop (skipn 4 deck_17) [(6, 2); (6, 3)] (6, 3) world_17))
      = trace world_17 ++ card_frame RESULT_NOT_OVER (5, 0) :: events) /\
  (exists left,
      fst (dealer_loop (skipn 4 deck_17) [(6, 2); (6, 3)] (6, 3) world_17) = Ret left).
Proof.
  split; [|split].
  - apply (dealer_draws_exactly_below_17
             (skipn 5 deck_17) [(6, 2); (6, 3); (5, 0)] (5, 0) world_17).
    vm_compute. discriminate.
  - apply (proj1 (proj2 (dealer_draws_exactly_below_17
                           (skipn 4 deck_17) [(6, 2); (6, 3)] (6, 3) world_17)))
      with (deck' := skipn 5 deck_17).
    + vm_compute. reflexivity.
    + reflexivity.
  - apply (proj2 (proj2 (proj2 (dealer_draws_exactly_below_17
                                  (skipn 4 deck_17) [(6, 2); (6, 3)] (6, 3) world_17)))).
    + apply Forall_forall. intros c Hc. vm_compute in Hc.
      repeat (destruct Hc as [<-|Hc]; [vm_compute; discriminate|]).
      destruct Hc.
    + vm_compute. discriminate.
Defined.

(* ================================================================== *)
(** * The result of a round in which the player stands *)

Lemma decide_winner_compares (ps ds : Z) :
  ps <= 21 -> ds <= 21 ->
  (ds < ps -> decide_winner ps ds = RESULT_WIN) /\
  (ps < ds -> decide_winner ps ds = RESULT_LOSS) /\
  (ps = ds -> decide_winner ps ds = RESULT_TIE).
Proof.
  intros Hp Hd. unfold decide_winner.
  replace (ps >? 21) with false by (symmetry; rewrite Z.gtb_ltb; apply Z.ltb_ge; lia).
  replace (ds >? 21) with false by (symmetry; rewrite Z.gtb_ltb; apply Z.ltb_ge; lia).
  rewrite Z.gtb_ltb.
  destruct (Z.ltb_spec ds ps), (Z.ltb_spec ps ds); repeat split; intros; try lia;
    reflexivity.
Qed.

(** C6.  In a round in which the player loop is left by a Stand with the
    player's hand at 21 or less and the dealer loop is left with the dealer's
    hand between 17 and 21, [play_one_round] sends the last card sent once
    more, with the result, and returns this result: WIN when the player's
    total is above the dealer's, LOSS when it is below, TIE when they are
    equal. *)
Theorem stand_result_compares_totals :
  forall (p0 p1 d0 d1 : Card) (deck : list Card) (w : world)
         (deck1 player : list Card) (last1 : Card) (w1 : world)
         (deck2 dealer : list Card) (last2 : Card) (w2 : world),
    player_turn deck [p0; p1] d0 (sent w (deal_events p0 p1 d0))
    = (Ret (PlayerBreak deck1 player last1), w1) ->
    dealer_loop deck1 [d0; d1] d1 (sent w1 [card_frame RESULT_NOT_OVER d1])
    = (Ret (DealerDone deck2 dealer last2), w2) ->
    hand_value player <= 21 ->
    17 <= hand_value dealer <= 21 ->
    exists result,
      play_round_with (p0 :: p1 :: d0 :: d1 :: deck) w
      = (Ret result, sent w2 [card_frame result last2]) /\
      (hand_value dealer < hand_value player -> result = RESULT_WIN) /\
      (hand_value player < hand_value dealer -> result = RESULT_LOSS) /\
      (hand_value player = hand_value dealer -> result = RESULT_TIE).
Proof.
  intros p0 p1 d0 d1 deck w deck1 player last1 w1 deck2 dealer last2 w2
         Hplayer Hdealer Hp Hd.
  exists (decide_winner (hand_value player) (hand_value dealer)).
  split.
  - rewrite (play_round_player_breaks _ _ _ _ _ _ _ _ _ _ Hplayer).
    rewrite (bind_ret _ _ _ _ _ Hdealer). cbv iota beta zeta.
    rewrite (bind_ret _ _ _ _ _ (send_card_eq last2 _ w2)). reflexivity.
  - apply decide_winner_compares; lia.
Qed.

(** Scenario A: the player stands on 10 and 9, the dealer reveals a King
    next to its 8 and draws nothing; the player wins with 19 against 18. *)
Lemma stand_result_compares_totals_witness :
  exists result,
    play_round_with deck_A (fresh_world [stand_frame] deck_A)
    = (Ret result,
       sent (step_world (fresh_world [stand_frame] deck_A) []
                        (deal_events (10, 0) (9, 1) (8, 2)
                         ++ [Recvd stand_frame; card_frame RESULT_NOT_OVER (13, 3)]))
            [card_frame result (13, 3)]) /\
    (hand_value [(8, 2); (13, 3)] < hand_value [(10, 0); (9, 1)] ->
     result = RESULT_WIN) /\
    (hand_value [(10, 0); (9, 1)] < hand_value [(8, 2); (13, 3)] ->
     result = RESULT_LOSS) /\
    (hand_value [(10, 0); (9, 1)] = hand_value [(8, 2); (13, 3)] ->
     result = RESULT_TIE).
Proof.
  apply (stand_result_compares_totals
           (10, 0) (9, 1) (8, 2) (13, 3) (skipn 4 deck_A)
           (fresh_world [stand_frame] deck_A)
           (skipn 4 deck_A) [(10, 0); (9, 1)] (8, 2)
           (step_world (fresh_world [stand_frame] deck_A) []
                       (deal_events (10, 0) (9, 1) (8, 2) ++ [Recvd stand_frame]))
           (skipn 4 deck_A) [(8, 2); (13, 3)] (13, 3)).
  - vm_compute. reflexivity.
  - vm_compute. reflexivity.
  - vm_compute. discriminate.
  - vm_compute. split; discriminate.
Defined.

(* ================================================================== *)
(** * Two Aces in the deal *)

(** C2 fails on a deal of two Aces.  The player's hand is worth 22 before
    any decision is read: the round is lost at once, and the LOSS rides on
    the player's second card although the frame sent just before it carried
    the dealer's upcard. *)
Theorem two_aces_loss_rides_on_second_card :
  fst (play_round_with deck_two_aces (fresh_world [] deck_two_aces))
  = Ret RESULT_LOSS /\
  trace (snd (play_round_with deck_two_aces (fresh_world [] deck_two_aces)))
  = [card_frame RESULT_NOT_OVER (1, 0); card_frame RESULT_NOT_OVER (1, 1);
     card_frame RESULT_NOT_OVER (5, 2); card_frame RESULT_LOSS (1, 1)] /\
  unpack_server_payload (pack_server_payload RESULT_NOT_OVER 5 2)
  = Some (RESULT_NOT_OVER, 5, 2) /\
  unpack_server_payload (pack_server_payload RESULT_LOSS 1 1)
  = Some (RESULT_LOSS, 1, 1).
Proof.
  vm_compute. repeat split.
Qed.

(* ================================================================== *)
(** * Counting rounds *)

Lemma keeps_ret {A} (a : A) : keeps_decks (ret a).
Proof. intros w. split; reflexivity. Qed.

Lemma keeps_raise {A} (e : exn) : keeps_decks (@raise A e).
Proof. intros w. split; reflexivity. Qed.

Lemma keeps_bind {A B} (c : M A) (k : A -> M B) :
  keeps_decks c -> (forall a, keeps_decks (k a)) -> keeps_decks (bind c k).
Proof.
  intros Hc Hk w. unfold bind. specialize (Hc w).
  destruct (c w) as [[a|e] w1]; simpl in Hc.
  - destruct (Hk a w1) as [H1 H2]. destruct Hc as [H3 H4].
    split; congruence.
  - exact Hc.
Qed.

Lemma keeps_log (e : event) : keeps_decks (log e).
Proof. intros w. split; reflexivity. Qed.

Lemma keeps_set_inbox (chunks : list (list byte)) : keeps_decks (set_inbox chunks).
Proof. intros w. split; reflexivity. Qed.

Lemma keeps_recv (bufsize : nat) : keeps_decks (recv bufsize).
Proof.
  intros w. unfold recv.
  destruct (inbox w) as [|chunk rest].
  - destruct (at_end w); split; reflexivity.
  - destruct (length chunk <=? bufsize)%nat; split; reflexivity.
Qed.

Lemma keeps_recv_exact_loop (fuel n : nat) :
  forall chunks got, keeps_decks (recv_exact_loop fuel n chunks got).
Proof.
  induction fuel as [|fuel IH]; intros chunks got; cbn [recv_exact_loop];
    destruct (got <? n)%nat; try apply keeps_ret.
  apply keeps_bind; [apply keeps_recv|].
  intros [|b part]; [apply keeps_ret|apply IH].
Qed.

Lemma keeps_recv_exact (n : nat) : keeps_decks (recv_exact n).
Proof. apply keeps_recv_exact_loop. Qed.

Lemma keeps_send_card (card : Card) (code : Z) : keeps_decks (send_card card code).
Proof. destruct card. intros w. split; reflexivity. Qed.

Lemma keeps_last_of (hand : list Card) : keeps_decks (last_of hand).
Proof.
  unfold last_of. destruct (rev hand); [apply keeps_raise|apply keeps_ret].
Qed.

Lemma keeps_pop (deck : list Card) : keeps_decks (pop deck).
Proof. destruct deck; [apply keeps_raise|apply keeps_ret]. Qed.

Ltac keeps :=
  repeat first
         [ apply keeps_ret | apply keeps_raise | apply keeps_send_card
         | apply keeps_last_of | apply keeps_pop | apply keeps_recv_exact
         | assumption
         | apply keeps_bind; [|intros ?]
         | match goal with
           | |- keeps_decks (match ?x with _ => _ end) => destruct x
           end ].

Lemma keeps_player_turn (deck : list Card) :
  forall player last, keeps_decks (player_turn deck player last).
Proof.
  induction deck as [|card deck IH]; intros player last; cbn [player_turn];
    keeps; apply IH.
Qed.

Lemma keeps_dealer_loop (deck : list Card) :
  forall dealer last, keeps_decks (dealer_loop deck dealer last).
Proof.
  induction deck as [|card deck IH]; intros dealer last; cbn [dealer_loop];
    keeps; apply IH.
Qed.

Lemma keeps_play_round_with (deck : list Card) : keeps_decks (play_round_with deck).
Proof.
  unfold play_round_with. keeps;
    first [apply keeps_player_turn | apply keeps_dealer_loop].
Qed.

(** A round creates exactly one deck, however it ends. *)
Lemma play_one_round_deals (w : world) :
  rng (snd (play_one_round w)) = rng w /\
  dealt (snd (play_one_round w)) = S (dealt w).
Proof.
  unfold play_one_round, bind, create_deck.
  pose proof (keeps_play_round_with
                (rng w (dealt w))
                (mkWorld (inbox w) (at_end w) (trace w) (rng w) (S (dealt w))))
    as [H1 H2].
  destruct (play_round_with _ _) as [[r|e] w1]; simpl in *; split; assumption.
Qed.

(** [play_rounds n] starts at most [n] rounds, and exactly [n] when it runs
    to its end. *)
Lemma play_rounds_count (n : nat) :
  forall w,
    (dealt (snd (play_rounds n w)) <= dealt w + n)%nat /\
    (fst (play_rounds n w) = Ret tt ->
     dealt (snd (play_rounds n w)) = (dealt w + n)%nat).
Proof.
  induction n as [|n IH]; intros w; cbn [play_rounds].
  - simpl. split; lia.
  - unfold bind. pose proof (play_one_round_deals w) as [_ Hd].
    destruct (play_one_round w) as [[r|e] w1]; simpl in Hd.
    + destruct (IH w1) as [H1 H2]. split; [lia|].
      intros H. rewrite (H2 H). lia.
    + simpl. split; [lia|discriminate].
Qed.

Lemma unpack_request_rounds (req : list byte) (rounds : Z) (name : pystr) :
  unpack_request req = Some (rounds, name) -> 0 <= rounds <= 255.
Proof.
  intros H.
  destruct (Nat.lt_ge_cases (length req) REQUEST_SIZE) as [Hs|Hl].
  { rewrite unpack_request_short in H by exact Hs. discriminate. }
  unfold REQUEST_SIZE, NAME_LEN in Hl.
  do 6 uncons req.
  rewrite unpack_request_eq in H by (simpl in Hl; lia).
  destruct (negb _ || negb _); [discriminate|].
  injection H as <- _. rewrite be_int_1.
  match goal with |- 0 <= b2z ?x <= 255 => pose proof (b2z_range x) end. lia.
Qed.

Lemma clamp_rounds (rounds : Z) :
  0 <= rounds ->
  Z.to_nat (if rounds <? 1 then 1 else rounds) = rounds_to_play rounds.
Proof.
  intros H. unfold rounds_to_play.
  destruct (Z.ltb_spec rounds 1), (Z.eqb_spec rounds 0); try lia; reflexivity.
Qed.

(** The session once the Request is read: the round loop, then the normal
    end. *)
Lemma session_runs_rounds (w w1 : world) (req : list byte) (rounds : Z)
      (name : pystr) :
  recv_exact REQUEST_SIZE w = (Ret (Some req), w1) ->
  unpack_request req = Some (rounds, name) ->
  session w = bind (play_rounds (rounds_to_play rounds)) (fun _ => ret Finished) w1.
Proof.
  intros Hrecv Hreq. unfold session.
  rewrite (bind_ret _ _ _ _ _ Hrecv), Hreq.
  rewrite clamp_rounds by (apply (unpack_request_rounds req rounds name Hreq)).
  reflexivity.
Qed.

(** C9.  Once a Request frame is read and decoded, [handle_client] runs the
    round loop for one round when the frame says 0 rounds and for the number
    it says otherwise: it never starts more rounds than that, it starts
    exactly that many when it reaches its normal end, and it reaches its
    normal end when that many rounds in a row complete. *)
Theorem rounds_clamped_to_one :
  forall (w w1 : world) (req : list byte) (rounds : Z) (name : pystr),
    recv_exact REQUEST_SIZE w = (Ret (Some req), w1) ->
    unpack_request req = Some (rounds, name) ->
    (rounds = 0 -> rounds_to_play rounds = 1%nat) /\
    (1 <= rounds -> Z.of_nat (rounds_to_play rounds) = rounds) /\
    session w
    = bind (play_rounds (rounds_to_play rounds)) (fun _ => ret Finished) w1 /\
    (dealt (snd (handle_client w)) <= dealt w + rounds_to_play rounds)%nat /\
    (fst (handle_client w) = Ret Finished ->
     dealt (snd (handle_client w)) = (dealt w + rounds_to_play rounds)%nat) /\
    (forall w', play_rounds (rounds_to_play rounds) w1 = (Ret tt, w') ->
                handle_client w = (Ret Finished, w')).
Proof.
  intros w w1 req rounds name Hrecv Hreq.
  pose proof (session_runs_rounds w w1 req rounds name Hrecv Hreq) as Hs.
  pose proof (keeps_recv_exact REQUEST_SIZE w) as [_ Hk].
  rewrite Hrecv in Hk. simpl in Hk.
  pose proof (play_rounds_count (rounds_to_play rounds) w1) as [Hle Heq].
  split; [intros ->; reflexivity|].
  split.
  { intros H. unfold rounds_to_play.
    destruct (Z.eqb_spec rounds 0); [lia|]. apply Z2Nat.id. lia. }
  split; [exact Hs|].
  unfold handle_client. rewrite Hs. unfold bind.
  destruct (play_rounds (rounds_to_play rounds) w1) as [[[]|e] w2];
    simpl in Hle, Heq.
  - simpl. split; [lia|]. split; [intros _; rewrite Heq by reflexivity; lia|].
    intros w' H. injection H as <-. reflexivity.
  - split; [destruct e; simpl; lia|].
    split; [destruct e; simpl; discriminate|].
    intros w' H. discriminate.
Qed.

(** A Request for 0 rounds gets one round, a Request for 3 rounds gets
    three. *)
Lemma rounds_clamped_to_one_witness :
  dealt (snd (handle_client (session_world 0 1))) = 1%nat /\
  dealt (snd (handle_client (session_world 3 3))) = 3%nat.
Proof.
  split.
  - destruct (rounds_clamped_to_one
                (session_world 0 1)
                (step_world (session_world 0 1) [stand_frame]
                            [Recvd (pack_request 0 (str_of "cli"))])
                (pack_request 0 (str_of "cli")) 0 (str_of "cli"))
      as (_ & _ & _ & _ & H & _).
    + vm_compute. reflexivity.
    + vm_compute. reflexivity.
    + apply H. vm_compute. reflexivity.
  - destruct (rounds_clamped_to_one
                (session_world 3 3)
                (step_world (session_world 3 3)
                            [stand_frame; stand_frame; stand_frame]
                            [Recvd (pack_request 3 (str_of "cli"))])
                (pack_request 3 (str_of "cli")) 3 (str_of "cli"))
      as (_ & _ & _ & _ & H & _).
    + vm_compute. reflexivity.
    + vm_compute. reflexivity.
    + apply H. vm_compute. reflexivity.
Defined.

(* ================================================================== *)
(** * More on the codec: sizes and wrap-around *)

Lemma land_mod_u16 (v : Z) : Z.land v 0xFFFF = v mod 65536.
Proof. change 0xFFFF with (Z.ones 16). rewrite Z.land_ones by lia. reflexivity. Qed.

Lemma land_mod_u8 (v : Z) : Z.land v 0xFF = v mod 256.
Proof. change 0xFF with (Z.ones 8). rewrite Z.land_ones by lia. reflexivity. Qed.

Lemma length_ascii_encode (s : pystr) (bs : list byte) :
  ascii_encode s = Ret bs -> length bs = length s.
Proof.
  revert bs. induction s as [|ch s IH]; intros bs H; simpl in H.
  - injection H as <-. reflexivity.
  - destruct ((0 <=? ch) && (ch <? 128)); [|discriminate].
    destruct (ascii_encode s) as [bs'|e]; [|discriminate].
    injection H as <-. simpl. rewrite (IH bs' eq_refl). reflexivity.
Qed.

(** X1.  Every frame an encoder builds has the fixed size of its message type,
    whatever the integers and the name: 39, 38, 10 and 9 bytes. *)
Theorem frames_have_fixed_size :
  (forall tcp_port name, length (pack_offer tcp_port name) = OFFER_SIZE) /\
  (forall rounds name, length (pack_request rounds name) = REQUEST_SIZE) /\
  (forall decision frame,
      pack_client_payload decision = Ret frame ->
      length frame = CLIENT_PAYLOAD_SIZE) /\
  (forall result rank suit,
      length (pack_server_payload result rank suit) = SERVER_PAYLOAD_SIZE).
Proof.
  split; [|split; [|split]].
  - intros p name. unfold pack_offer. rewrite length_app, length_pack_name.
    reflexivity.
  - intros r name. unfold pack_request. rewrite length_app, length_pack_name.
    reflexivity.
  - intros d frame H. unfold pack_client_payload in H.
    destruct (is_decision d) eqn:Hd; [|discriminate]. cbn [negb] in H.
    destruct (ascii_encode d) as [bs|e] eqn:He; [|discriminate].
    injection H as <-. unfold pack_u32, pack_u8. cbn [app length].
    rewrite (length_ascii_encode d bs He).
    apply is_decision_spec in Hd. destruct Hd as [-> | ->]; reflexivity.
  - intros res rank suit. reflexivity.
Qed.

Lemma frames_have_fixed_size_witness : length stand_frame = 10%nat.
Proof.
  apply (proj1 (proj2 (proj2 frames_have_fixed_size)) Stand stand_frame).
  reflexivity.
Defined.

Lemma unpack_pack_offer_mod (tcp_port : Z) (name : pystr) :
  unpack_offer (pack_offer tcp_port name)
  = Some (tcp_port mod 65536, _unpack_name (_pack_name name)).
Proof.
  unfold pack_offer. rewrite land_mod_u16.
  pose proof (Z.mod_pos_bound tcp_port 65536 ltac:(lia)) as Hp.
  cbn [pack_u32 pack_u8 pack_u16 app].
  rewrite unpack_offer_eq by (rewrite length_pack_name; unfold NAME_LEN; lia).
  change (negb _ || negb _) with false. cbv iota.
  rewrite name_field_slice.
  change [z2b (tcp_port mod 65536 / 256); z2b (tcp_port mod 65536)]
    with (pack_u16 (tcp_port mod 65536)).
  rewrite be_int_pack_u16 by lia. reflexivity.
Qed.

Lemma unpack_pack_request_mod (rounds : Z) (name : pystr) :
  unpack_request (pack_request rounds name)
  = Some (rounds mod 256, _unpack_name (_pack_name name)).
Proof.
  unfold pack_request. rewrite land_mod_u8.
  pose proof (Z.mod_pos_bound rounds 256 ltac:(lia)) as Hr.
  cbn [pack_u32 pack_u8 app].
  rewrite unpack_request_eq by (rewrite length_pack_name; unfold NAME_LEN; lia).
  change (negb _ || negb _) with false. cbv iota.
  rewrite name_field_slice.
  change [z2b (rounds mod 256)] with (pack_u8 (rounds mod 256)).
  rewrite be_int_pack_u8 by lia. reflexivity.
Qed.

Lemma unpack_pack_server_payload_mod (result rank suit : Z) :
  unpack_server_payload (pack_server_payload result rank suit)
  = Some (result mod 256, rank mod 65536, suit mod 256).
Proof.
  unfold pack_server_payload.
  rewrite !land_mod_u8, land_mod_u16.
  pose proof (Z.mod_pos_bound result 256 ltac:(lia)).
  pose proof (Z.mod_pos_bound rank 65536 ltac:(lia)).
  pose proof (Z.mod_pos_bound suit 256 ltac:(lia)).
  unfold pack_u32, pack_u16, pack_u8. cbn [app].
  rewrite unpack_server_payload_eq.
  change (negb _ || negb _) with false. cbv iota.
  change [z2b (result mod 256)] with (pack_u8 (result mod 256)).
  change [z2b (suit mod 256)] with (pack_u8 (suit mod 256)).
  change [z2b (rank mod 65536 / 256); z2b (rank mod 65536)]
    with (pack_u16 (rank mod 65536)).
  rewrite !be_int_pack_u8, be_int_pack_u16 by lia. reflexivity.
Qed.

(** X2.  The encoders wrap an integer that does not fit its field instead of
    refusing it: a port comes back modulo 65536, a round count, a result and
    a suit modulo 256, a rank modulo 65536. *)
Theorem integers_wrap_around :
  (forall tcp_port name,
      unpack_offer (pack_offer tcp_port name)
      = Some (tcp_port mod 65536, _unpack_name (_pack_name name))) /\
  (forall rounds name,
      unpack_request (pack_request rounds name)
      = Some (rounds mod 256, _unpack_name (_pack_name name))) /\
  (forall result rank suit,
      unpack_server_payload (pack_server_payload result rank suit)
      = Some (result mod 256, rank mod 65536, suit mod 256)).
Proof.
  split; [exact unpack_pack_offer_mod|].
  split; [exact unpack_pack_request_mod|exact unpack_pack_server_payload_mod].
Qed.

(* ================================================================== *)
(** * More on name fields: truncation and the first NUL *)

Lemma utf8_encode_app (s t : pystr) :
  utf8_encode_ignore (s ++ t) = utf8_encode_ignore s ++ utf8_encode_ignore t.
Proof. apply flat_map_app. Qed.

Lemma before_nul_app (raw t : list byte) :
  Forall (fun b => b2z b <> 0) raw ->
  before_nul (raw ++ t) = raw ++ before_nul t.
Proof.
  induction 1 as [|b raw Hb _ IH]; [reflexivity|].
  cbn [app before_nul]. destruct (Z.eqb_spec (b2z b) 0); [contradiction|].
  rewrite IH. reflexivity.
Qed.

Lemma before_nul_zeros (n : nat) : before_nul (repeat x00 n) = [].
Proof. destruct n; reflexivity. Qed.

Lemma Forall_prefix {A} (P : A -> Prop) (n : nat) (l : list A) :
  Forall P l -> Forall P (firstn n l).
Proof.
  revert l. induction n as [|n IH]; intros l H; [constructor|].
  destruct H as [|a l Ha Hl]; [constructor|].
  cbn [firstn]. constructor; [exact Ha|apply IH, Hl].
Qed.

Lemma utf8_encode_ascii (s : pystr) :
  Forall (fun ch => 0 < ch < 128) s -> utf8_encode_ignore s = map z2b s.
Proof.
  induction 1 as [|ch s Hch _ IH]; [reflexivity|].
  unfold utf8_encode_ignore in *. cbn [flat_map map]. rewrite IH.
  unfold utf8_encode_char. destruct (Z.ltb_spec ch 128); [reflexivity|lia].
Qed.

Lemma ascii_fits (s : pystr) :
  Forall (fun ch => 0 < ch < 128) s -> (length s <= NAME_LEN)%nat ->
  fits_name_field s.
Proof.
  intros Hs Hlen. split.
  - eapply Forall_impl; [|exact Hs]. intros ch H. unfold encodable. simpl in H.
    split; lia.
  - rewrite utf8_encode_ascii by exact Hs. rewrite length_map. exact Hlen.
Qed.

(** X3.  A name is cut at its first NUL character, and an ASCII name at its 32nd
    character: what follows never reaches the peer. *)
Theorem name_is_cut_at_nul_and_at_32 :
  (forall name tail,
      fits_name_field name ->
      _unpack_name (_pack_name (name ++ 0 :: tail)) = name) /\
  (forall name,
      Forall (fun ch => 0 < ch < 128) name ->
      _unpack_name (_pack_name name) = firstn 32 name).
Proof.
  split.
  - intros name tail [Hch Hlen]. unfold _unpack_name, _pack_name, ljust.
    rewrite utf8_encode_app, firstn_app.
    rewrite (firstn_all2 (utf8_encode_ignore name)) by exact Hlen.
    rewrite <- app_assoc.
    rewrite before_nul_app by (apply utf8_encode_nonzero, Hch).
    replace (before_nul _) with (@nil byte).
    + rewrite app_nil_r. apply utf8_roundtrip, Hch.
    + symmetry.
      destruct (NAME_LEN - length (utf8_encode_ignore name))%nat as [|m].
      * cbn [firstn app]. apply before_nul_zeros.
      * reflexivity.
  - intros name Hname.
    assert (Hcut : _pack_name name = _pack_name (firstn 32 name)).
    { unfold _pack_name.
      rewrite (utf8_encode_ascii name) by exact Hname.
      rewrite (utf8_encode_ascii (firstn 32 name))
        by (apply Forall_prefix; exact Hname).
      rewrite <- firstn_map. unfold NAME_LEN. rewrite firstn_firstn.
      reflexivity. }
    rewrite Hcut. apply unpack_pack_name, ascii_fits.
    + apply Forall_prefix, Hname.
    + rewrite length_firstn. unfold NAME_LEN. lia.
Qed.

Lemma name_is_cut_at_nul_and_at_32_witness :
  _unpack_name (_pack_name (str_of "srv" ++ 0 :: str_of "hidden")) = str_of "srv" /\
  _unpack_name (_pack_name (repeat 97 40)) = firstn 32 (repeat 97 40).
Proof.
  destruct name_is_cut_at_nul_and_at_32 as [Hnul Hcut]. split.
  - apply Hnul. exact name_srv_fits.
  - apply Hcut. apply Forall_forall. intros ch Hin.
    apply repeat_spec in Hin. subst ch. lia.
Defined.

(* ================================================================== *)
(** * What the UTF-8 decoder yields *)

Lemma is_continuation_range (b : byte) :
  is_continuation b = true -> 0x80 <= b2z b < 0xC0.
Proof.
  unfold is_continuation. rewrite andb_true_iff, Z.leb_le, Z.ltb_lt. tauto.
Qed.

Lemma Forall_suffix {A} (P : A -> Prop) (k : nat) (l : list A) :
  Forall P l -> Forall P (skipn k l).
Proof.
  revert l. induction k as [|k IH]; intros l H; [exact H|].
  destruct H as [|a l Ha Hl]; [constructor|]. cbn [skipn]. apply IH, Hl.
Qed.

Lemma utf8_encode_char_1 (ch : Z) :
  ch < 0x80 -> length (utf8_encode_char ch) = 1%nat.
Proof.
  intros H. unfold utf8_encode_char.
  destruct (Z.ltb_spec ch 0x80); [reflexivity|lia].
Qed.

Lemma utf8_encode_char_2 (ch : Z) :
  0x80 <= ch < 0x800 -> length (utf8_encode_char ch) = 2%nat.
Proof.
  intros H. unfold utf8_encode_char.
  destruct (Z.ltb_spec ch 0x80); [lia|].
  destruct (Z.ltb_spec ch 0x800); [reflexivity|lia].
Qed.

Lemma utf8_encode_char_3 (ch : Z) :
  0x800 <= ch < 0x10000 -> ~ (0xD800 <= ch <= 0xDFFF) ->
  length (utf8_encode_char ch) = 3%nat.
Proof.
  intros H Hs. unfold utf8_encode_char.
  destruct (Z.ltb_spec ch 0x80); [lia|].
  destruct (Z.ltb_spec ch 0x800); [lia|].
  destruct (Z.leb_spec 0xD800 ch), (Z.leb_spec ch 0xDFFF); cbn [andb];
    try lia; (destruct (Z.ltb_spec ch 0x10000); [reflexivity|lia]).
Qed.

Lemma utf8_encode_char_4 (ch : Z) :
  0x10000 <= ch -> length (utf8_encode_char ch) = 4%nat.
Proof.
  intros H. unfold utf8_encode_char.
  destruct (Z.ltb_spec ch 0x80); [lia|].
  destruct (Z.ltb_spec ch 0x800); [lia|].
  destruct (Z.leb_spec 0xD800 ch), (Z.leb_spec ch 0xDFFF); cbn [andb];
    try lia; (destruct (Z.ltb_spec ch 0x10000); [lia|reflexivity]).
Qed.

(** The decoder skipped the first [k] bytes of the buffer. *)
Ltac dw_skip IH k :=
  let Ha := fresh "Ha" in let Hb := fresh "Hb" in let Hc := fresh "Hc" in
  let Hnz := fresh "Hnz" in
  destruct IH as (Ha & Hb & Hc);
  split; [exact Ha|];
  split; [intros Hnz; apply Hb; apply (Forall_suffix _ k) in Hnz; exact Hnz|];
  cbn [length] in *; lia.

(** The decoder turned the first [k] bytes of the buffer into a character
    whose encoding has the length that [Hlen] gives. *)
Ltac dw_emit IH k Hlen :=
  let Ha := fresh "Ha" in let Hb := fresh "Hb" in let Hc := fresh "Hc" in
  let Hnz := fresh "Hnz" in
  destruct IH as (Ha & Hb & Hc);
  split; [constructor; [unfold scalar; split; lia|exact Ha]|];
  split;
  [intros Hnz; constructor;
   [first [lia|inversion Hnz; assumption]
   |apply Hb; apply (Forall_suffix _ k) in Hnz; exact Hnz]
  |unfold utf8_encode_ignore in *; cbn [flat_map];
   rewrite length_app, Hlen by (try split; lia); cbn [length] in *; lia].

Lemma decodes_well_nil : decodes_well [].
Proof.
  unfold decodes_well. cbn. split; [constructor|].
  split; [intros _; constructor|lia].
Qed.

Ltac dw_end :=
  split; [constructor|split; [intros _; constructor|cbn; lia]].

(** The last byte of a three-byte sequence. *)
Ltac dw_third IH IH2 Hn b1 b2 r2 :=
  let b3 := fresh "b3" in let r3 := fresh "r3" in
  let IH3 := fresh "IH3" in let E3 := fresh "E3" in
  destruct r2 as [|b3 r3]; [dw_end|];
  assert (IH3 : decodes_well r3) by (apply IH; simpl in Hn; lia);
  destruct (is_continuation b3) eqn:E3;
  [apply is_continuation_range in E3;
   dw_emit IH3 3%nat
           (utf8_encode_char_3 (b2z b1 * 4096 + b2z b2 * 64 + b2z b3 - 0xE2080))
  |dw_skip IH2 2%nat].

(** The last two bytes of a four-byte sequence. *)
Ltac dw_fourth IH IH2 Hn b1 b2 r2 :=
  let b3 := fresh "b3" in let r3 := fresh "r3" in
  let b4 := fresh "b4" in let r4 := fresh "r4" in
  let IH3 := fresh "IH3" in let IH4 := fresh "IH4" in
  let E3 := fresh "E3" in let E4 := fresh "E4" in
  destruct r2 as [|b3 r3]; [dw_end|];
  assert (IH3 : decodes_well r3) by (apply IH; simpl in Hn; lia);
  destruct (is_continuation b3) eqn:E3; cbn [negb]; [|dw_skip IH2 2%nat];
  apply is_continuation_range in E3;
  destruct r3 as [|b4 r4]; [dw_end|];
  assert (IH4 : decodes_well r4) by (apply IH; simpl in Hn; lia);
  destruct (is_continuation b4) eqn:E4;
  [apply is_continuation_range in E4;
   dw_emit IH4 4%nat
           (utf8_encode_char_4 (b2z b1 * 262144 + b2z b2 * 4096 + b2z b3 * 64
                                + b2z b4 - 0x3C82080))
  |dw_skip IH3 3%nat].

Lemma utf8_decode_sound (n : nat) :
  forall bs, (length bs <= n)%nat -> decodes_well bs.
Proof.
  induction n as [|n IH]; intros bs Hn.
  { destruct bs; [apply decodes_well_nil|simpl in Hn; lia]. }
  destruct bs as [|b1 r1]; [apply decodes_well_nil|].
  assert (IH1 : decodes_well r1) by (apply IH; simpl in Hn; lia).
  pose proof (b2z_range b1) as R1.
  unfold decodes_well. cbn [utf8_decode_ignore].
  destruct (Z.ltb_spec (b2z b1) 0x80).
  { dw_emit IH1 1%nat (utf8_encode_char_1 (b2z b1)). }
  destruct (Z.ltb_spec (b2z b1) 0xC2).
  { dw_skip IH1 1%nat. }
  destruct (Z.ltb_spec (b2z b1) 0xE0).
  { destruct r1 as [|b2 r2]; [dw_end|].
    assert (IH2 : decodes_well r2) by (apply IH; simpl in Hn; lia).
    destruct (is_continuation b2) eqn:E2; [|dw_skip IH1 1%nat].
    apply is_continuation_range in E2.
    dw_emit IH2 2%nat (utf8_encode_char_2 (b2z b1 * 64 + b2z b2 - 0x3080)). }
  destruct (Z.ltb_spec (b2z b1) 0xF0).
  { destruct r1 as [|b2 r2]; [dw_end|].
    assert (IH2 : decodes_well r2) by (apply IH; simpl in Hn; lia).
    destruct (is_continuation b2) eqn:E2; cbn [negb orb]; [|dw_skip IH1 1%nat].
    apply is_continuation_range in E2.
    destruct (Z.ltb_spec (b2z b2) 0xA0).
    - destruct (Z.eqb_spec (b2z b1) 0xE0); [dw_skip IH1 1%nat|].
      dw_third IH IH2 Hn b1 b2 r2.
    - destruct (Z.eqb_spec (b2z b1) 0xED); [dw_skip IH1 1%nat|].
      dw_third IH IH2 Hn b1 b2 r2. }
  destruct (Z.ltb_spec (b2z b1) 0xF5); [|dw_skip IH1 1%nat].
  destruct r1 as [|b2 r2]; [dw_end|].
  assert (IH2 : decodes_well r2) by (apply IH; simpl in Hn; lia).
  destruct (is_continuation b2) eqn:E2; cbn [negb orb]; [|dw_skip IH1 1%nat].
  apply is_continuation_range in E2.
  destruct (Z.ltb_spec (b2z b2) 0x90).
  - destruct (Z.eqb_spec (b2z b1) 0xF0); [dw_skip IH1 1%nat|].
    dw_fourth IH IH2 Hn b1 b2 r2.
  - destruct (Z.eqb_spec (b2z b1) 0xF4); [dw_skip IH1 1%nat|].
    dw_fourth IH IH2 Hn b1 b2 r2.
Qed.

Lemma utf8_decode_well (bs : list byte) : decodes_well bs.
Proof. apply (utf8_decode_sound (length bs)). lia. Qed.

(* ================================================================== *)
(** * Decoded messages *)

Lemma before_nul_nonzero (bs : list byte) :
  Forall (fun b => b2z b <> 0) (before_nul bs).
Proof.
  induction bs as [|b bs IH]; [constructor|].
  cbn [before_nul]. destruct (Z.eqb_spec (b2z b) 0); [constructor|].
  constructor; assumption.
Qed.

Lemma length_before_nul (bs : list byte) :
  (length (before_nul bs) <= length bs)%nat.
Proof.
  induction bs as [|b bs IH]; [reflexivity|].
  cbn [before_nul]. destruct (b2z b =? 0); simpl; lia.
Qed.

(** Whatever a name field holds, the name read from it fits a name field. *)
Lemma unpack_name_fits (field : list byte) :
  (length field <= NAME_LEN)%nat -> fits_name_field (_unpack_name field).
Proof.
  intros Hlen. unfold _unpack_name.
  destruct (utf8_decode_well (before_nul field)) as (Hs & Hnz & Hl).
  specialize (Hnz (before_nul_nonzero field)).
  pose proof (length_before_nul field).
  split; [|lia].
  rewrite Forall_forall in *. intros ch Hin.
  destruct (Hs ch Hin) as [Hr Hsur]. specialize (Hnz ch Hin).
  unfold encodable. split; [lia|exact Hsur].
Qed.

Lemma z2b_of_mod (z : Z) (b : byte) : z mod 256 = b2z b -> z2b z = b.
Proof.
  intros H. apply b2z_inj. rewrite b2z_z2b_mod. exact H.
Qed.

Lemma pack_u16_bytes (k1 k2 : byte) : pack_u16 (b2z k1 * 256 + b2z k2) = [k1; k2].
Proof.
  pose proof (b2z_range k1). pose proof (b2z_range k2).
  unfold pack_u16. f_equal; [|f_equal].
  - apply z2b_of_mod.
    replace ((b2z k1 * 256 + b2z k2) / 256) with (b2z k1)
      by (apply Z.div_unique with (r := b2z k2); lia).
    apply Z.mod_small. lia.
  - apply z2b_of_mod. symmetry.
    apply Z.mod_unique with (q := b2z k1); lia.
Qed.

Lemma decoded_offer (data : list byte) (tcp_port : Z) (name : pystr) :
  unpack_offer data = Some (tcp_port, name) ->
  0 <= tcp_port <= 65535 /\ fits_name_field name.
Proof.
  intros H.
  destruct (Nat.lt_ge_cases (length data) OFFER_SIZE) as [Hs|Hl].
  { rewrite unpack_offer_short in H by exact Hs. discriminate. }
  unfold OFFER_SIZE, NAME_LEN in Hl. do 7 uncons data.
  rewrite unpack_offer_eq in H by (simpl in Hl; lia).
  destruct (negb _ || negb _); [discriminate|].
  injection H as <- <-. split.
  - rewrite be_int_2.
    match goal with
    | |- 0 <= b2z ?x * 256 + b2z ?y <= _ =>
      pose proof (b2z_range x); pose proof (b2z_range y)
    end. lia.
  - apply unpack_name_fits. change (length (firstn 32 data) <= 32)%nat.
    apply firstn_le_length.
Qed.

Lemma decoded_request (data : list byte) (rounds : Z) (name : pystr) :
  unpack_request data = Some (rounds, name) ->
  0 <= rounds <= 255 /\ fits_name_field name.
Proof.
  intros H. split; [exact (unpack_request_rounds data rounds name H)|].
  destruct (Nat.lt_ge_cases (length data) REQUEST_SIZE) as [Hs|Hl].
  { rewrite unpack_request_short in H by exact Hs. discriminate. }
  unfold REQUEST_SIZE, NAME_LEN in Hl. do 6 uncons data.
  rewrite unpack_request_eq in H by (simpl in Hl; lia).
  destruct (negb _ || negb _); [discriminate|].
  injection H as _ <-.
  apply unpack_name_fits. change (length (firstn 32 data) <= 32)%nat.
  apply firstn_le_length.
Qed.

Lemma decoded_client_payload (data : list byte) (decision : pystr) :
  unpack_client_payload data = Some decision ->
  (decision = Hittt \/ decision = Stand) /\
  pack_client_payload decision = Ret data.
Proof.
  intros H.
  destruct (Nat.eq_dec (length data) CLIENT_PAYLOAD_SIZE) as [Hl|Hn];
    [|rewrite unpack_client_payload_length in H by exact Hn; discriminate].
  unfold CLIENT_PAYLOAD_SIZE in Hl.
  do 10 uncons data. destruct data; [|discriminate].
  rewrite unpack_client_payload_eq in H.
  destruct (negb _ || negb _) eqn:E; [discriminate|].
  apply header_check in E; [|unfold TYPE_PAYLOAD; lia].
  destruct (is_decision _) eqn:Hd; [|discriminate]. cbn [negb] in H.
  injection H as H. apply is_decision_spec in Hd. rewrite H in Hd.
  split; [exact Hd|].
  match goal with
  | |- _ = Ret (?a :: ?b :: ?c :: ?d :: ?t :: ?rest) =>
    change (a :: b :: c :: d :: t :: rest) with ([a; b; c; d; t] ++ rest)
  end.
  rewrite E.
  destruct Hd as [-> | ->]; apply ascii_decode_five in H; try reflexivity;
    rewrite H; reflexivity.
Qed.

Lemma decoded_server_payload (data : list byte) (result rank suit : Z) :
  unpack_server_payload data = Some (result, rank, suit) ->
  (0 <= result <= 255 /\ 0 <= rank <= 65535 /\ 0 <= suit <= 255) /\
  pack_server_payload result rank suit = data.
Proof.
  intros H.
  destruct (Nat.eq_dec (length data) SERVER_PAYLOAD_SIZE) as [Hl|Hn];
    [|rewrite unpack_server_payload_length in H by exact Hn; discriminate].
  unfold SERVER_PAYLOAD_SIZE in Hl.
  do 9 uncons data. destruct data; [|discriminate].
  rewrite unpack_server_payload_eq in H.
  destruct (negb _ || negb _) eqn:E; [discriminate|].
  apply header_check in E; [|unfold TYPE_PAYLOAD; lia].
  injection H as <- <- <-. rewrite !be_int_1, be_int_2.
  match goal with
  | |- (0 <= b2z ?r <= _ /\ 0 <= b2z ?k1 * 256 + b2z ?k2 <= _ /\ 0 <= b2z ?s <= _) /\ _ =>
    pose proof (b2z_range r); pose proof (b2z_range k1);
    pose proof (b2z_range k2); pose proof (b2z_range s)
  end.
  split; [lia|].
  unfold pack_server_payload.
  rewrite !land_u8, land_u16 by lia.
  rewrite pack_u16_bytes. unfold pack_u8. rewrite !z2b_b2z.
  change (pack_u32 MAGIC_COOKIE ++ [z2b TYPE_PAYLOAD]) with (header TYPE_PAYLOAD).
  match goal with
  | |- _ = ?a :: ?b :: ?c :: ?d :: ?t :: ?rest =>
    change (a :: b :: c :: d :: t :: rest) with ([a; b; c; d; t] ++ rest)
  end.
  rewrite E. reflexivity.
Qed.

(** X4.  What a decoder returns is always in range and survives another trip over
    the wire: the port is in 0..65535, the round count, result and suit in
    0..255, the rank in 0..65535, the name fits a name field and the decision
    is one of the two; encoding the decoded fields and decoding again gives
    them back, and for the two payload types the encoding is the very buffer
    that was decoded. *)
Theorem decoded_fields_are_stable :
  (forall data tcp_port name,
      unpack_offer data = Some (tcp_port, name) ->
      0 <= tcp_port <= 65535 /\ fits_name_field name /\
      unpack_offer (pack_offer tcp_port name) = Some (tcp_port, name)) /\
  (forall data rounds name,
      unpack_request data = Some (rounds, name) ->
      0 <= rounds <= 255 /\ fits_name_field name /\
      unpack_request (pack_request rounds name) = Some (rounds, name)) /\
  (forall data decision,
      unpack_client_payload data = Some decision ->
      (decision = Hittt \/ decision = Stand) /\
      pack_client_payload decision = Ret data) /\
  (forall data result rank suit,
      unpack_server_payload data = Some (result, rank, suit) ->
      (0 <= result <= 255 /\ 0 <= rank <= 65535 /\ 0 <= suit <= 255) /\
      pack_server_payload result rank suit = data).
Proof.
  split; [|split; [|split]].
  - intros data p name H. destruct (decoded_offer data p name H) as [Hp Hn].
    split; [exact Hp|]. split; [exact Hn|].
    rewrite unpack_pack_offer_mod, Z.mod_small by lia.
    rewrite unpack_pack_name by exact Hn. reflexivity.
  - intros data r name H. destruct (decoded_request data r name H) as [Hr Hn].
    split; [exact Hr|]. split; [exact Hn|].
    rewrite unpack_pack_request_mod, Z.mod_small by lia.
    rewrite unpack_pack_name by exact Hn. reflexivity.
  - exact decoded_client_payload.
  - exact decoded_server_payload.
Qed.

(** An Offer whose name field holds garbage after the first NUL, and the
    frame of a Stand. *)
Lemma decoded_fields_are_stable_witness :
  unpack_offer (pack_offer 8080 (str_of "srv"))
  = Some (8080, str_of "srv") /\
  pack_client_payload Stand = Ret stand_frame.
Proof.
  destruct decoded_fields_are_stable as (Ho & _ & Hc & _). split.
  - apply (Ho (firstn 11 (pack_offer 8080 (str_of "srv"))
               ++ list_byte_of_string "garbage"
               ++ skipn 18 (pack_offer 8080 (str_of "srv")))).
    vm_compute. reflexivity.
  - apply (Hc stand_frame Stand). vm_compute. reflexivity.
Defined.

(* ================================================================== *)
(** * More on [recv_exact] *)

Lemma quiet_refl (w : world) : quiet w w.
Proof. repeat split. Qed.

Lemma quiet_trans (w1 w2 w3 : world) : quiet w1 w2 -> quiet w2 w3 -> quiet w1 w3.
Proof.
  intros (A1 & B1 & C1 & D1) (A2 & B2 & C2 & D2).
  repeat split; congruence.
Qed.

Lemma quiet_read (w : world) (chunks : list (list byte)) (parts : list (list byte)) :
  quiet w (step_world w chunks (map Recvd parts)).
Proof.
  unfold quiet, step_world. cbn [trace at_end rng dealt].
  rewrite sends_app, sends_reads, app_nil_r. repeat split.
Qed.

(** A [recv] sends nothing, and fails only by timing out. *)
Lemma recv_quiet (k : nat) (w : world) :
  quiet w (snd (recv k w)) /\
  (forall e, fst (recv k w) = Raise e -> e = SocketTimeout).
Proof.
  unfold recv. destruct (inbox w) as [|chunk more].
  - destruct (at_end w) eqn:E.
    + split; [|discriminate]. apply (quiet_read w [] [[]]).
    + split; [apply quiet_refl|]. intros e H. injection H as <-. reflexivity.
  - destruct (length chunk <=? k)%nat.
    + split; [|discriminate]. apply (quiet_read w more [chunk]).
    + split; [|discriminate].
      apply (quiet_read w (skipn k chunk :: more) [firstn k chunk]).
Qed.

Lemma recv_exact_loop_quiet (fuel : nat) :
  forall n chunks got w,
    quiet w (snd (recv_exact_loop fuel n chunks got w)) /\
    (forall e, fst (recv_exact_loop fuel n chunks got w) = Raise e ->
               e = SocketTimeout).
Proof.
  induction fuel as [|fuel IH]; intros n chunks got w; cbn [recv_exact_loop];
    destruct (got <? n)%nat; try (split; [apply quiet_refl|discriminate]).
  unfold bind. destruct (recv_quiet (n - got) w) as [Hq He].
  destruct (recv (n - got) w) as [[part|e] w1]; cbn [fst snd] in *.
  - destruct part as [|b part]; [split; [exact Hq|discriminate]|].
    destruct (IH n (chunks ++ [b :: part]) (got + length (b :: part))%nat w1)
      as [Hq' He'].
    split; [eapply quiet_trans; eassumption|exact He'].
  - split; [exact Hq|]. intros e' H. injection H as <-. apply He. reflexivity.
Qed.

(** [recv_exact] sends nothing, and raises nothing but [socket.timeout]. *)
Lemma recv_exact_quiet (n : nat) (w : world) :
  quiet w (snd (recv_exact n w)) /\
  (forall e, fst (recv_exact n w) = Raise e -> e = SocketTimeout).
Proof. apply recv_exact_loop_quiet. Qed.

(** On a stream that ends before the bytes asked for, the loop uses up the
    stream and then meets its end. *)
Lemma recv_exact_loop_short (fuel : nat) :
  forall n chunks got w,
    tidy w -> (got + length (wire w) < n)%nat -> (n - got <= fuel)%nat ->
    fst (recv_exact_loop fuel n chunks got w)
    = match at_end w with
      | PeerClosed => Ret None
      | TimedOut => Raise SocketTimeout
      end /\
    wire (snd (recv_exact_loop fuel n chunks got w)) = [].
Proof.
  induction fuel as [|fuel IH]; intros n chunks got w Ht Hw Hf; [lia|].
  cbn [recv_exact_loop].
  replace (got <? n)%nat with true by (symmetry; apply Nat.ltb_lt; lia).
  unfold wire in Hw. unfold tidy in Ht.
  destruct (inbox w) as [|chunk more] eqn:Hin.
  - unfold bind, recv. rewrite Hin.
    destruct (at_end w); cbn; unfold wire; cbn; rewrite ?Hin; split; reflexivity.
  - inversion Ht as [|c l Hc Hmore]; subst c l.
    cbn [concat] in Hw. rewrite length_app in Hw.
    unfold bind. rewrite (recv_chunk _ w chunk more Hin).
    replace (length chunk <=? n - got)%nat with true
      by (symmetry; apply Nat.leb_le; lia).
    destruct chunk as [|b chunk]; [contradiction|].
    apply (IH n (chunks ++ [b :: chunk]) (got + length (b :: chunk))%nat
              (step_world w more [Recvd (b :: chunk)])).
    + exact Hmore.
    + unfold wire. cbn [inbox step_world]. lia.
    + cbn [length] in *. lia.
Qed.

(** X5.  [recv_exact(sock, n)] returns the next [n] bytes of the stream, however
    the stream is cut into chunks, and leaves the bytes after them for the
    next read; it sends nothing. *)
Theorem recv_exact_returns_next_bytes :
  forall (n : nat) (w : world) (data rest : list byte),
    tidy w -> wire w = data ++ rest -> length data = n ->
    exists w',
      recv_exact n w = (Ret (Some data), w') /\
      tidy w' /\ wire w' = rest /\ quiet w w'.
Proof.
  intros n w data rest Ht Hw Hn.
  destruct (recv_exact_stream n w data rest Ht Hw Hn)
    as (w' & parts & Hrun & Ht' & Hw' & Hstep & _).
  exists w'. split; [exact Hrun|]. split; [exact Ht'|]. split; [exact Hw'|].
  rewrite Hstep. apply quiet_read.
Qed.

(** A Stand frame that arrives in pieces of 4, 3 and 3 bytes, followed by a
    byte of the next frame. *)
Lemma recv_exact_returns_next_bytes_witness :
  exists w',
    recv_exact 10
               (fresh_world [firstn 4 stand_frame;
                             firstn 3 (skipn 4 stand_frame);
                             skipn 7 stand_frame ++ [x01]] [])
    = (Ret (Some stand_frame), w') /\
    tidy w' /\ wire w' = [x01] /\
    quiet (fresh_world [firstn 4 stand_frame;
                        firstn 3 (skipn 4 stand_frame);
                        skipn 7 stand_frame ++ [x01]] []) w'.
Proof.
  apply recv_exact_returns_next_bytes.
  - repeat constructor; vm_compute; discriminate.
  - vm_compute. reflexivity.
  - vm_compute. reflexivity.
Defined.

(** X6.  When the stream ends before [n] bytes have come, [recv_exact] uses up
    what there is, then returns [None] if the peer has closed the connection
    and raises [socket.timeout] if the peer stays silent. *)
Theorem recv_exact_on_short_stream :
  forall (n : nat) (w : world),
    tidy w -> (length (wire w) < n)%nat ->
    fst (recv_exact n w)
    = match at_end w with
      | PeerClosed => Ret None
      | TimedOut => Raise SocketTimeout
      end /\
    wire (snd (recv_exact n w)) = [] /\
    quiet w (snd (recv_exact n w)).
Proof.
  intros n w Ht Hw.
  destruct (recv_exact_loop_short n n [] 0%nat w Ht) as [H1 H2]; try lia.
  split; [exact H1|]. split; [exact H2|]. apply recv_exact_quiet.
Qed.

(** Nine of the ten bytes of a Stand, then the end of the connection. *)
Lemma recv_exact_on_short_stream_witness :
  fst (recv_exact 10 (fresh_world [firstn 4 stand_frame;
                                   firstn 5 (skipn 4 stand_frame)] []))
  = Ret None /\
  fst (recv_exact 10 (mkWorld [firstn 9 stand_frame] TimedOut [] (fun _ => []) 0))
  = Raise SocketTimeout.
Proof.
  split.
  - apply (recv_exact_on_short_stream
             10 (fresh_world [firstn 4 stand_frame;
                              firstn 5 (skipn 4 stand_frame)] [])).
    + repeat constructor; vm_compute; discriminate.
    + vm_compute. lia.
  - apply (recv_exact_on_short_stream
             10 (mkWorld [firstn 9 stand_frame] TimedOut [] (fun _ => []) 0)).
    + repeat constructor; vm_compute; discriminate.
    + vm_compute. lia.
Defined.

(* ================================================================== *)
(** * The player loop, whatever the client does *)

Lemma sends_sent (w : world) (events : list event) :
  sends (trace (sent w events)) = sends (trace w) ++ sends events.
Proof. rewrite trace_sent. apply sends_app. Qed.

Lemma sends_card_frames (code : Z) (cards : list Card) :
  sends (map (card_frame code) cards) = map (card_frame code) cards.
Proof.
  induction cards as [|c cards IH]; [reflexivity|].
  cbn [map]. unfold sends in *. cbn [filter card_frame]. rewrite IH.
  reflexivity.
Qed.

Lemma sends_card_frame1 (code : Z) (card : Card) :
  sends [card_frame code card] = [card_frame code card].
Proof. reflexivity. Qed.

Lemma bind_raises {A B} (c : M A) (k : A -> M B) (w w' : world) (e : exn) :
  c w = (Raise e, w') -> bind c k w = (Raise e, w').
Proof. intros H. unfold bind. rewrite H. reflexivity. Qed.

(** One turn of the loop, for any deck. *)
Lemma player_turn_unfold (deck player : list Card) (last : Card) (w : world) :
  player_turn deck player last w =
  (if hand_value player >? 21 then
     last_card_sent <- last_of player ;;
     send_card last_card_sent RESULT_LOSS ;;;
     ret (PlayerReturn RESULT_LOSS)
   else
     data <- recv_exact CLIENT_PAYLOAD_SIZE ;;
     match data with
     | None => raise ConnectionError
     | Some data =>
       match unpack_client_payload data with
       | None => raise ConnectionError
       | Some decision =>
         if str_eqb decision Hittt then
           match deck with
           | [] => raise IndexError
           | card :: deck' =>
             send_card card RESULT_NOT_OVER ;;;
             player_turn deck' (player ++ [card]) card
           end
         else ret (PlayerBreak deck player last)
       end
     end) w.
Proof. destruct deck; reflexivity. Qed.

Lemma hit_at_most_21_nil (player : list Card) : hit_at_most_21 player [].
Proof. intros k Hk. simpl in Hk. lia. Qed.

Lemma hit_at_most_21_cons (player drawn : list Card) (card : Card) :
  hand_value player <= 21 ->
  hit_at_most_21 (player ++ [card]) drawn ->
  hit_at_most_21 player (card :: drawn).
Proof.
  intros H0 H [|k] Hk.
  - cbn [firstn]. rewrite app_nil_r. exact H0.
  - cbn [firstn]. change (card :: firstn k drawn) with ([card] ++ firstn k drawn).
    rewrite app_assoc. apply H. simpl in Hk. lia.
Qed.

Lemma hand_value_nonempty (hand : list Card) :
  21 < hand_value hand -> exists before card, hand = before ++ [card].
Proof.
  intros H. destruct hand as [|c hand]; [discriminate H|].
  destruct (exists_last (l := c :: hand) ltac:(discriminate)) as (b & x & E).
  exists b, x. exact E.
Qed.

(** The loop, from any state and against any client: it draws a prefix of
    the deck, each card on a hit at 21 or less, sends each card drawn, and
    ends in one of three ways. *)
Lemma player_turn_spec (deck : list Card) :
  forall (player : list Card) (last : Card) (w : world),
  exists drawn rest,
    deck = drawn ++ rest /\ hit_at_most_21 player drawn /\
    player_outcome player drawn rest last w
                   (fst (player_turn deck player last w))
                   (snd (player_turn deck player last w)).
Proof.
  induction deck as [|card deck IH]; intros player last w;
    rewrite player_turn_unfold;
    (destruct (Z.ltb_spec 21 (hand_value player)) as [Hbust|Hok];
     [replace (hand_value player >? 21) with true
        by (symmetry; apply Z.gtb_lt; exact Hbust)
     |replace (hand_value player >? 21) with false
        by (symmetry; rewrite Z.gtb_ltb; apply Z.ltb_ge; exact Hok)]).
  - (* no card left, bust *)
    exists [], []. split; [reflexivity|]. split; [apply hit_at_most_21_nil|].
    destruct (hand_value_nonempty player Hbust) as (before & c & ->).
    rewrite (bind_ret _ _ _ _ _ (last_of_snoc before c w)).
    rewrite (bind_ret _ _ _ _ _ (send_card_eq c RESULT_LOSS w)).
    cbn. rewrite !app_nil_r. split; [reflexivity|]. split; [exact Hbust|].
    exists before, c. split; [reflexivity|]. apply sends_app.
  - (* no card left, a decision is read *)
    exists [], []. split; [reflexivity|]. split; [apply hit_at_most_21_nil|].
    unfold bind.
    destruct (recv_exact_quiet CLIENT_PAYLOAD_SIZE w) as [(Hq & _) He].
    destruct (recv_exact CLIENT_PAYLOAD_SIZE w) as [[[data|]|e] w1];
      cbn [fst snd] in *.
    + destruct (unpack_client_payload data) as [decision|].
      * destruct (str_eqb decision Hittt); cbn; rewrite !app_nil_r;
          [split; [exact Hok|]; split; [exact Hq|]; right; right; split; reflexivity
          |repeat split; try assumption; try reflexivity].
      * cbn. rewrite !app_nil_r. split; [exact Hok|]. split; [exact Hq|]. left. reflexivity.
    + cbn. rewrite !app_nil_r. split; [exact Hok|]. split; [exact Hq|]. left. reflexivity.
    + cbn. rewrite !app_nil_r. split; [exact Hok|]. split; [exact Hq|].
      right. left. apply He. reflexivity.
  - (* bust *)
    exists [], (card :: deck).
    split; [reflexivity|]. split; [apply hit_at_most_21_nil|].
    destruct (hand_value_nonempty player Hbust) as (before & c & ->).
    rewrite (bind_ret _ _ _ _ _ (last_of_snoc before c w)).
    rewrite (bind_ret _ _ _ _ _ (send_card_eq c RESULT_LOSS w)).
    cbn. rewrite !app_nil_r. split; [reflexivity|]. split; [exact Hbust|].
    exists before, c. split; [reflexivity|]. apply sends_app.
  - (* a decision is read *)
    destruct (recv_exact_quiet CLIENT_PAYLOAD_SIZE w) as [(Hq & _) He].
    destruct (recv_exact CLIENT_PAYLOAD_SIZE w) as [[[data|]|e] w1] eqn:Hrecv;
      cbn [fst snd] in *;
      [rewrite (bind_ret _ _ _ _ _ Hrecv)..|rewrite (bind_raises _ _ _ _ _ Hrecv)].
    + destruct (unpack_client_payload data) as [decision|].
      * destruct (str_eqb decision Hittt).
        -- rewrite (bind_ret _ _ _ _ _ (send_card_eq card RESULT_NOT_OVER w1)).
           destruct (IH (player ++ [card]) card
                        (sent w1 [card_frame RESULT_NOT_OVER card]))
             as (drawn & rest & Hdeck & Hhits & Hout).
           exists (card :: drawn), rest.
           split; [rewrite Hdeck; reflexivity|].
           split; [apply hit_at_most_21_cons; assumption|].
           destruct (player_turn deck (player ++ [card]) card _)
             as [[[code|d' p' l']|e] w'];
             cbn [fst snd player_outcome map] in Hout |- *;
             rewrite sends_sent, sends_card_frame1, Hq, <- ?app_assoc in Hout.
           ++ destruct Hout as (Hc & Hv & before & c & Hd & Hs).
              split; [exact Hc|]. split; [exact Hv|].
              exists before, c. split; [exact Hd|].
              rewrite <- app_assoc in Hs. exact Hs.
           ++ destruct Hout as (Hd & Hp & Hl & Hv & Hs).
              split; [exact Hd|]. split; [exact Hp|].
              split; [rewrite Hl; symmetry; apply last_after_draw|].
              split; [exact Hv|]. rewrite <- ?app_assoc in Hs. exact Hs.
           ++ destruct Hout as (Hv & Hs & He').
              split; [exact Hv|].
              split; [rewrite <- ?app_assoc in Hs; exact Hs|exact He'].
        -- exists [], (card :: deck).
           split; [reflexivity|]. split; [apply hit_at_most_21_nil|].
           cbn. rewrite !app_nil_r. repeat split; try assumption; reflexivity.
      * exists [], (card :: deck).
        split; [reflexivity|]. split; [apply hit_at_most_21_nil|].
        cbn. rewrite !app_nil_r. split; [exact Hok|]. split; [exact Hq|].
        left. reflexivity.
    + exists [], (card :: deck).
      split; [reflexivity|]. split; [apply hit_at_most_21_nil|].
      cbn. rewrite !app_nil_r. split; [exact Hok|]. split; [exact Hq|].
      left. reflexivity.
    + exists [], (card :: deck).
      split; [reflexivity|]. split; [apply hit_at_most_21_nil|].
      cbn. rewrite !app_nil_r. split; [exact Hok|]. split; [exact Hq|].
      right. left. apply He. reflexivity.
Qed.

(* ================================================================== *)
(** * The story of a round *)

Lemma sends_deal (p0 p1 d0 : Card) :
  sends (deal_events p0 p1 d0) = deal_events p0 p1 d0.
Proof. reflexivity. Qed.

(** Every run of [play_one_round] on a deck of four cards or more follows
    one of the five stories, whatever the client sends. *)
Lemma play_round_story (p0 p1 d0 d1 : Card) (deck0 : list Card) (w : world) :
  exists frames,
    sends (trace (snd (play_round_with (p0 :: p1 :: d0 :: d1 :: deck0) w)))
    = sends (trace w) ++ frames /\
    round_story p0 p1 d0 d1 deck0 frames
                (fst (play_round_with (p0 :: p1 :: d0 :: d1 :: deck0) w)).
Proof.
  destruct (player_turn_spec deck0 [p0; p1] d0 (sent w (deal_events p0 p1 d0)))
    as (hits & rest & Hdeck & Hhits & Hout).
  destruct (player_turn deck0 [p0; p1] d0 (sent w (deal_events p0 p1 d0)))
    as [[[code|deck1 player last1]|e] w1] eqn:Hrun;
    cbn [fst snd player_outcome] in Hout.
  - (* the player busts *)
    rewrite (play_round_player_returns _ _ _ _ _ _ _ _ Hrun). cbn [fst snd].
    destruct Hout as (-> & Hv & before & card & Hlast & Hs).
    rewrite sends_sent, sends_deal, <- app_assoc in Hs.
    eexists. split; [exact Hs|].
    apply (PlayerBusts p0 p1 d0 d1 deck0 _ _ hits rest before card);
      try assumption; reflexivity.
  - (* the player stands *)
    rewrite (play_round_player_breaks _ _ _ _ _ _ _ _ _ _ Hrun).
    destruct Hout as (-> & -> & _ & Hv & Hs).
    rewrite sends_sent, sends_deal, <- app_assoc in Hs.
    destruct (dealer_loop_spec rest [d0; d1] d1
                               (sent w1 [card_frame RESULT_NOT_OVER d1]))
      as (draws & rest' & Hrest & Hbelow & Hd).
    destruct (dealer_loop rest [d0; d1] d1 _)
      as [[[code|deck2 dealer last2]|e] w2] eqn:Hdealer;
      cbn [fst snd dealer_outcome] in Hd.
    + (* the dealer busts *)
      rewrite (bind_ret _ _ _ _ _ Hdealer). cbn [fst snd ret].
      destruct Hd as (-> & Hbust & before & card & Hlast & ->).
      rewrite sent_sent, sends_sent, Hs, !sends_app, !sends_card_frames,
        !sends_card_frame1, <- !app_assoc.
      eexists. split; [reflexivity|].
      apply (DealerBusts p0 p1 d0 d1 deck0 _ _ hits draws rest' before card);
        try assumption; try reflexivity.
      rewrite Hdeck, Hrest. reflexivity.
    + (* the totals are compared *)
      rewrite (bind_ret _ _ _ _ _ Hdealer). cbv beta iota zeta.
      rewrite (bind_ret _ _ _ _ _ (send_card_eq last2 _ w2)). cbn [fst snd ret].
      destruct Hd as (-> & -> & -> & H17 & ->).
      rewrite !sent_sent, sends_sent, Hs, !sends_app, !sends_card_frames,
        !sends_card_frame1, <- !app_assoc.
      eexists. split; [reflexivity|].
      apply (Resolved p0 p1 d0 d1 deck0 _ _ hits draws rest');
        try assumption; try reflexivity.
      rewrite Hdeck, Hrest. reflexivity.
    + (* the deck runs out *)
      rewrite (bind_raises _ _ _ _ _ Hdealer). cbn [fst snd].
      destruct Hd as (-> & -> & Hlow & ->).
      rewrite sent_sent, sends_sent, Hs, !sends_app, !sends_card_frames,
        !sends_card_frame1, <- !app_assoc.
      eexists. split; [reflexivity|].
      apply (DeckRunsOut p0 p1 d0 d1 deck0 _ _ hits draws);
        try assumption; try reflexivity.
      rewrite Hdeck, Hrest, app_nil_r. reflexivity.
  - (* the player turn fails *)
    rewrite play_round_deal, (bind_raises _ _ _ _ _ Hrun). cbn [fst snd].
    destruct Hout as (Hv & Hs & He).
    rewrite sends_sent, sends_deal, <- app_assoc in Hs.
    eexists. split; [exact Hs|].
    apply (PlayerTurnFails p0 p1 d0 d1 deck0 _ _ hits rest e);
      try assumption; reflexivity.
Qed.

(* ================================================================== *)
(** * What a round sends *)

Lemma decide_winner_is_a_result (ps ds : Z) :
  decide_winner ps ds = RESULT_WIN \/ decide_winner ps ds = RESULT_LOSS
  \/ decide_winner ps ds = RESULT_TIE.
Proof.
  unfold decide_winner.
  destruct (ps >? 21); [tauto|]. destruct (ds >? 21); [tauto|].
  destruct (ps >? ds); [tauto|]. destruct (ps <? ds); tauto.
Qed.

Lemma last_app_cons (l1 l2 : list Card) (a d : Card) :
  List.last (l1 ++ a :: l2) d = List.last l2 a.
Proof.
  induction l1 as [|x l1 IH]; [apply last_after_draw|].
  cbn [app]. destruct (l1 ++ a :: l2) as [|c l] eqn:E;
    [destruct l1; discriminate|].
  change (List.last (c :: l) d = List.last l2 a). exact IH.
Qed.

Lemma first_total_at_most_21 (player hits : list Card) :
  hit_at_most_21 player hits -> hand_value (player ++ hits) <= 21 ->
  hand_value player <= 21.
Proof.
  intros Hh Hv. destruct hits as [|h hits].
  - rewrite app_nil_r in Hv. exact Hv.
  - specialize (Hh 0%nat ltac:(simpl; lia)). cbn [firstn] in Hh.
    rewrite app_nil_r in Hh. exact Hh.
Qed.

(** The round that ends with a result: the cards it sent and the card the
    result rides on. *)
Lemma round_result_frame (p0 p1 d0 d1 : Card) (deck0 : list Card)
      (frames : list event) (code : Z) :
  round_story p0 p1 d0 d1 deck0 frames (Ret code) ->
  exists cards card,
    frames = map (card_frame RESULT_NOT_OVER) cards ++ [card_frame code card] /\
    (code = RESULT_WIN \/ code = RESULT_LOSS \/ code = RESULT_TIE) /\
    firstn 3 cards = [p0; p1; d0] /\
    incl cards (p0 :: p1 :: d0 :: d1 :: deck0) /\
    card = (if hand_value [p0; p1] >? 21 then p1 else List.last cards p0).
Proof.
  intros Hstory.
  inversion Hstory
    as [hits rest before card Hdeck Hhits Hv Hlast Hf Hout
       |hits rest e Hdeck Hhits Hv Hf He Hout
       |hits draws rest before card Hdeck Hhits Hv Hbelow Hbust Hlast Hf Hout
       |hits draws rest Hdeck Hhits Hv Hbelow H17 Hf Hout
       |hits draws Hdeck Hhits Hv Hbelow Hlow Hf Hout];
    try discriminate Hout; injection Hout as ->.
  - exists ([p0; p1; d0] ++ hits), card.
    split; [rewrite Hf, map_app; reflexivity|].
    split; [tauto|]. split; [reflexivity|].
    split.
    { rewrite Hdeck. intros c Hc. cbn in Hc |- *. rewrite in_app_iff in *.
      intuition. }
    destruct hits as [|h hits].
    + rewrite app_nil_r in Hv.
      replace (hand_value [p0; p1] >? 21) with true
        by (symmetry; apply Z.gtb_lt; exact Hv).
      destruct before as [|b0 [|b1 [|b2 before]]]; try discriminate Hlast.
      injection Hlast as _ <-. reflexivity.
    + specialize (Hhits 0%nat ltac:(simpl; lia)). cbn [firstn] in Hhits.
      rewrite app_nil_r in Hhits.
      replace (hand_value [p0; p1] >? 21) with false
        by (symmetry; rewrite Z.gtb_ltb; apply Z.ltb_ge; exact Hhits).
      rewrite (last_app_cons [p0; p1; d0] hits h p0).
      assert (E : List.last ([p0; p1] ++ h :: hits) p0 = card)
        by (rewrite Hlast; apply last_last).
      rewrite (last_app_cons [p0; p1] hits h p0) in E. symmetry. exact E.
  - pose proof (first_total_at_most_21 _ _ Hhits Hv) as H21.
    exists ([p0; p1; d0] ++ hits ++ d1 :: draws), card.
    split; [rewrite Hf, !map_app, <- !app_assoc; reflexivity|].
    split; [tauto|]. split; [reflexivity|].
    split.
    { rewrite Hdeck. intros c Hc. cbn in Hc |- *.
      rewrite !in_app_iff in *. cbn in Hc. intuition. }
    replace (hand_value [p0; p1] >? 21) with false
      by (symmetry; rewrite Z.gtb_ltb; apply Z.ltb_ge; exact H21).
    rewrite app_assoc, last_app_cons, Hlast. symmetry. apply last_last.
  - pose proof (first_total_at_most_21 _ _ Hhits Hv) as H21.
    exists ([p0; p1; d0] ++ hits ++ d1 :: draws), (List.last draws d1).
    split; [rewrite Hf, !map_app, <- !app_assoc; reflexivity|].
    split; [apply decide_winner_is_a_result|]. split; [reflexivity|].
    split.
    { rewrite Hdeck. intros c Hc. cbn in Hc |- *.
      rewrite !in_app_iff in *. cbn in Hc. intuition. }
    replace (hand_value [p0; p1] >? 21) with false
      by (symmetry; rewrite Z.gtb_ltb; apply Z.ltb_ge; exact H21).
    rewrite app_assoc, last_app_cons. reflexivity.
Qed.

Lemma play_round_short_deck (deck : list Card) (w : world) :
  (length deck < 4)%nat -> play_round_with deck w = (Raise IndexError, w).
Proof.
  intros H. destruct deck as [|p0 [|p1 [|d0 [|d1 deck]]]];
    try reflexivity. simpl in H. lia.
Qed.

(** X7.  Every round that [play_one_round] completes sends a run of NOT_OVER
    frames, one card each, and then exactly one more frame, which carries the
    result the function returns; this result is WIN, LOSS or TIE, the cards
    are cards of the deck of the round, and the first three are the first
    three of the deck. *)
Theorem round_sends_cards_then_one_result :
  forall (deck : list Card) (w : world) (code : Z),
    fst (play_round_with deck w) = Ret code ->
    exists cards card,
      sends (trace (snd (play_round_with deck w)))
      = sends (trace w) ++ map (card_frame RESULT_NOT_OVER) cards
        ++ [card_frame code card] /\
      (code = RESULT_WIN \/ code = RESULT_LOSS \/ code = RESULT_TIE) /\
      firstn 3 cards = firstn 3 deck /\
      incl cards deck /\ In card deck.
Proof.
  intros deck w code Hrun.
  destruct deck as [|p0 [|p1 [|d0 [|d1 deck0]]]];
    try (rewrite play_round_short_deck in Hrun by (simpl; lia); discriminate).
  destruct (play_round_story p0 p1 d0 d1 deck0 w) as (frames & Hs & Hstory).
  rewrite Hrun in Hstory.
  destruct (round_result_frame _ _ _ _ _ _ _ Hstory)
    as (cards & card & Hf & Hcode & H3 & Hincl & Hcard).
  exists cards, card. rewrite Hs, Hf.
  split; [reflexivity|]. split; [exact Hcode|]. split; [exact H3|].
  split; [exact Hincl|].
  destruct (hand_value [p0; p1] >? 21).
  - subst card. right. left. reflexivity.
  - apply Hincl. subst card. destruct cards as [|c cards]; [discriminate H3|].
    destruct (exists_last (l := c :: cards) ltac:(discriminate)) as (b & x & E).
    rewrite E, last_last. apply in_or_app. right. left. reflexivity.
Qed.

(** Scenario A, the player standing at once. *)
Lemma round_sends_cards_then_one_result_witness :
  exists cards card,
    sends (trace (snd (play_round_with deck_A (fresh_world [stand_frame] deck_A))))
    = sends (trace (fresh_world [stand_frame] deck_A))
      ++ map (card_frame RESULT_NOT_OVER) cards
      ++ [card_frame RESULT_WIN card] /\
    (RESULT_WIN = RESULT_WIN \/ RESULT_WIN = RESULT_LOSS
     \/ RESULT_WIN = RESULT_TIE) /\
    firstn 3 cards = firstn 3 deck_A /\
    incl cards deck_A /\ In card deck_A.
Proof.
  apply (round_sends_cards_then_one_result
           deck_A (fresh_world [stand_frame] deck_A) RESULT_WIN).
  vm_compute. reflexivity.
Defined.

Lemma deal_over_21 (p0 p1 d0 d1 : Card) (deck0 : list Card)
      (frames : list event) (out : outcome Z) :
  round_story p0 p1 d0 d1 deck0 frames out ->
  21 < hand_value [p0; p1] ->
  out = Ret RESULT_LOSS /\
  frames = deal_events p0 p1 d0 ++ [card_frame RESULT_LOSS p1].
Proof.
  intros Hstory Hover.
  inversion Hstory
    as [hits rest before card Hdeck Hhits Hv Hlast Hf Hout
       |hits rest e Hdeck Hhits Hv Hf He Hout
       |hits draws rest before card Hdeck Hhits Hv Hbelow Hbust Hlast Hf Hout
       |hits draws rest Hdeck Hhits Hv Hbelow H17 Hf Hout
       |hits draws Hdeck Hhits Hv Hbelow Hlow Hf Hout];
    try (pose proof (first_total_at_most_21 _ _ Hhits Hv); lia).
  destruct hits as [|h hits].
  - destruct before as [|b0 [|b1 [|b2 before]]]; try discriminate Hlast.
    injection Hlast as _ <-. split; [exact Hout|exact Hf].
  - specialize (Hhits 0%nat ltac:(simpl; lia)). cbn [firstn] in Hhits.
    rewrite app_nil_r in Hhits. lia.
Qed.

(** X8.  In a completed round the result rides on the last card sent, with one
    exception: when the two cards dealt to the player are worth more than 21,
    the round is lost at once and the LOSS rides on the player's second card,
    sent before the dealer's upcard. *)
Theorem result_rides_on_last_card_unless_deal_busts :
  forall (p0 p1 d0 d1 : Card) (deck0 : list Card) (w : world) (code : Z),
    fst (play_round_with (p0 :: p1 :: d0 :: d1 :: deck0) w) = Ret code ->
    (hand_value [p0; p1] <= 21 ->
     exists cards,
       sends (trace (snd (play_round_with (p0 :: p1 :: d0 :: d1 :: deck0) w)))
       = sends (trace w) ++ map (card_frame RESULT_NOT_OVER) cards
         ++ [card_frame code (List.last cards p0)]) /\
    (21 < hand_value [p0; p1] ->
     code = RESULT_LOSS /\
     sends (trace (snd (play_round_with (p0 :: p1 :: d0 :: d1 :: deck0) w)))
     = sends (trace w) ++ deal_events p0 p1 d0 ++ [card_frame RESULT_LOSS p1]).
Proof.
  intros p0 p1 d0 d1 deck0 w code Hrun.
  destruct (play_round_story p0 p1 d0 d1 deck0 w) as (frames & Hs & Hstory).
  rewrite Hrun in Hstory. split.
  - intros Hok.
    destruct (round_result_frame _ _ _ _ _ _ _ Hstory)
      as (cards & card & Hf & _ & _ & _ & Hcard).
    replace (hand_value [p0; p1] >? 21) with false in Hcard
      by (symmetry; rewrite Z.gtb_ltb; apply Z.ltb_ge; exact Hok).
    exists cards. rewrite Hs, Hf, Hcard. reflexivity.
  - intros Hover.
    destruct (deal_over_21 _ _ _ _ _ _ _ Hstory Hover) as [Hout Hf].
    injection Hout as ->. split; [reflexivity|]. rewrite Hs, Hf. reflexivity.
Qed.

(** Scenario A for the rule, and a deal of two Aces, now with a client that
    stays silent, for the exception. *)
Lemma result_rides_on_last_card_unless_deal_busts_witness :
  (exists cards,
      sends (trace (snd (play_round_with deck_A (fresh_world [stand_frame] deck_A))))
      = sends (trace (fresh_world [stand_frame] deck_A))
        ++ map (card_frame RESULT_NOT_OVER) cards
        ++ [card_frame RESULT_WIN (List.last cards (10, 0))]) /\
  sends (trace (snd (play_round_with deck_two_aces
                                     (mkWorld [] TimedOut [] (fun _ => deck_two_aces) 0))))
  = deal_events (1, 0) (1, 1) (5, 2) ++ [card_frame RESULT_LOSS (1, 1)].
Proof.
  split.
  - apply (result_rides_on_last_card_unless_deal_busts
             (10, 0) (9, 1) (8, 2) (13, 3) (skipn 4 deck_A)
             (fresh_world [stand_frame] deck_A) RESULT_WIN).
    + vm_compute. reflexivity.
    + vm_compute. discriminate.
  - apply (result_rides_on_last_card_unless_deal_busts
             (1, 0) (1, 1) (5, 2) (13, 3) (skipn 4 deck_two_aces)
             (mkWorld [] TimedOut [] (fun _ => deck_two_aces) 0) RESULT_LOSS).
    + vm_compute. reflexivity.
    + vm_compute. reflexivity.
Defined.

(** X9.  A round that ends by an exception has announced no result: all it sent
    are NOT_OVER frames, one card each; and the exception is a connection
    error, a timeout or, when the deck runs out, an index error. *)
Theorem aborted_round_announces_no_result :
  forall (deck : list Card) (w : world) (e : exn),
    fst (play_round_with deck w) = Raise e ->
    (exists cards,
        sends (trace (snd (play_round_with deck w)))
        = sends (trace w) ++ map (card_frame RESULT_NOT_OVER) cards /\
        incl cards deck) /\
    (e = ConnectionError \/ e = SocketTimeout \/ e = IndexError).
Proof.
  intros deck w e Hrun.
  destruct deck as [|p0 [|p1 [|d0 [|d1 deck0]]]];
    try (rewrite play_round_short_deck in Hrun |- * by (simpl; lia);
         injection Hrun as <-;
         split; [exists []; split; [cbn; rewrite app_nil_r; reflexivity
                                   |intros c []]
                |tauto]).
  destruct (play_round_story p0 p1 d0 d1 deck0 w) as (frames & Hs & Hstory).
  rewrite Hrun in Hstory. rewrite Hs.
  inversion Hstory
    as [hits rest before card Hdeck Hhits Hv Hlast Hf Hout
       |hits rest e' Hdeck Hhits Hv Hf He Hout
       |hits draws rest before card Hdeck Hhits Hv Hbelow Hbust Hlast Hf Hout
       |hits draws rest Hdeck Hhits Hv Hbelow H17 Hf Hout
       |hits draws Hdeck Hhits Hv Hbelow Hlow Hf Hout];
    try discriminate Hout; injection Hout as ->.
  - split; [|tauto].
    exists ([p0; p1; d0] ++ hits). rewrite Hf, map_app. split; [reflexivity|].
    rewrite Hdeck. intros c Hc. cbn in Hc |- *. rewrite in_app_iff in *.
    intuition.
  - split; [|tauto].
    exists ([p0; p1; d0] ++ hits ++ d1 :: draws).
    rewrite Hf, !map_app, <- ?app_assoc. split; [reflexivity|].
    rewrite Hdeck. intros c Hc. cbn in Hc |- *.
    rewrite !in_app_iff in *. cbn in Hc. intuition.
Qed.

(** The client closes the connection without a decision. *)
Lemma aborted_round_announces_no_result_witness :
  (exists cards,
      sends (trace (snd (play_round_with deck_A (fresh_world [] deck_A))))
      = sends (trace (fresh_world [] deck_A))
        ++ map (card_frame RESULT_NOT_OVER) cards /\
      incl cards deck_A) /\
  (ConnectionError = ConnectionError \/ ConnectionError = SocketTimeout
   \/ ConnectionError = IndexError).
Proof.
  apply (aborted_round_announces_no_result
           deck_A (fresh_world [] deck_A) ConnectionError).
  vm_compute. reflexivity.
Defined.

(* ================================================================== *)
(** * Hands of valid cards *)

Lemma card_value_valid (c : Card) :
  valid_card c -> 2 <= card_value (fst c) <= 11.
Proof.
  intros [Hr _]. unfold card_value.
  destruct (Z.eqb_spec (fst c) 1); [lia|].
  destruct (Z.geb_spec (fst c) 11); lia.
Qed.

Lemma hand_value_bounds (hand : list Card) :
  Forall valid_card hand ->
  2 * Z.of_nat (length hand) <= hand_value hand <= 11 * Z.of_nat (length hand).
Proof.
  induction 1 as [|c hand Hc _ IH]; [cbn; lia|].
  rewrite hand_value_cons, length_cons, Nat2Z.inj_succ.
  pose proof (card_value_valid c Hc). lia.
Qed.

Lemma hand_value_perm (h1 h2 : list Card) :
  Permutation h1 h2 -> hand_value h1 = hand_value h2.
Proof.
  induction 1 as [|c h1 h2 _ IH|c1 c2 h|h1 h2 h3 _ IH1 _ IH2].
  - reflexivity.
  - rewrite !hand_value_cons, IH. reflexivity.
  - rewrite !hand_value_cons. lia.
  - congruence.
Qed.

(** X10.  The value of a hand does not depend on the order of its cards, and a
    hand of [n] valid cards is worth between [2 n] and [11 n]. *)
Theorem hand_value_ignores_order :
  (forall h1 h2, Permutation h1 h2 -> hand_value h1 = hand_value h2) /\
  (forall hand,
      Forall valid_card hand ->
      2 * Z.of_nat (length hand) <= hand_value hand
      <= 11 * Z.of_nat (length hand)).
Proof. split; [exact hand_value_perm|exact hand_value_bounds]. Qed.

Lemma hand_value_ignores_order_witness :
  hand_value [(1, 0); (13, 3); (5, 2)] = hand_value [(5, 2); (1, 0); (13, 3)] /\
  2 * 2 <= hand_value [(2, 0); (1, 3)] <= 11 * 2.
Proof.
  destruct hand_value_ignores_order as [Hperm Hbound]. split.
  - apply Hperm.
    apply (Permutation_cons_app [(5, 2)] [(13, 3)] (1, 0)).
    apply (Permutation_cons_app [(5, 2)] [] (13, 3)).
    apply Permutation_refl.
  - apply (Hbound [(2, 0); (1, 3)]).
    repeat constructor; simpl; lia.
Defined.

Lemma sorted_deck_valid : Forall valid_card sorted_deck.
Proof.
  unfold sorted_deck. cbn [flat_map map app].
  repeat (constructor; [unfold valid_card; simpl; lia|]). constructor.
Qed.

Lemma shuffle_valid (deck : list Card) :
  Permutation deck sorted_deck -> Forall valid_card deck /\ length deck = 52%nat.
Proof.
  intros H. split.
  - apply (Permutation_Forall (Permutation_sym H)), sorted_deck_valid.
  - rewrite (Permutation_length H). reflexivity.
Qed.

(* ================================================================== *)
(** * The deck is never used up *)

Lemma round_story_never_runs_out (p0 p1 d0 d1 : Card) (deck0 : list Card)
      (frames : list event) (e : exn) :
  Forall valid_card (p0 :: p1 :: d0 :: d1 :: deck0) ->
  (16 <= length deck0)%nat ->
  round_story p0 p1 d0 d1 deck0 frames (Raise e) ->
  e = ConnectionError \/ e = SocketTimeout.
Proof.
  intros Hvalid Hlen Hstory.
  assert (Hp : Forall valid_card [p0; p1])
    by (apply (Forall_prefix valid_card 2 _ Hvalid)).
  assert (Hd : Forall valid_card [d0; d1])
    by (apply (Forall_prefix valid_card 2 _ (Forall_suffix _ 2 _ Hvalid))).
  assert (H0 : Forall valid_card deck0)
    by (apply (Forall_suffix _ 4 _ Hvalid)).
  inversion Hstory
    as [hits rest before card Hdeck Hhits Hv Hlast Hf Hout
       |hits rest e' Hdeck Hhits Hv Hf He Hout
       |hits draws rest before card Hdeck Hhits Hv Hbelow Hbust Hlast Hf Hout
       |hits draws rest Hdeck Hhits Hv Hbelow H17 Hf Hout
       |hits draws Hdeck Hhits Hv Hbelow Hlow Hf Hout];
    try discriminate Hout; injection Hout as ->.
  - destruct He as [He|[He|[He Hrest]]]; [tauto|tauto|exfalso].
    subst rest. rewrite app_nil_r in Hdeck. subst hits.
    pose proof (hand_value_bounds _ (proj2 (Forall_app _ _ _) (conj Hp H0))) as Hb.
    rewrite length_app in Hb. simpl length in Hb. lia.
  - exfalso. rewrite Hdeck in H0, Hlen. apply Forall_app in H0 as [Hh Hdr].
    pose proof (hand_value_bounds _ (proj2 (Forall_app _ _ _) (conj Hp Hh))) as Hb1.
    pose proof (hand_value_bounds _ (proj2 (Forall_app _ _ _) (conj Hd Hdr))) as Hb2.
    rewrite !length_app in *. simpl length in *. lia.
Qed.

(** X11.  On a deck of at least 20 valid cards [deck.pop()] never fails: a round
    ends by a result, by a connection error or by a timeout, however long
    the client goes on hitting. *)
Theorem round_never_runs_out_of_cards :
  forall (deck : list Card) (w : world) (e : exn),
    Forall valid_card deck -> (20 <= length deck)%nat ->
    fst (play_round_with deck w) = Raise e ->
    e = ConnectionError \/ e = SocketTimeout.
Proof.
  intros deck w e Hvalid Hlen Hrun.
  destruct deck as [|p0 [|p1 [|d0 [|d1 deck0]]]]; try (simpl in Hlen; lia).
  destruct (play_round_story p0 p1 d0 d1 deck0 w) as (frames & _ & Hstory).
  rewrite Hrun in Hstory.
  apply (round_story_never_runs_out p0 p1 d0 d1 deck0 frames e Hvalid);
    [simpl in Hlen; lia|exact Hstory].
Qed.

(** A client that never sends anything, against the deck of scenario A. *)
Lemma round_never_runs_out_of_cards_witness :
  SocketTimeout = ConnectionError \/ SocketTimeout = SocketTimeout.
Proof.
  apply (round_never_runs_out_of_cards
           deck_A (mkWorld [] TimedOut [] (fun _ => deck_A) 0) SocketTimeout).
  - apply (proj1 (shuffle_valid deck_A (proj1 scenario_decks_are_shuffles))).
  - vm_compute. lia.
  - vm_compute. reflexivity.
Defined.

(* ================================================================== *)
(** * How a session can end *)

Lemma play_one_round_raises (w : world) (e : exn) :
  Permutation (rng w (dealt w)) sorted_deck ->
  fst (play_one_round w) = Raise e ->
  e = ConnectionError \/ e = SocketTimeout.
Proof.
  intros Hperm. unfold play_one_round, bind, create_deck.
  destruct (play_round_with _ _) as [[r|e'] w1] eqn:Hrun; [discriminate|].
  intros H. injection H as ->.
  destruct (shuffle_valid _ Hperm) as [Hv Hl].
  destruct (rng w (dealt w)) as [|p0 [|p1 [|d0 [|d1 deck0]]]];
    try discriminate Hl.
  destruct (play_round_story p0 p1 d0 d1 deck0
              (mkWorld (inbox w) (at_end w) (trace w) (rng w) (S (dealt w))))
    as (frames & _ & Hstory).
  rewrite Hrun in Hstory.
  apply (round_story_never_runs_out p0 p1 d0 d1 deck0 frames e Hv);
    [simpl in Hl; lia|exact Hstory].
Qed.

Lemma play_rounds_raises (n : nat) :
  forall (w : world) (e : exn),
    (forall k, Permutation (rng w k) sorted_deck) ->
    fst (play_rounds n w) = Raise e ->
    e = ConnectionError \/ e = SocketTimeout.
Proof.
  induction n as [|n IH]; intros w e Hrng; cbn [play_rounds].
  - discriminate.
  - unfold bind. pose proof (play_one_round_raises w) as Hone.
    pose proof (play_one_round_deals w) as [Hsame _].
    destruct (play_one_round w) as [[r|e'] w1]; cbn [fst snd] in *.
    + apply IH. intros k. rewrite Hsame. apply Hrng.
    + intros H. injection H as ->. apply Hone; [apply Hrng|reflexivity].
Qed.

(** X12.  With a source of shuffles that always leaves a permutation of the 52
    cards, [handle_client] never lets an exception out: whatever the client
    sends or fails to send, the session ends in one of the five ways the
    function provides for. *)
Theorem handle_client_always_returns :
  forall w : world,
    (forall k, Permutation (rng w k) sorted_deck) ->
    exists how, fst (handle_client w) = Ret how.
Proof.
  intros w Hrng. unfold handle_client, session.
  destruct (recv_exact_quiet REQUEST_SIZE w) as [(_ & _ & Hsame & _) Hexn].
  unfold bind at 1.
  destruct (recv_exact REQUEST_SIZE w) as [[[req|]|e] w1]; cbn [fst snd] in *.
  - destruct (unpack_request req) as [[rounds name]|].
    + pose proof (play_rounds_raises
                    (Z.to_nat (if rounds <? 1 then 1 else rounds)) w1) as Hraise.
      unfold bind.
      destruct (play_rounds _ w1) as [[[]|e] w2]; cbn [fst snd] in *.
      * eexists. reflexivity.
      * destruct (Hraise e) as [-> | ->];
          [intros k; rewrite Hsame; apply Hrng|reflexivity| |];
          eexists; reflexivity.
    + eexists. reflexivity.
  - eexists. reflexivity.
  - rewrite (Hexn e eq_refl). eexists. reflexivity.
Qed.

(** A client that asks for three rounds and then sends garbage. *)
Lemma handle_client_always_returns_witness :
  exists how,
    fst (handle_client
           (fresh_world [pack_request 3 (str_of "cli"); repeat x01 10] deck_A))
    = Ret how.
Proof.
  apply handle_client_always_returns.
  intros k. exact (proj1 scenario_decks_are_shuffles).
Defined.

(** X13.  Until a Request has been read and decoded the server sends nothing and
    deals nothing: a connection that closes early ends as [NoRequest], one
    that stalls as a timeout, and one whose first 38 bytes are not a Request
    as [InvalidRequest]. *)
Theorem nothing_is_sent_without_a_request :
  forall w : world,
    tidy w ->
    unpack_request (firstn REQUEST_SIZE (wire w)) = None ->
    quiet w (snd (handle_client w)) /\
    fst (handle_client w)
    = (if (length (wire w) <? REQUEST_SIZE)%nat
       then match at_end w with
            | PeerClosed => Ret NoRequest
            | TimedOut => Ret TimedOutSession
            end
       else Ret InvalidRequest).
Proof.
  intros w Ht Hbad. unfold handle_client, session.
  destruct (Nat.ltb_spec (length (wire w)) REQUEST_SIZE) as [Hshort|Hlong].
  - destruct (recv_exact_on_short_stream REQUEST_SIZE w Ht Hshort)
      as (Hout & _ & Hq).
    unfold bind.
    destruct (recv_exact REQUEST_SIZE w) as [[[req|]|e] w1]; cbn [fst snd] in *;
      destruct (at_end w); try discriminate Hout.
    + split; [exact Hq|reflexivity].
    + injection Hout as ->. split; [exact Hq|reflexivity].
  - destruct (recv_exact_stream REQUEST_SIZE w (firstn REQUEST_SIZE (wire w))
                                (skipn REQUEST_SIZE (wire w)) Ht)
      as (w' & parts & Hrun & _ & _ & Hstep & _).
    + symmetry. apply firstn_skipn.
    + rewrite length_firstn. lia.
    + rewrite (bind_ret _ _ _ _ _ Hrun), Hbad. cbn [fst snd ret].
      split; [|reflexivity]. rewrite Hstep. apply quiet_read.
Qed.

(** An Offer sent to the server in the place of a Request. *)
Lemma nothing_is_sent_without_a_request_witness :
  quiet (fresh_world [pack_offer 8080 (str_of "srv")] deck_A)
        (snd (handle_client (fresh_world [pack_offer 8080 (str_of "srv")] deck_A))) /\
  fst (handle_client (fresh_world [pack_offer 8080 (str_of "srv")] deck_A))
  = Ret InvalidRequest.
Proof.
  apply (nothing_is_sent_without_a_request
           (fresh_world [pack_offer 8080 (str_of "srv")] deck_A)).
  - repeat constructor. vm_compute. discriminate.
  - vm_compute. reflexivity.
Defined.

(* ================================================================== *)
(** * The client: reading frames and asking for decisions *)

Lemma sent_bytes_app (t1 t2 : list event) :
  sent_bytes (t1 ++ t2) = sent_bytes t1 ++ sent_bytes t2.
Proof. apply flat_map_app. Qed.

Lemma sent_bytes_sends (t : list event) : sent_bytes (sends t) = sent_bytes t.
Proof.
  induction t as [|[data|part] t IH]; cbn; [reflexivity| |exact IH].
  f_equal. exact IH.
Qed.

Lemma sent_bytes_card_frames (code : Z) (cards : list Card) (more : list event) :
  sent_bytes (map (card_frame code) cards ++ more)
  = concat (map (fun c => pack_server_payload code (fst c) (snd c)) cards)
    ++ sent_bytes more.
Proof.
  induction cards as [|c cards IH]; [reflexivity|].
  cbn [map app concat sent_bytes flat_map card_frame].
  fold (sent_bytes (map (card_frame code) cards ++ more)).
  rewrite IH, app_assoc. reflexivity.
Qed.

Lemma length_pack_server_payload (code rank suit : Z) :
  length (pack_server_payload code rank suit) = SERVER_PAYLOAD_SIZE.
Proof. reflexivity. Qed.

Lemma length_card_frames (code : Z) (cards : list Card) :
  length (concat (map (fun c => pack_server_payload code (fst c) (snd c)) cards))
  = (9 * length cards)%nat.
Proof.
  induction cards as [|c cards IH]; [reflexivity|].
  cbn [map concat]. rewrite length_app, IH, length_pack_server_payload.
  unfold SERVER_PAYLOAD_SIZE. cbn [length]. lia.
Qed.

(** [_read_one_server_payload] on a stream that starts with the frame of a
    card: it returns the result code and the card, and leaves the rest. *)
Lemma read_frame (code : Z) (card : Card) (s : client) (rest : list byte) :
  0 <= code <= 255 -> valid_card card ->
  tidy (conn s) ->
  wire (conn s) = pack_server_payload code (fst card) (snd card) ++ rest ->
  exists w',
    _read_one_server_payload s
    = (Done (code, fst card, snd card), mkClient w' (stdin s)) /\
    tidy w' /\ wire w' = rest /\ quiet (conn s) w'.
Proof.
  intros Hc [Hr Hs] Ht Hw.
  destruct (recv_exact_stream SERVER_PAYLOAD_SIZE (conn s) _ rest Ht Hw
                              (length_pack_server_payload _ _ _))
    as (w' & parts & Hrun & Ht' & Hw' & Hstep & _).
  exists w'. split; [|split; [exact Ht'|split; [exact Hw'|]]].
  - unfold _read_one_server_payload, on_socket.
    rewrite (bind_ret _ _ _ _ _ Hrun).
    rewrite unpack_pack_server_payload_mod.
    rewrite !Z.mod_small by lia. reflexivity.
  - rewrite Hstep. apply quiet_read.
Qed.

(** A card with a suit 0..3 has a text, so that printing it goes through. *)
Lemma card_to_string_valid (rank suit : Z) :
  0 <= suit <= 3 -> exists text, card_to_string (rank, suit) = Ret text.
Proof.
  intros H. unfold card_to_string, py_index. cbn [length SUITS_LONG].
  assert (E : suit = 0 \/ suit = 1 \/ suit = 2 \/ suit = 3) by lia.
  destruct E as [-> | [-> | [-> | ->]]]; eexists; reflexivity.
Qed.

Lemma print_card (card : Card) (s : client) :
  valid_card card -> print (card_to_string (fst card, snd card)) s = (Done tt, s).
Proof.
  intros [_ Hs]. destruct (card_to_string_valid (fst card) (snd card) Hs) as [text E].
  unfold print, cbind. rewrite E. reflexivity.
Qed.

(** A suit above 3 has no name: the text of the card cannot be built. *)
Lemma card_to_string_bad_suit (rank suit : Z) :
  4 <= suit -> card_to_string (rank, suit) = Raise IndexError.
Proof.
  intros H. unfold card_to_string, py_index. cbn [length SUITS_LONG].
  replace (suit <? 0) with false by (symmetry; apply Z.ltb_ge; lia).
  replace (Z.of_nat 4 <=? suit) with true by (symmetry; apply Z.leb_le; lia).
  rewrite orb_true_r. reflexivity.
Qed.

(** What [ask_decision] finds on the lines to come. *)
Lemma ask_decision_from_spec (lines : list pystr) :
  match ask_decision_from lines with
  | Some (d, lines') =>
    is_decision d = true /\ all_decisions lines = d :: all_decisions lines'
  | None => all_decisions lines = []
  end.
Proof.
  unfold all_decisions.
  induction lines as [|line lines IH]; [reflexivity|].
  cbn [ask_decision_from map filter].
  destruct (is_decision (strip line)) eqn:Hd.
  - split; [exact Hd|reflexivity].
  - exact IH.
Qed.

Lemma pack_decision (d : pystr) :
  is_decision d = true -> pack_client_payload d = Ret (decision_frame d).
Proof.
  intros H. apply is_decision_spec in H. destruct H as [-> | ->]; reflexivity.
Qed.

Lemma unpack_decision_frame (d : pystr) :
  is_decision d = true -> unpack_client_payload (decision_frame d) = Some d.
Proof.
  intros H. apply is_decision_spec in H. destruct H as [-> | ->].
  - exact unpack_hit_frame.
  - exact unpack_stand_frame.
Qed.

Lemma length_decision_frame (d : pystr) :
  is_decision d = true -> length (decision_frame d) = CLIENT_PAYLOAD_SIZE.
Proof.
  intros H. apply is_decision_spec in H. destruct H as [-> | ->]; reflexivity.
Qed.

Lemma count_total (code : Z) (t : tally) :
  wins (count code t) + losses (count code t) + ties (count code t)
  = wins t + losses t + ties t + 1.
Proof.
  unfold count. destruct (code =? RESULT_WIN); [cbn; lia|].
  destruct (code =? RESULT_LOSS); cbn; lia.
Qed.

(** The loop that waits for the result after a bust, on a stream of card
    frames that ends with a result. *)
Lemma wait_for_result_stream (cards : list Card) :
  forall (fuel : nat) (t : tally) (s : client) (code : Z) (card : Card)
         (rest : list byte),
    Forall valid_card cards -> valid_card card -> 1 <= code <= 255 ->
    tidy (conn s) ->
    wire (conn s)
    = sent_bytes (map (card_frame RESULT_NOT_OVER) cards ++ [card_frame code card])
      ++ rest ->
    (length cards < fuel)%nat ->
    exists w',
      wait_for_result fuel t s = (Done (count code t), mkClient w' (stdin s)) /\
      tidy w' /\ wire w' = rest /\ quiet (conn s) w'.
Proof.
  induction cards as [|c cards IH];
    intros fuel t s code card rest Hcs Hcard Hcode Ht Hw Hf;
    (destruct fuel as [|fuel]; [simpl in Hf; lia|]); cbn [wait_for_result].
  - cbn [map app sent_bytes flat_map card_frame] in Hw.
    rewrite app_nil_r in Hw.
    destruct (read_frame code card s rest ltac:(lia) Hcard Ht Hw)
      as (w' & Hrun & Ht' & Hw' & Hq).
    exists w'. unfold cbind. rewrite Hrun.
    replace (code =? RESULT_NOT_OVER) with false
      by (symmetry; apply Z.eqb_neq; unfold RESULT_NOT_OVER; lia).
    cbn [negb]. split; [reflexivity|]. split; [exact Ht'|].
    split; [exact Hw'|exact Hq].
  - inversion Hcs as [|? ? Hc Hcs']; subst.
    cbn [map app sent_bytes flat_map card_frame] in Hw.
    fold (sent_bytes (map (card_frame RESULT_NOT_OVER) cards
                      ++ [card_frame code card])) in Hw.
    rewrite <- app_assoc in Hw.
    destruct (read_frame RESULT_NOT_OVER c s _ ltac:(unfold RESULT_NOT_OVER; lia)
                         Hc Ht Hw)
      as (w1 & Hrun & Ht1 & Hw1 & Hq1).
    destruct (IH fuel t (mkClient w1 (stdin s)) code card rest Hcs' Hcard Hcode
                 Ht1 Hw1 ltac:(simpl in Hf; lia))
      as (w' & Hrun' & Ht' & Hw' & Hq').
    exists w'. unfold cbind at 1. rewrite Hrun.
    change (RESULT_NOT_OVER =? RESULT_NOT_OVER) with true. cbn [negb].
    rewrite Hrun'. cbn [stdin]. split; [reflexivity|]. split; [exact Ht'|].
    split; [exact Hw'|exact (quiet_trans _ _ _ Hq1 Hq')].
Qed.

(** The loop of the dealer phase, on a stream of card frames that ends with
    a result. *)
Lemma watch_dealer_stream (cards : list Card) :
  forall (fuel : nat) (dealer_cards : list Card) (t : tally) (s : client)
         (code : Z) (card : Card) (rest : list byte),
    Forall valid_card cards -> valid_card card -> 1 <= code <= 255 ->
    tidy (conn s) ->
    wire (conn s)
    = sent_bytes (map (card_frame RESULT_NOT_OVER) cards ++ [card_frame code card])
      ++ rest ->
    (length cards < fuel)%nat ->
    exists w',
      watch_dealer fuel dealer_cards t s
      = (Done (count code t), mkClient w' (stdin s)) /\
      tidy w' /\ wire w' = rest /\ quiet (conn s) w'.
Proof.
  induction cards as [|c cards IH];
    intros fuel dealer_cards t s code card rest Hcs Hcard Hcode Ht Hw Hf;
    (destruct fuel as [|fuel]; [simpl in Hf; lia|]); cbn [watch_dealer].
  - cbn [map app sent_bytes flat_map card_frame] in Hw.
    rewrite app_nil_r in Hw.
    destruct (read_frame code card s rest ltac:(lia) Hcard Ht Hw)
      as (w' & Hrun & Ht' & Hw' & Hq).
    exists w'. unfold cbind at 1. rewrite Hrun.
    unfold cbind at 1. rewrite (print_card card _ Hcard).
    replace (code =? RESULT_NOT_OVER) with false
      by (symmetry; apply Z.eqb_neq; unfold RESULT_NOT_OVER; lia).
    cbn [negb]. split; [reflexivity|]. split; [exact Ht'|].
    split; [exact Hw'|exact Hq].
  - inversion Hcs as [|? ? Hc Hcs']; subst.
    cbn [map app sent_bytes flat_map card_frame] in Hw.
    fold (sent_bytes (map (card_frame RESULT_NOT_OVER) cards
                      ++ [card_frame code card])) in Hw.
    rewrite <- app_assoc in Hw.
    destruct (read_frame RESULT_NOT_OVER c s _ ltac:(unfold RESULT_NOT_OVER; lia)
                         Hc Ht Hw)
      as (w1 & Hrun & Ht1 & Hw1 & Hq1).
    destruct (IH fuel (dealer_cards ++ [(fst c, snd c)]) t
                 (mkClient w1 (stdin s)) code card rest Hcs' Hcard Hcode
                 Ht1 Hw1 ltac:(simpl in Hf; lia))
      as (w' & Hrun' & Ht' & Hw' & Hq').
    exists w'. unfold cbind at 1. rewrite Hrun.
    unfold cbind at 1. rewrite (print_card c _ Hc).
    change (RESULT_NOT_OVER =? RESULT_NOT_OVER) with true. cbn [negb].
    rewrite Hrun'. cbn [stdin]. split; [reflexivity|]. split; [exact Ht'|].
    split; [exact Hw'|exact (quiet_trans _ _ _ Hq1 Hq')].
Qed.

(* ================================================================== *)
(** * The two sides of a round *)

Lemma play_round_from (p0 p1 d0 d1 : Card) (deck : list Card) (w : world) :
  play_round_with (p0 :: p1 :: d0 :: d1 :: deck) w
  = round_from d0 d1 deck [p0; p1] d0 (sent w (deal_events p0 p1 d0)).
Proof. apply play_round_deal. Qed.

Lemma valid_last (drawn : list Card) (d : Card) :
  Forall valid_card drawn -> valid_card d -> valid_card (List.last drawn d).
Proof.
  intros H Hd. induction H as [|c l Hc _ IH]; [exact Hd|].
  destruct l as [|c' l]; [exact Hc|]. exact IH.
Qed.

(** The dealer phase that ends with a result has sent the hole card, the
    cards drawn and one result frame. *)
Lemma dealer_phase_frames (d0 d1 : Card) (deck player : list Card)
      (w w' : world) (code : Z) :
  valid_card d1 -> Forall valid_card deck ->
  dealer_phase d0 d1 deck player w = (Ret code, w') ->
  exists cards card,
    Forall valid_card cards /\ valid_card card /\ 1 <= code <= 3 /\
    w' = sent w (map (card_frame RESULT_NOT_OVER) cards ++ [card_frame code card]).
Proof.
  intros Hd1 Hdeck Hrun. unfold dealer_phase in Hrun.
  rewrite (bind_ret _ _ _ _ _ (send_card_eq d1 RESULT_NOT_OVER w)) in Hrun.
  destruct (dealer_loop_spec deck [d0; d1] d1 (sent w [card_frame RESULT_NOT_OVER d1]))
    as (drawn & rest & Hsplit & _ & Hout).
  assert (Hdrawn : Forall valid_card drawn).
  { rewrite Hsplit in Hdeck. apply Forall_app in Hdeck. apply Hdeck. }
  destruct (dealer_loop deck [d0; d1] d1 (sent w [card_frame RESULT_NOT_OVER d1]))
    as [[[c|deck' dealer' last']|e] w1] eqn:Hloop;
    cbn [fst snd dealer_outcome] in Hout.
  - destruct Hout as (-> & _ & before & card & Hb & ->).
    rewrite (bind_ret _ _ _ _ _ Hloop) in Hrun. injection Hrun as <- <-.
    exists (d1 :: drawn), card. split; [constructor; assumption|].
    split.
    { rewrite Hb in Hdrawn. apply Forall_app in Hdrawn.
      destruct Hdrawn as [_ H]. inversion H; assumption. }
    split; [unfold RESULT_WIN; lia|].
    rewrite sent_sent. reflexivity.
  - destruct Hout as (-> & -> & -> & _ & ->).
    rewrite (bind_ret _ _ _ _ _ Hloop) in Hrun. cbv zeta in Hrun.
    rewrite (bind_ret _ _ _ _ _ (send_card_eq _ _ _)) in Hrun.
    injection Hrun as <- <-.
    exists (d1 :: drawn), (List.last drawn d1).
    split; [constructor; assumption|].
    split; [apply valid_last; assumption|].
    split.
    { match goal with
      | |- 1 <= decide_winner ?ps ?ds <= 3 =>
        destruct (decide_winner_is_a_result ps ds) as [H | [H | H]]; rewrite H
      end; unfold RESULT_WIN, RESULT_LOSS, RESULT_TIE; lia. }
    rewrite !sent_sent. cbn [map app]. reflexivity.
  - rewrite (bind_raises _ _ _ _ _ Hloop) in Hrun. discriminate Hrun.
Qed.

(** One read of the player loop on a stream that starts with the frame of
    a decision. *)
Lemma player_turn_reads (deck player : list Card) (last : Card) (w : world)
      (d : pystr) (rest : list byte) :
  hand_value player <= 21 -> tidy w -> is_decision d = true ->
  wire w = decision_frame d ++ rest ->
  exists w1,
    tidy w1 /\ wire w1 = rest /\ quiet w w1 /\
    player_turn deck player last w
    = (if str_eqb d Hittt then
         match deck with
         | [] => raise IndexError
         | card :: deck' =>
           send_card card RESULT_NOT_OVER ;;;
           player_turn deck' (player ++ [card]) card
         end
       else ret (PlayerBreak deck player last)) w1.
Proof.
  intros Hv Ht Hd Hw.
  destruct (recv_exact_stream CLIENT_PAYLOAD_SIZE w _ rest Ht Hw
                              (length_decision_frame d Hd))
    as (w1 & parts & Hrun & Ht1 & Hw1 & Hstep & _).
  exists w1. split; [exact Ht1|]. split; [exact Hw1|].
  split; [rewrite Hstep; apply quiet_read|].
  rewrite player_turn_unfold.
  replace (hand_value player >? 21) with false
    by (symmetry; rewrite Z.gtb_ltb; apply Z.ltb_ge; lia).
  rewrite (bind_ret _ _ _ _ _ Hrun), (unpack_decision_frame d Hd).
  reflexivity.
Qed.

(** With nothing left on the stream, the player loop at 21 or less does not
    return. *)
Lemma player_turn_no_input (deck player : list Card) (last : Card) (w : world) :
  hand_value player <= 21 -> tidy w -> wire w = [] ->
  exists e, fst (player_turn deck player last w) = Raise e.
Proof.
  intros Hv Ht Hw.
  rewrite player_turn_unfold.
  replace (hand_value player >? 21) with false
    by (symmetry; rewrite Z.gtb_ltb; apply Z.ltb_ge; lia).
  destruct (recv_exact_loop_short CLIENT_PAYLOAD_SIZE CLIENT_PAYLOAD_SIZE [] 0 w Ht)
    as [Hfst _].
  { rewrite Hw. cbn. lia. }
  { lia. }
  fold (recv_exact CLIENT_PAYLOAD_SIZE) in Hfst.
  unfold bind.
  destruct (recv_exact CLIENT_PAYLOAD_SIZE w) as [[[data|]|e] w1];
    cbn [fst] in Hfst |- *.
  - destruct (at_end w); discriminate Hfst.
  - eexists; reflexivity.
  - eexists; reflexivity.
Qed.

(* ================================================================== *)
(** * The client follows the server *)

Lemma typed_frames_next (lines lines' : list pystr) (d : pystr) :
  ask_decision_from lines = Some (d, lines') ->
  is_decision d = true /\
  typed_frames lines = decision_frame d ++ typed_frames lines'.
Proof.
  intros H. pose proof (ask_decision_from_spec lines) as S.
  rewrite H in S. destruct S as [Hd Hall]. split; [exact Hd|].
  unfold typed_frames. rewrite Hall. reflexivity.
Qed.

Lemma typed_frames_none (lines : list pystr) :
  ask_decision_from lines = None -> typed_frames lines = [].
Proof.
  intros H. pose proof (ask_decision_from_spec lines) as S.
  rewrite H in S. unfold typed_frames. rewrite S. reflexivity.
Qed.

Lemma gtb_false (x : Z) : x <= 21 -> (x >? 21) = false.
Proof. intros H. rewrite Z.gtb_ltb. apply Z.ltb_ge. exact H. Qed.

Lemma gtb_cases (x : Z) :
  ((x >? 21) = true /\ 21 < x) \/ ((x >? 21) = false /\ x <= 21).
Proof. rewrite Z.gtb_ltb. destruct (Z.ltb_spec 21 x); [left|right]; split; auto. Qed.

Lemma results_in_app (f1 f2 : list event) :
  results_in (f1 ++ f2) = results_in f1 ++ results_in f2.
Proof. apply flat_map_app. Qed.

Lemma result_of_card_frame (code : Z) (card : Card) :
  valid_card card -> 0 <= code <= 255 ->
  result_of (card_frame code card)
  = if code =? RESULT_NOT_OVER then [] else [code].
Proof.
  intros [Hr Hs] Hc. unfold result_of, card_frame.
  rewrite unpack_pack_server_payload_mod, !Z.mod_small by lia. reflexivity.
Qed.

Lemma results_in_not_over (cards : list Card) :
  Forall valid_card cards ->
  results_in (map (card_frame RESULT_NOT_OVER) cards) = [].
Proof.
  induction 1 as [|c cards Hc _ IH]; [reflexivity|].
  cbn [map results_in flat_map]. fold (results_in (map (card_frame RESULT_NOT_OVER) cards)).
  rewrite IH, result_of_card_frame by (assumption || (unfold RESULT_NOT_OVER; lia)).
  reflexivity.
Qed.

Lemma results_in_card_frames (cards : list Card) (code : Z) (card : Card) :
  Forall valid_card cards -> valid_card card -> 1 <= code <= 255 ->
  results_in (map (card_frame RESULT_NOT_OVER) cards ++ [card_frame code card])
  = [code].
Proof.
  intros Hcards Hcard Hcode.
  rewrite results_in_app, results_in_not_over by exact Hcards.
  cbn [results_in flat_map app].
  rewrite result_of_card_frame by (assumption || lia).
  replace (code =? RESULT_NOT_OVER) with false
    by (symmetry; apply Z.eqb_neq; unfold RESULT_NOT_OVER; lia).
  reflexivity.
Qed.

(** The round is lost on the cards in hand: the server sends the LOSS and
    the client, which asks nothing, reads it. *)
Lemma bust_agreement (d0 d1 : Card) (deck player : list Card) (last : Card)
      (ws ws' : world) (code : Z) (lines : list pystr) :
  21 < hand_value player -> Forall valid_card player ->
  tidy ws -> wire ws = typed_frames lines ->
  round_from d0 d1 deck player last ws = (Ret code, ws') ->
  turn_agrees player lines ws ws' code.
Proof.
  intros Hv Hp Ht Hw Hrun.
  assert (Hgt : (hand_value player >? 21) = true)
    by (rewrite Z.gtb_ltb; apply Z.ltb_lt; exact Hv).
  destruct (hand_value_nonempty player Hv) as (before & card & Hsplit).
  assert (Hcard : valid_card card).
  { rewrite Hsplit in Hp. apply Forall_app in Hp. destruct Hp as [_ H].
    inversion H; assumption. }
  unfold round_from in Hrun.
  assert (Hturn : player_turn deck player last ws
                  = (Ret (PlayerReturn RESULT_LOSS),
                     sent ws [card_frame RESULT_LOSS card])).
  { rewrite player_turn_unfold, Hgt, Hsplit.
    rewrite (bind_ret _ _ _ _ _ (last_of_snoc before card ws)).
    rewrite (bind_ret _ _ _ _ _ (send_card_eq card RESULT_LOSS ws)).
    reflexivity. }
  rewrite (bind_ret _ _ _ _ _ Hturn) in Hrun. injection Hrun as <- <-.
  exists [card_frame RESULT_LOSS card], [], lines.
  split; [exact Ht|]. split; [apply sends_sent|]. split; [reflexivity|].
  split; [exact Hw|]. split; [unfold RESULT_LOSS; lia|].
  split; [apply (results_in_card_frames []); [constructor|exact Hcard|unfold RESULT_LOSS; lia]|].
  intros wc fuel t dealer_cards rest Htc Hwc Hf.
  destruct fuel as [|fuel]; [simpl in Hf; lia|].
  cbn [client_turn]. rewrite Hgt.
  destruct (wait_for_result_stream [] fuel t (mkClient wc lines) RESULT_LOSS card
                                   rest (Forall_nil _) Hcard
                                   ltac:(unfold RESULT_LOSS; lia) Htc Hwc)
    as (w' & Hres & Ht' & Hw' & Hq).
  { cbn in Hf |- *. lia. }
  exists w', []. split; [exact Hres|]. split; [exact Ht'|].
  split; [exact Hw'|]. split; [|reflexivity].
  rewrite app_nil_r. apply Hq.
Qed.

(** The user stands: the server plays the dealer, and the client watches
    it to the result. *)
Lemma stand_agreement (d0 d1 : Card) (deck player : list Card) (last : Card)
      (ws ws' : world) (code : Z) (lines lines1 : list pystr) (d : pystr) :
  hand_value player <= 21 -> valid_card d1 -> Forall valid_card deck ->
  tidy ws -> wire ws = typed_frames lines ->
  ask_decision_from lines = Some (d, lines1) -> str_eqb d Hittt = false ->
  round_from d0 d1 deck player last ws = (Ret code, ws') ->
  turn_agrees player lines ws ws' code.
Proof.
  intros Hv Hd1 Hdeck Ht Hw Hask Hnot Hrun.
  destruct (typed_frames_next _ _ _ Hask) as [Hd Hnext].
  assert (Hstand : str_eqb d Stand = true).
  { unfold is_decision in Hd. rewrite Hnot in Hd. exact Hd. }
  rewrite Hnext in Hw.
  destruct (player_turn_reads deck player last ws d _ Hv Ht Hd Hw)
    as (w1 & Ht1 & Hw1 & Hq1 & Hturn).
  rewrite Hnot in Hturn. unfold round_from in Hrun.
  rewrite (bind_ret _ _ _ _ _ Hturn) in Hrun.
  destruct (dealer_phase_frames _ _ _ _ _ _ _ Hd1 Hdeck Hrun)
    as (cards & card & Hcards & Hcard & Hcode & ->).
  exists (map (card_frame RESULT_NOT_OVER) cards ++ [card_frame code card]),
         (decision_frame d), lines1.
  split; [exact Ht1|].
  split.
  { rewrite sends_sent, sends_app, sends_card_frames, sends_card_frame1.
    destruct Hq1 as [-> _]. reflexivity. }
  split; [rewrite Hw; f_equal; symmetry; exact Hw1|].
  split; [exact Hw1|]. split; [exact Hcode|].
  split; [apply results_in_card_frames; [exact Hcards|exact Hcard|lia]|].
  intros wc fuel t dealer_cards rest Htc Hwc Hf.
  destruct fuel as [|fuel]; [simpl in Hf; lia|].
  cbn [client_turn]. rewrite (gtb_false _ Hv).
  unfold cbind at 1. unfold ask_decision. cbn [stdin conn]. rewrite Hask.
  unfold cbind at 1. rewrite (pack_decision d Hd). unfold of_outcome, cret.
  unfold cbind at 1. unfold on_socket. cbn [stdin conn sendall log].
  rewrite Hstand.
  destruct (watch_dealer_stream
              cards fuel dealer_cards t
              (mkClient (sent wc [Sent (decision_frame d)]) lines1)
              code card rest Hcards Hcard ltac:(lia) Htc Hwc)
    as (w' & Hres & Ht' & Hw' & Hq).
  { rewrite sent_bytes_card_frames, length_app, length_card_frames in Hf.
    change (length (sent_bytes [card_frame code card])) with 9%nat in Hf.
    lia. }
  exists w', [Sent (decision_frame d)].
  split; [exact Hres|]. split; [exact Ht'|]. split; [exact Hw'|].
  split.
  - destruct Hq as [-> _]. cbn [conn]. rewrite sends_sent. reflexivity.
  - cbn [sent_bytes flat_map]. apply app_nil_r.
Qed.

(** The user hits: the server sends a card and goes round its loop, and so
    does the client. *)
Lemma hit_agreement (player : list Card) (card : Card)
      (ws w1 ws' : world) (code : Z) (lines lines1 : list pystr) :
  hand_value player <= 21 -> valid_card card ->
  wire ws = typed_frames lines ->
  ask_decision_from lines = Some (Hittt, lines1) ->
  wire w1 = typed_frames lines1 -> quiet ws w1 ->
  turn_agrees (player ++ [card]) lines1
              (sent w1 [card_frame RESULT_NOT_OVER card]) ws' code ->
  turn_agrees player lines ws ws' code.
Proof.
  intros Hv Hcard Hw Hask Hw1 Hq1
         (new & consumed & lines' & Ht' & Hs & Hcons & Hw' & Hcode & Hres1
          & Hfollow).
  destruct (typed_frames_next _ _ _ Hask) as [Hd Hnext].
  exists (card_frame RESULT_NOT_OVER card :: new),
         (decision_frame Hittt ++ consumed), lines'.
  split; [exact Ht'|].
  split.
  { rewrite Hs, sends_sent, sends_card_frame1, <- app_assoc.
    destruct Hq1 as [-> _]. reflexivity. }
  split.
  { rewrite <- app_assoc, <- Hcons. rewrite Hw, Hnext.
    f_equal. symmetry. exact Hw1. }
  split; [exact Hw'|]. split; [exact Hcode|].
  split.
  { change (card_frame RESULT_NOT_OVER card :: new)
      with (map (card_frame RESULT_NOT_OVER) [card] ++ new).
    rewrite results_in_app, (results_in_not_over [card]), Hres1; [reflexivity|].
    constructor; [exact Hcard|constructor]. }
  intros wc fuel t dealer_cards rest Htc Hwc Hf.
  destruct fuel as [|fuel]; [simpl in Hf; lia|].
  cbn [client_turn]. rewrite (gtb_false _ Hv).
  unfold cbind at 1. unfold ask_decision. cbn [stdin conn]. rewrite Hask.
  unfold cbind at 1. rewrite (pack_decision Hittt Hd). unfold of_outcome, cret.
  unfold cbind at 1. unfold on_socket. cbn [stdin conn sendall log].
  change (str_eqb Hittt Stand) with false. cbv iota.
  cbn [sent_bytes flat_map card_frame] in Hwc, Hf.
  fold (sent_bytes new) in Hwc, Hf.
  rewrite <- app_assoc in Hwc. rewrite length_app in Hf.
  destruct (read_frame RESULT_NOT_OVER card
                       (mkClient (sent wc [Sent (decision_frame Hittt)]) lines1)
                       (sent_bytes new ++ rest)
                       ltac:(unfold RESULT_NOT_OVER; lia) Hcard Htc Hwc)
    as (wc1 & Hread & Htc1 & Hwc1 & Hqc1).
  unfold cbind at 1. 
  change (mkClient (mkWorld (inbox wc) (at_end wc)
                            (trace wc ++ [Sent (decision_frame Hittt)])
                            (rng wc) (dealt wc)) lines1)
    with (mkClient (sent wc [Sent (decision_frame Hittt)]) lines1).
  rewrite Hread. cbn [stdin].
  unfold cbind at 1. rewrite (print_card card _ Hcard).
  change (RESULT_NOT_OVER =? RESULT_NOT_OVER) with true. cbn [negb].
  replace (fst card, snd card) with card by (destruct card; reflexivity).
  destruct (Hfollow wc1 fuel t dealer_cards rest Htc1 Hwc1) as
      (wc' & out & Hres & Htc' & Hwc' & Hsc & Hout).
  { rewrite length_pack_server_payload in Hf. unfold SERVER_PAYLOAD_SIZE in Hf.
    lia. }
  exists wc', (Sent (decision_frame Hittt) :: out).
  split; [exact Hres|]. split; [exact Htc'|]. split; [exact Hwc'|].
  split.
  - rewrite Hsc. destruct Hqc1 as [-> _]. cbn [conn].
    rewrite sends_sent, <- app_assoc. reflexivity.
  - cbn [sent_bytes flat_map]. fold (sent_bytes out). rewrite Hout.
    reflexivity.
Qed.

(** From any state of the player turn on: when the server, reading the
    decisions the user types, ends the round with a result, the client that
    reads the server's frames ends it with the same result. *)
Lemma turn_agreement (d0 d1 : Card) (n : nat) :
  forall (deck player : list Card) (last : Card) (ws ws' : world) (code : Z)
         (lines : list pystr),
    (length deck < n)%nat ->
    valid_card d1 -> Forall valid_card deck -> Forall valid_card player ->
    tidy ws -> wire ws = typed_frames lines ->
    round_from d0 d1 deck player last ws = (Ret code, ws') ->
    turn_agrees player lines ws ws' code.
Proof.
  induction n as [|n IH];
    intros deck player last ws ws' code lines Hn Hd1 Hdeck Hp Ht Hw Hrun;
    [lia|].
  destruct (gtb_cases (hand_value player)) as [[_ Hv] | [_ Hv]].
  { exact (bust_agreement d0 d1 deck player last ws ws' code lines
                          Hv Hp Ht Hw Hrun). }
  destruct (ask_decision_from lines) as [[d lines1]|] eqn:Hask.
  2: { rewrite (typed_frames_none _ Hask) in Hw.
       destruct (player_turn_no_input deck player last ws Hv Ht Hw) as [e He].
       unfold round_from in Hrun.
       destruct (player_turn deck player last ws) as [out w1] eqn:Hturn.
       cbn [fst] in He. subst out.
       rewrite (bind_raises _ _ _ _ _ Hturn) in Hrun. discriminate Hrun. }
  destruct (str_eqb d Hittt) eqn:Hhit.
  2: { exact (stand_agreement d0 d1 deck player last ws ws' code lines lines1 d
                              Hv Hd1 Hdeck Ht Hw Hask Hhit Hrun). }
  apply str_eqb_eq in Hhit. subst d.
  destruct (typed_frames_next _ _ _ Hask) as [Hd Hnext].
  pose proof Hw as Hw0. rewrite Hnext in Hw0.
  destruct (player_turn_reads deck player last ws Hittt _ Hv Ht Hd Hw0)
    as (w1 & Ht1 & Hw1 & Hq1 & Hturn).
  change (str_eqb Hittt Hittt) with true in Hturn. cbv iota in Hturn.
  unfold round_from in Hrun.
  destruct deck as [|card deck'].
  { rewrite (bind_raises _ _ _ _ _ Hturn) in Hrun. discriminate Hrun. }
  inversion Hdeck as [|? ? Hcard Hdeck']; subst.
  rewrite (bind_ret _ _ _ _ _ (send_card_eq card RESULT_NOT_OVER w1)) in Hturn.
  assert (Hrun' : round_from d0 d1 deck' (player ++ [card]) card
                             (sent w1 [card_frame RESULT_NOT_OVER card])
                  = (Ret code, ws')).
  { unfold round_from, bind at 1. unfold bind at 1 in Hrun.
    rewrite <- Hturn. exact Hrun. }
  apply (hit_agreement player card ws w1 ws' code lines lines1
                       Hv Hcard Hw Hask Hw1 Hq1).
  apply (IH deck' (player ++ [card]) card _ ws' code lines1).
  - simpl in Hn. lia.
  - exact Hd1.
  - exact Hdeck'.
  - apply Forall_app. split; [exact Hp|]. constructor; [exact Hcard|constructor].
  - exact Ht1.
  - exact Hw1.
  - exact Hrun'.
Qed.

(* ================================================================== *)
(** * A whole round, seen from both sides *)

Lemma sent_since_frames (w w' : world) (new : list event) :
  sends (trace w') = sends (trace w) ++ new -> sent_since w w' = sent_bytes new.
Proof.
  intros H. unfold sent_since. rewrite H, skipn_app, skipn_all, Nat.sub_diag.
  reflexivity.
Qed.

Lemma read_since_bytes (w w' : world) (consumed : list byte) :
  wire w = consumed ++ wire w' -> read_since w w' = consumed.
Proof.
  intros H. unfold read_since. rewrite H at 1. rewrite length_app.
  replace (length consumed + length (wire w') - length (wire w'))%nat
    with (length consumed) by lia.
  rewrite H, firstn_app, firstn_all, Nat.sub_diag. cbn [firstn].
  apply app_nil_r.
Qed.

(** The three reads of the initial deal. *)
Lemma client_deal_stream (p0 p1 d0 : Card) (s : client) (rest : list byte) :
  valid_card p0 -> valid_card p1 -> valid_card d0 ->
  tidy (conn s) -> wire (conn s) = sent_bytes (deal_events p0 p1 d0) ++ rest ->
  exists w',
    client_deal 3 [] [] s = (Done ([p0; p1], [d0]), mkClient w' (stdin s)) /\
    tidy w' /\ wire w' = rest /\ quiet (conn s) w'.
Proof.
  intros H0 H1 H2 Ht Hw.
  assert (Hz : 0 <= RESULT_NOT_OVER <= 255) by (unfold RESULT_NOT_OVER; lia).
  unfold deal_events in Hw. cbn [sent_bytes flat_map card_frame] in Hw.
  rewrite app_nil_r, <- !app_assoc in Hw.
  destruct (read_frame _ p0 s _ Hz H0 Ht Hw) as (w1 & R1 & Ht1 & Hw1 & Q1).
  destruct (read_frame _ p1 (mkClient w1 (stdin s)) _ Hz H1 Ht1 Hw1)
    as (w2 & R2 & Ht2 & Hw2 & Q2).
  destruct (read_frame _ d0 (mkClient w2 (stdin s)) _ Hz H2 Ht2 Hw2)
    as (w3 & R3 & Ht3 & Hw3 & Q3).
  cbn [stdin conn] in R2, R3, Q2, Q3.
  exists w3. split.
  - cbn [client_deal]. unfold cbind at 1. rewrite R1.
    cbn [length Nat.ltb Nat.leb app].
    unfold cbind at 1. rewrite (print_card p0 _ H0).
    change (RESULT_NOT_OVER =? RESULT_NOT_OVER) with true. cbn [negb].
    unfold cbind at 1. rewrite R2.
    cbn [length Nat.ltb Nat.leb app].
    unfold cbind at 1. rewrite (print_card p1 _ H1).
    change (RESULT_NOT_OVER =? RESULT_NOT_OVER) with true. cbn [negb].
    unfold cbind at 1. rewrite R3.
    cbn [length Nat.ltb Nat.leb app].
    unfold cbind at 1. rewrite (print_card d0 _ H2).
    change (RESULT_NOT_OVER =? RESULT_NOT_OVER) with true. cbn [negb].
    unfold cret.
    destruct p0, p1, d0. reflexivity.
  - split; [exact Ht3|]. split; [exact Hw3|].
    exact (quiet_trans _ _ _ Q1 (quiet_trans _ _ _ Q2 Q3)).
Qed.

(** A round that the server completes, reading the decisions the user
    types, and the client that reads what the server sends. *)
Lemma round_agreement (deck : list Card) (ws ws' : world) (code : Z)
      (lines : list pystr) :
  Forall valid_card deck -> tidy ws -> wire ws = typed_frames lines ->
  play_round_with deck ws = (Ret code, ws') ->
  exists new consumed lines',
    tidy ws' /\ sends (trace ws') = sends (trace ws) ++ new /\
    wire ws = consumed ++ wire ws' /\ wire ws' = typed_frames lines' /\
    1 <= code <= 3 /\ results_in new = [code] /\
    forall (wc : world) (fuel : nat) (t : tally) (rest : list byte),
      tidy wc -> wire wc = sent_bytes new ++ rest ->
      (length (sent_bytes new) < fuel)%nat ->
      exists wc' out,
        client_round fuel t (mkClient wc lines)
        = (Done (count code t), mkClient wc' lines') /\
        tidy wc' /\ wire wc' = rest /\
        sends (trace wc') = sends (trace wc) ++ out /\ sent_bytes out = consumed.
Proof.
  intros Hdeck Ht Hw Hrun.
  destruct deck as [|p0 [|p1 [|d0 [|d1 deck]]]]; try discriminate Hrun.
  rewrite play_round_from in Hrun.
  inversion Hdeck as [|? ? Hp0 Hdeck1]; subst.
  inversion Hdeck1 as [|? ? Hp1 Hdeck2]; subst.
  inversion Hdeck2 as [|? ? Hd0 Hdeck3]; subst.
  inversion Hdeck3 as [|? ? Hd1 Hdeck4]; subst.
  destruct (turn_agreement d0 d1 (S (length deck)) deck [p0; p1] d0
                           (sent ws (deal_events p0 p1 d0)) ws' code lines
                           ltac:(lia) Hd1 Hdeck4
                           (Forall_cons _ Hp0 (Forall_cons _ Hp1 (Forall_nil _)))
                           Ht Hw Hrun)
    as (new & consumed & lines' & Ht' & Hs & Hcons & Hw' & Hcode & Hres1
        & Hfollow).
  exists (deal_events p0 p1 d0 ++ new), consumed, lines'.
  split; [exact Ht'|].
  split; [rewrite Hs, sends_sent, <- app_assoc; reflexivity|].
  split; [exact Hcons|]. split; [exact Hw'|]. split; [exact Hcode|].
  split.
  { rewrite results_in_app, Hres1.
    change (deal_events p0 p1 d0)
      with (map (card_frame RESULT_NOT_OVER) [p0; p1; d0]).
    rewrite (results_in_not_over [p0; p1; d0]); [reflexivity|].
    repeat (constructor; [assumption|]). constructor. }
  intros wc fuel t rest Htc Hwc Hf.
  rewrite sent_bytes_app, <- app_assoc in Hwc.
  rewrite sent_bytes_app, length_app in Hf.
  destruct (client_deal_stream p0 p1 d0 (mkClient wc lines) _ Hp0 Hp1 Hd0 Htc Hwc)
    as (w1 & Hdeal & Ht1 & Hw1 & Hq1).
  destruct (Hfollow w1 fuel t [d0] rest Ht1 Hw1 ltac:(lia))
    as (wc' & out & Hres & Htc' & Hwc' & Hsc & Hout).
  exists wc', out. split.
  - unfold client_round, cbind. rewrite Hdeal. exact Hres.
  - split; [exact Htc'|]. split; [exact Hwc'|]. split; [|exact Hout].
    rewrite Hsc. destruct Hq1 as [-> _]. reflexivity.
Qed.

(** X14. Client and server agree on a round.  Take a round that
    [play_one_round] completes with a result on a deck of cards with ranks
    1..13 and suits 0..3, the server reading the frames of the decisions the
    user types at the client.  Then the loop body of [play_session], reading
    what the server sent in that round, ends the round counting that very
    result; it has read the server's frames to the last byte and no further,
    and it has sent exactly the bytes the server read. *)
Theorem client_and_server_agree_on_a_round :
  forall (deck : list Card) (ws ws' wc : world) (lines : list pystr) (code : Z)
         (rest : list byte) (fuel : nat) (t : tally),
    Forall valid_card deck ->
    tidy ws -> tidy wc -> wire ws = typed_frames lines ->
    play_round_with deck ws = (Ret code, ws') ->
    wire wc = sent_since ws ws' ++ rest ->
    (length (sent_since ws ws') < fuel)%nat ->
    exists wc' lines',
      client_round fuel t (mkClient wc lines)
      = (Done (count code t), mkClient wc' lines') /\
      wire wc' = rest /\
      sent_since wc wc' = read_since ws ws' /\
      wire ws' = typed_frames lines'.
Proof.
  intros deck ws ws' wc lines code rest fuel t Hdeck Ht Htc Hw Hrun Hwc Hf.
  destruct (round_agreement deck ws ws' code lines Hdeck Ht Hw Hrun)
    as (new & consumed & lines' & _ & Hs & Hcons & Hw' & _ & _ & Hfollow).
  rewrite (sent_since_frames _ _ _ Hs) in Hwc, Hf.
  destruct (Hfollow wc fuel t rest Htc Hwc Hf)
    as (wc' & out & Hres & _ & Hwc' & Hsc & Hout).
  exists wc', lines'. split; [exact Hres|]. split; [exact Hwc'|].
  split; [|exact Hw'].
  rewrite (sent_since_frames _ _ _ Hsc), (read_since_bytes _ _ _ Hcons).
  exact Hout.
Qed.

(** The player holds 10 and 9 against two sixes; the user types a line that
    is no decision and then Stand; the dealer draws a 5 and stands on 17:
    both sides count a win of the player. *)
Lemma client_and_server_agree_on_a_round_witness :
  exists wc' lines',
    client_round 100 (mkTally 0 0 0)
                 (mkClient (client_of (server_of types_stand deck_17)
                                      (snd (play_round_with
                                              deck_17
                                              (server_of types_stand deck_17))))
                           types_stand)
    = (Done (count RESULT_WIN (mkTally 0 0 0)), mkClient wc' lines') /\
    wire wc' = [] /\
    sent_since (client_of (server_of types_stand deck_17)
                          (snd (play_round_with deck_17
                                                (server_of types_stand deck_17))))
               wc'
    = read_since (server_of types_stand deck_17)
                 (snd (play_round_with deck_17 (server_of types_stand deck_17))) /\
    wire (snd (play_round_with deck_17 (server_of types_stand deck_17)))
    = typed_frames lines'.
Proof.
  apply (client_and_server_agree_on_a_round deck_17).
  - exact (proj1 (shuffle_valid
                    deck_17
                    (proj1 (proj2 (proj2 (proj2 scenario_decks_are_shuffles)))))).
  - repeat constructor. vm_compute. discriminate.
  - repeat constructor. vm_compute. discriminate.
  - vm_compute. reflexivity.
  - vm_compute. reflexivity.
  - vm_compute. reflexivity.
  - vm_compute. lia.
Defined.

(* ================================================================== *)
(** * A whole session, seen from both sides *)

Lemma tally_of_app (r1 r2 : list Z) (t : tally) :
  tally_of (r1 ++ r2) t = tally_of r2 (tally_of r1 t).
Proof. apply fold_left_app. Qed.

Lemma frames_since_frames (w w' : world) (new : list event) :
  sends (trace w') = sends (trace w) ++ new -> frames_since w w' = new.
Proof.
  intros H. unfold frames_since. rewrite H, skipn_app, skipn_all, Nat.sub_diag.
  reflexivity.
Qed.

(** The rounds of a session that the server completes, and the client that
    reads what the server sends. *)
Lemma rounds_agreement (n : nat) :
  forall (ws ws' : world) (lines : list pystr),
    (forall k, Forall valid_card (rng ws k)) ->
    tidy ws -> wire ws = typed_frames lines ->
    play_rounds n ws = (Ret tt, ws') ->
    exists new consumed lines',
      tidy ws' /\ sends (trace ws') = sends (trace ws) ++ new /\
      wire ws = consumed ++ wire ws' /\ wire ws' = typed_frames lines' /\
      length (results_in new) = n /\
      forall (wc : world) (fuel : nat) (t : tally) (rest : list byte),
        tidy wc -> wire wc = sent_bytes new ++ rest ->
        (length (sent_bytes new) < fuel)%nat ->
        exists wc' out,
          client_rounds fuel n t (mkClient wc lines)
          = (Done (tally_of (results_in new) t), mkClient wc' lines') /\
          tidy wc' /\ wire wc' = rest /\
          sends (trace wc') = sends (trace wc) ++ out /\
          sent_bytes out = consumed.
Proof.
  induction n as [|n IH]; intros ws ws' lines Hrng Ht Hw Hrun.
  - cbn [play_rounds] in Hrun. injection Hrun as <-.
    exists [], [], lines. split; [exact Ht|].
    split; [symmetry; apply app_nil_r|]. split; [reflexivity|].
    split; [exact Hw|]. split; [reflexivity|].
    intros wc fuel t rest Htc Hwc _. exists wc, [].
    split; [reflexivity|]. split; [exact Htc|]. split; [exact Hwc|].
    split; [symmetry; apply app_nil_r|reflexivity].
  - cbn [play_rounds] in Hrun.
    destruct (play_one_round ws) as [[code|e] w1] eqn:Hone.
    2: { rewrite (bind_raises _ _ _ _ _ Hone) in Hrun. discriminate Hrun. }
    rewrite (bind_ret _ _ _ _ _ Hone) in Hrun.
    pose proof (play_one_round_deals ws) as [Hrng1 _].
    rewrite Hone in Hrng1. cbn [snd] in Hrng1.
    unfold play_one_round, bind, create_deck in Hone.
    destruct (round_agreement
                (rng ws (dealt ws))
                (mkWorld (inbox ws) (at_end ws) (trace ws) (rng ws) (S (dealt ws)))
                w1 code lines (Hrng _) Ht Hw Hone)
      as (new1 & consumed1 & lines1 & Ht1 & Hs1 & Hcons1 & Hw1 & _ & Hres1
          & Hfollow1).
    cbn [trace] in Hs1. change (wire (mkWorld (inbox ws) (at_end ws) (trace ws)
                                              (rng ws) (S (dealt ws))))
                          with (wire ws) in Hcons1.
    destruct (IH w1 ws' lines1) as
        (new2 & consumed2 & lines' & Ht' & Hs2 & Hcons2 & Hw' & Hlen2 & Hfollow2).
    { intros k. rewrite Hrng1. apply Hrng. }
    { exact Ht1. }
    { exact Hw1. }
    { exact Hrun. }
    exists (new1 ++ new2), (consumed1 ++ consumed2), lines'.
    split; [exact Ht'|].
    split; [rewrite Hs2, Hs1; symmetry; apply app_assoc|].
    split; [rewrite Hcons1, Hcons2 at 1; apply app_assoc|].
    split; [exact Hw'|].
    split; [rewrite results_in_app, length_app, Hres1, Hlen2; reflexivity|].
    intros wc fuel t rest Htc Hwc Hf.
    rewrite sent_bytes_app, <- app_assoc in Hwc.
    rewrite sent_bytes_app, length_app in Hf.
    destruct (Hfollow1 wc fuel t _ Htc Hwc ltac:(lia))
      as (wc1 & out1 & Hrun1 & Htc1 & Hwc1 & Hsc1 & Hout1).
    destruct (Hfollow2 wc1 fuel (count code t) rest Htc1 Hwc1 ltac:(lia))
      as (wc' & out2 & Hrun2 & Htc' & Hwc' & Hsc2 & Hout2).
    exists wc', (out1 ++ out2).
    split.
    { cbn [client_rounds]. unfold cbind. rewrite Hrun1, Hrun2.
      rewrite results_in_app, Hres1, tally_of_app. reflexivity. }
    split; [exact Htc'|]. split; [exact Hwc'|].
    split; [rewrite Hsc2, Hsc1; symmetry; apply app_assoc|].
    rewrite sent_bytes_app, Hout1, Hout2. reflexivity.
Qed.

Lemma length_pack_request (rounds : Z) (name : pystr) :
  length (pack_request rounds name) = REQUEST_SIZE.
Proof.
  unfold pack_request. rewrite length_app, length_pack_name. reflexivity.
Qed.

(** X15. Client and server agree on a session.  The client asks for 1 to
    255 rounds; the server reads the Request and then the decisions the user
    types, every deck has ranks 1..13 and suits 0..3, and [handle_client]
    finishes the session.  Then the client, reading what the server sent,
    finishes [play_session] too: its tally counts the results the server
    announced, one per round and in their order; it has read the server's
    frames to the last byte, and it has sent exactly the bytes the server
    read. *)
Theorem client_and_server_agree_on_a_session :
  forall (rounds : Z) (ws ws' wc : world) (lines : list pystr)
         (rest : list byte) (fuel : nat),
    1 <= rounds <= 255 ->
    (forall k, Forall valid_card (rng ws k)) ->
    tidy ws -> tidy wc ->
    wire ws = pack_request rounds CLIENT_NAME ++ typed_frames lines ->
    handle_client ws = (Ret Finished, ws') ->
    wire wc = sent_since ws ws' ++ rest ->
    (length (sent_since ws ws') < fuel)%nat ->
    exists wc' lines',
      request_and_play fuel rounds (mkClient wc lines)
      = (Done (tally_of (results_in (frames_since ws ws')) (mkTally 0 0 0)),
         mkClient wc' lines') /\
      length (results_in (frames_since ws ws')) = Z.to_nat rounds /\
      wire wc' = rest /\
      sent_since wc wc' = read_since ws ws'.
Proof.
  intros rounds ws ws' wc lines rest fuel Hr Hrng Ht Htc Hw Hrun Hwc Hf.
  destruct (recv_exact_stream REQUEST_SIZE ws _ _ Ht Hw
                              (length_pack_request rounds CLIENT_NAME))
    as (w1 & parts & Hrecv & Ht1 & Hw1 & Hstep & _).
  assert (Hq1 : quiet ws w1) by (rewrite Hstep; apply quiet_read).
  pose proof (unpack_pack_request_mod rounds CLIENT_NAME) as Hreq.
  rewrite Z.mod_small in Hreq by lia.
  pose proof (session_runs_rounds ws w1 _ _ _ Hrecv Hreq) as Hsession.
  replace (rounds_to_play rounds) with (Z.to_nat rounds) in Hsession
    by (unfold rounds_to_play;
        replace (rounds =? 0) with false by (symmetry; apply Z.eqb_neq; lia);
        reflexivity).
  unfold handle_client in Hrun. rewrite Hsession in Hrun.
  unfold bind in Hrun.
  destruct (play_rounds (Z.to_nat rounds) w1) as [[[]|e] w2] eqn:Hplay.
  2: { destruct e; discriminate Hrun. }
  cbn in Hrun. injection Hrun as <-.
  destruct (rounds_agreement (Z.to_nat rounds) w1 w2 lines) as
      (new & consumed & lines' & _ & Hs & Hcons & _ & Hlen & Hfollow).
  { intros k. destruct Hq1 as (_ & _ & -> & _). apply Hrng. }
  { exact Ht1. }
  { exact Hw1. }
  { exact Hplay. }
  assert (Hs0 : sends (trace w2) = sends (trace ws) ++ new).
  { rewrite Hs. destruct Hq1 as [-> _]. reflexivity. }
  assert (Hcons0 : wire ws = (pack_request rounds CLIENT_NAME ++ consumed)
                             ++ wire w2).
  { rewrite Hw, <- app_assoc, <- Hcons, Hw1. reflexivity. }
  rewrite (sent_since_frames _ _ _ Hs0) in Hwc, Hf.
  rewrite (frames_since_frames _ _ _ Hs0), (read_since_bytes _ _ _ Hcons0).
  destruct (Hfollow (sent wc [Sent (pack_request rounds CLIENT_NAME)]) fuel
                    (mkTally 0 0 0) rest Htc Hwc Hf)
    as (wc' & out & Hres & _ & Hwc' & Hsc & Hout).
  exists wc', lines'. split; [exact Hres|]. split; [exact Hlen|].
  split; [exact Hwc'|].
  assert (Hsc0 : sends (trace wc')
                 = sends (trace wc)
                   ++ (Sent (pack_request rounds CLIENT_NAME) :: out)).
  { rewrite Hsc, sends_sent, <- app_assoc. reflexivity. }
  rewrite (sent_since_frames _ _ _ Hsc0).
  cbn [sent_bytes flat_map]. fold (sent_bytes out). rewrite Hout. reflexivity.
Qed.

(** A session of two rounds on the deck of scenario A, the user standing in
    both: the client counts two wins. *)
Lemma client_and_server_agree_on_a_session_witness :
  exists wc' lines',
    request_and_play
      200 2
      (mkClient (client_of (session_server 2 types_two_stands deck_A)
                           (snd (handle_client
                                   (session_server 2 types_two_stands deck_A))))
                types_two_stands)
    = (Done (tally_of
               (results_in
                  (frames_since
                     (session_server 2 types_two_stands deck_A)
                     (snd (handle_client
                             (session_server 2 types_two_stands deck_A)))))
               (mkTally 0 0 0)),
       mkClient wc' lines') /\
    length (results_in
              (frames_since
                 (session_server 2 types_two_stands deck_A)
                 (snd (handle_client (session_server 2 types_two_stands deck_A)))))
    = Z.to_nat 2 /\
    wire wc' = [] /\
    sent_since (client_of (session_server 2 types_two_stands deck_A)
                          (snd (handle_client
                                  (session_server 2 types_two_stands deck_A))))
               wc'
    = read_since (session_server 2 types_two_stands deck_A)
                 (snd (handle_client (session_server 2 types_two_stands deck_A))).
Proof.
  apply (client_and_server_agree_on_a_session 2).
  - lia.
  - intros k. exact (proj1 (shuffle_valid deck_A (proj1 scenario_decks_are_shuffles))).
  - repeat constructor. vm_compute. discriminate.
  - repeat constructor. vm_compute. discriminate.
  - vm_compute. reflexivity.
  - vm_compute. reflexivity.
  - vm_compute. reflexivity.
  - vm_compute. lia.
Defined.

(* ================================================================== *)
(** * The client, whatever the server sends *)

Lemma sent_as_typed_refl (s : client) : sent_as_typed s s [].
Proof. split; [symmetry; apply app_nil_r|reflexivity]. Qed.

Lemma sent_as_typed_trans (s1 s2 s3 : client) (ds1 ds2 : list pystr) :
  sent_as_typed s1 s2 ds1 -> sent_as_typed s2 s3 ds2 ->
  sent_as_typed s1 s3 (ds1 ++ ds2).
Proof.
  intros [Hs1 Hl1] [Hs2 Hl2]. split.
  - rewrite Hs2, Hs1, map_app, app_assoc. reflexivity.
  - rewrite Hl1, Hl2, app_assoc. reflexivity.
Qed.

Lemma typed_only_cret {A} (a : A) : typed_only (cret a).
Proof. intros s. exists []. apply sent_as_typed_refl. Qed.

Lemma typed_only_cfail {A} (e : exn) : typed_only (@cfail A e).
Proof. intros s. exists []. apply sent_as_typed_refl. Qed.

Lemma typed_only_out_of_fuel {A} :
  typed_only (fun s : client => (@OutOfFuel A, s)).
Proof. intros s. exists []. apply sent_as_typed_refl. Qed.

Lemma typed_only_cbind {A B} (c : C A) (k : A -> C B) :
  typed_only c -> (forall a, typed_only (k a)) -> typed_only (cbind c k).
Proof.
  intros Hc Hk s. destruct (Hc s) as [ds1 H1]. unfold cbind.
  destruct (c s) as [[a|e| |] s1]; cbn [snd] in H1;
    try (exists ds1; exact H1).
  destruct (Hk a s1) as [ds2 H2].
  exists (ds1 ++ ds2). exact (sent_as_typed_trans _ _ _ _ _ H1 H2).
Qed.

Lemma typed_only_print (text : outcome pystr) : typed_only (print text).
Proof.
  intros s. exists []. unfold print, cbind, of_outcome.
  destruct text; apply sent_as_typed_refl.
Qed.

(** Reading a frame sends nothing and leaves the lines alone, whether it
    succeeds or fails. *)
Lemma typed_only_read : typed_only _read_one_server_payload.
Proof.
  intros s. exists []. unfold _read_one_server_payload, on_socket, bind.
  destruct (recv_exact_quiet SERVER_PAYLOAD_SIZE (conn s)) as [[Hq _] _].
  destruct (recv_exact SERVER_PAYLOAD_SIZE (conn s)) as [[[data|]|e] w1];
    cbn [snd] in Hq;
    [destruct (unpack_server_payload data)| |];
    (split; [cbn; rewrite Hq; symmetry; apply app_nil_r|reflexivity]).
Qed.

(** Asking for a decision and sending it: one line of decision is used up
    and its frame is sent. *)
Lemma typed_only_decide {A} (k : pystr -> C A) :
  (forall d, typed_only (k d)) ->
  typed_only (decision <~ ask_decision ;;
              frame <~ of_outcome (pack_client_payload decision) ;;
              on_socket (sendall frame) ;;~
              k decision).
Proof.
  intros Hk s. unfold cbind at 1. unfold ask_decision.
  pose proof (ask_decision_from_spec (stdin s)) as Hspec.
  destruct (ask_decision_from (stdin s)) as [[d lines']|].
  - destruct Hspec as [Hd Hall].
    unfold cbind at 1. rewrite (pack_decision d Hd). unfold of_outcome, cret.
    unfold cbind at 1. unfold on_socket. cbn [conn stdin sendall log].
    destruct (Hk d (mkClient (mkWorld (inbox (conn s)) (at_end (conn s))
                                      (trace (conn s) ++ [Sent (decision_frame d)])
                                      (rng (conn s)) (dealt (conn s)))
                             lines')) as [ds [Hs Hl]].
    exists (d :: ds). split.
    + rewrite Hs. cbn [conn trace map].
      rewrite sends_app, <- app_assoc. reflexivity.
    + rewrite Hall. cbn [stdin] in Hl. rewrite Hl. reflexivity.
  - exists []. split; [cbn; symmetry; apply app_nil_r|].
    cbn. exact Hspec.
Qed.

Lemma typed_only_wait (fuel : nat) (t : tally) :
  typed_only (wait_for_result fuel t).
Proof.
  induction fuel as [|fuel IH]; cbn [wait_for_result];
    [apply typed_only_out_of_fuel|].
  apply typed_only_cbind; [apply typed_only_read|].
  intros [[result r2] s2]. destruct (negb _); [apply typed_only_cret|exact IH].
Qed.

Lemma typed_only_watch (fuel : nat) :
  forall (dealer_cards : list Card) (t : tally),
    typed_only (watch_dealer fuel dealer_cards t).
Proof.
  induction fuel as [|fuel IH]; intros dealer_cards t; cbn [watch_dealer];
    [apply typed_only_out_of_fuel|].
  apply typed_only_cbind; [apply typed_only_read|].
  intros [[result rank] suit].
  apply typed_only_cbind; [apply typed_only_print|]. intros _.
  destruct (negb _); [apply typed_only_cret|apply IH].
Qed.

Lemma typed_only_deal (n : nat) :
  forall (player_cards dealer_cards : list Card),
    typed_only (client_deal n player_cards dealer_cards).
Proof.
  induction n as [|n IH]; intros player_cards dealer_cards; cbn [client_deal];
    [apply typed_only_cret|].
  apply typed_only_cbind; [apply typed_only_read|].
  intros [[result rank] suit].
  destruct (length player_cards <? 2)%nat;
    (apply typed_only_cbind; [apply typed_only_print|]; intros _;
     destruct (negb _); [apply typed_only_cfail|apply IH]).
Qed.

Lemma typed_only_turn (fuel : nat) :
  forall (player_cards dealer_cards : list Card) (t : tally),
    typed_only (client_turn fuel player_cards dealer_cards t).
Proof.
  induction fuel as [|fuel IH]; intros player_cards dealer_cards t;
    cbn [client_turn]; [apply typed_only_out_of_fuel|].
  destruct (hand_value player_cards >? 21); [apply typed_only_wait|].
  apply typed_only_decide. intros d.
  destruct (str_eqb d Stand); [apply typed_only_watch|].
  apply typed_only_cbind; [apply typed_only_read|].
  intros [[result rank] suit].
  apply typed_only_cbind; [apply typed_only_print|]. intros _.
  destruct (negb _); [apply typed_only_cret|apply IH].
Qed.

Lemma typed_only_round (fuel : nat) (t : tally) : typed_only (client_round fuel t).
Proof.
  unfold client_round. apply typed_only_cbind; [apply typed_only_deal|].
  intros [player_cards dealer_cards]. apply typed_only_turn.
Qed.

Lemma typed_only_rounds (fuel rounds : nat) :
  forall t, typed_only (client_rounds fuel rounds t).
Proof.
  induction rounds as [|rounds IH]; intros t; cbn [client_rounds];
    [apply typed_only_cret|].
  apply typed_only_cbind; [apply typed_only_round|exact IH].
Qed.

Lemma counts_one_cret (code : Z) (t : tally) : counts_one t (cret (count code t)).
Proof.
  intros s t' H. injection H as <-. unfold total. apply count_total.
Qed.

Lemma counts_one_cbind {A} (c : C A) (k : A -> C tally) (t : tally) :
  (forall a, counts_one t (k a)) -> counts_one t (cbind c k).
Proof.
  intros Hk s t' H. unfold cbind in H.
  destruct (c s) as [[a|e| |] s1]; try discriminate H.
  exact (Hk a s1 t' H).
Qed.

Lemma counts_one_out_of_fuel (t : tally) :
  counts_one t (fun s : client => (OutOfFuel, s)).
Proof. intros s t' H. discriminate H. Qed.

Lemma counts_one_wait (fuel : nat) (t : tally) :
  counts_one t (wait_for_result fuel t).
Proof.
  induction fuel as [|fuel IH]; cbn [wait_for_result];
    [apply counts_one_out_of_fuel|].
  apply counts_one_cbind. intros [[result r2] s2].
  destruct (negb _); [apply counts_one_cret|exact IH].
Qed.

Lemma counts_one_watch (fuel : nat) :
  forall (dealer_cards : list Card) (t : tally),
    counts_one t (watch_dealer fuel dealer_cards t).
Proof.
  induction fuel as [|fuel IH]; intros dealer_cards t; cbn [watch_dealer];
    [apply counts_one_out_of_fuel|].
  apply counts_one_cbind. intros [[result rank] suit].
  apply counts_one_cbind. intros _.
  destruct (negb _); [apply counts_one_cret|apply IH].
Qed.

Lemma counts_one_turn (fuel : nat) :
  forall (player_cards dealer_cards : list Card) (t : tally),
    counts_one t (client_turn fuel player_cards dealer_cards t).
Proof.
  induction fuel as [|fuel IH]; intros player_cards dealer_cards t;
    cbn [client_turn]; [apply counts_one_out_of_fuel|].
  destruct (hand_value player_cards >? 21); [apply counts_one_wait|].
  apply counts_one_cbind. intros d.
  apply counts_one_cbind. intros frame.
  apply counts_one_cbind. intros _.
  destruct (str_eqb d Stand); [apply counts_one_watch|].
  apply counts_one_cbind. intros [[result rank] suit].
  apply counts_one_cbind. intros _.
  destruct (negb _); [apply counts_one_cret|apply IH].
Qed.

Lemma counts_one_round (fuel : nat) (t : tally) :
  counts_one t (client_round fuel t).
Proof.
  unfold client_round. apply counts_one_cbind.
  intros [player_cards dealer_cards]. apply counts_one_turn.
Qed.

Lemma client_rounds_total (fuel rounds : nat) :
  forall (t t' : tally) (s : client),
    fst (client_rounds fuel rounds t s) = Done t' ->
    total t' = total t + Z.of_nat rounds.
Proof.
  induction rounds as [|rounds IH]; intros t t' s H; cbn [client_rounds] in H.
  - injection H as <-. cbn. lia.
  - unfold cbind in H.
    destruct (client_round fuel t s) as [[t1|e| |] s1] eqn:Hround;
      try discriminate H.
    pose proof (counts_one_round fuel t s t1) as H1.
    rewrite Hround in H1. specialize (H1 eq_refl).
    rewrite (IH t1 t' s1 H), H1, Nat2Z.inj_succ. lia.
Qed.

Lemma all_decisions_valid (lines : list pystr) :
  Forall (fun d => d = Hittt \/ d = Stand) (all_decisions lines).
Proof.
  unfold all_decisions. apply Forall_forall. intros d Hin.
  apply filter_In in Hin. apply is_decision_spec, Hin.
Qed.

(** X16. Whatever the server sends, and however the session ends,
    [play_session] sends nothing but decision frames: one frame for each
    decision that [ask_decision] has taken off the standard input, in the
    order typed, each of them Hittt or Stand.  And a session that completes
    has counted exactly [rounds] results (none when [rounds] is negative). *)
Theorem client_sends_only_what_is_typed :
  forall (fuel : nat) (rounds : Z) (s : client),
    (exists ds,
        sent_as_typed s (snd (play_session fuel rounds s)) ds /\
        Forall (fun d => d = Hittt \/ d = Stand) ds) /\
    (forall t, fst (play_session fuel rounds s) = Done t ->
               total t = Z.max 0 rounds).
Proof.
  intros fuel rounds s. unfold play_session. split.
  - destruct (typed_only_rounds fuel (Z.to_nat rounds) (mkTally 0 0 0) s)
      as [ds Hds].
    exists ds. split; [exact Hds|].
    destruct Hds as [_ Hall].
    pose proof (all_decisions_valid (stdin s)) as Hv.
    rewrite Hall in Hv. apply Forall_app in Hv. apply Hv.
  - intros t H. rewrite (client_rounds_total _ _ _ _ _ H).
    unfold total. cbn [wins losses ties]. lia.
Qed.

(** The client of the round in which the user stands on 19 against two
    sixes: the session of one round completes with one result counted. *)
Lemma client_sends_only_what_is_typed_witness :
  fst (play_session
         100 1
         (mkClient (client_of (server_of types_stand deck_17)
                              (snd (play_round_with
                                      deck_17 (server_of types_stand deck_17))))
                   types_stand))
  = Done (mkTally 1 0 0) /\
  total (mkTally 1 0 0) = Z.max 0 1.
Proof.
  split; [vm_compute; reflexivity|].
  apply (proj2 (client_sends_only_what_is_typed
                  100 1
                  (mkClient (client_of (server_of types_stand deck_17)
                                       (snd (play_round_with
                                               deck_17
                                               (server_of types_stand deck_17))))
                            types_stand))).
  vm_compute. reflexivity.
Defined.

(* ================================================================== *)
(** * The client and a bad first frame *)

(** A session of at least one round starts by reading a frame: what the
    session does when the deal stops at this frame. *)
Lemma session_starts_with_a_read (fuel : nat) (rounds : Z) (s s' : client)
      (e : exn) :
  1 <= rounds ->
  client_deal 3 [] [] s = (Failed e, s') ->
  play_session fuel rounds s = (Failed e, s').
Proof.
  intros Hr Hdeal. unfold play_session.
  destruct (Z.to_nat rounds) as [|n] eqn:Hn; [lia|].
  cbn [client_rounds]. unfold client_round, cbind. rewrite Hdeal. reflexivity.
Qed.

Lemma read_is_quiet (s : client) :
  sends (trace (conn (snd (_read_one_server_payload s)))) = sends (trace (conn s)) /\
  stdin (snd (_read_one_server_payload s)) = stdin s.
Proof.
  unfold _read_one_server_payload, on_socket, bind.
  destruct (recv_exact_quiet SERVER_PAYLOAD_SIZE (conn s)) as [[Hq _] _].
  destruct (recv_exact SERVER_PAYLOAD_SIZE (conn s)) as [[[data|]|e] w1];
    cbn [snd] in Hq;
    [destruct (unpack_server_payload data) as [[[c r] u]|]| |];
    (split; [exact Hq|reflexivity]).
Qed.

Lemma read_fails_deal_fails (s s' : client) (e : exn) :
  _read_one_server_payload s = (Failed e, s') ->
  client_deal 3 [] [] s = (Failed e, s').
Proof.
  intros H. cbn [client_deal]. unfold cbind at 1. rewrite H. reflexivity.
Qed.

Lemma read_short (s : client) :
  tidy (conn s) -> (length (wire (conn s)) < SERVER_PAYLOAD_SIZE)%nat ->
  fst (_read_one_server_payload s)
  = Failed (match at_end (conn s) with
            | PeerClosed => ConnectionError
            | TimedOut => SocketTimeout
            end).
Proof.
  intros Ht Hlen.
  destruct (recv_exact_loop_short SERVER_PAYLOAD_SIZE SERVER_PAYLOAD_SIZE [] 0
                                  (conn s) Ht) as [Hfst _].
  { exact Hlen. }
  { lia. }
  fold (recv_exact SERVER_PAYLOAD_SIZE) in Hfst.
  unfold _read_one_server_payload, on_socket, bind.
  destruct (recv_exact SERVER_PAYLOAD_SIZE (conn s)) as [[[data|]|e] w1];
    cbn [fst] in Hfst; destruct (at_end (conn s));
      try discriminate Hfst; try reflexivity.
  injection Hfst as ->. reflexivity.
Qed.

Lemma read_whole (s : client) (data rest : list byte) :
  tidy (conn s) -> wire (conn s) = data ++ rest ->
  length data = SERVER_PAYLOAD_SIZE ->
  exists w',
    _read_one_server_payload s
    = (match unpack_server_payload data with
       | Some parsed => Done parsed
       | None => Failed ValueError
       end, mkClient w' (stdin s)).
Proof.
  intros Ht Hw Hlen.
  destruct (recv_exact_stream SERVER_PAYLOAD_SIZE (conn s) data rest Ht Hw Hlen)
    as (w' & parts & Hrun & _).
  exists w'. unfold _read_one_server_payload, on_socket.
  rewrite (bind_ret _ _ _ _ _ Hrun).
  destruct (unpack_server_payload data); reflexivity.
Qed.

(** X17. A bad first frame ends the session by an exception, before the
    client has sent anything or asked the user anything: [ConnectionError]
    when the server closes before nine bytes have come, [socket.timeout]
    when it stays silent, [ValueError] when the nine bytes are no
    ServerPayload or announce a result during the deal, and [IndexError],
    out of [card_to_string], when the frame carries a suit above 3. *)
Theorem session_fails_on_a_bad_first_frame :
  forall (fuel : nat) (rounds : Z) (s : client) (e : exn),
    1 <= rounds -> tidy (conn s) -> bad_first_frame s e ->
    fst (play_session fuel rounds s) = Failed e /\
    sends (trace (conn (snd (play_session fuel rounds s))))
    = sends (trace (conn s)) /\
    stdin (snd (play_session fuel rounds s)) = stdin s.
Proof.
  intros fuel rounds s e Hr Ht Hbad.
  pose proof (read_is_quiet s) as Hquiet.
  assert (Hfail : forall s', client_deal 3 [] [] s = (Failed e, s') ->
                             s' = snd (_read_one_server_payload s) ->
                             fst (play_session fuel rounds s) = Failed e /\
                             sends (trace (conn (snd (play_session fuel rounds s))))
                             = sends (trace (conn s)) /\
                             stdin (snd (play_session fuel rounds s)) = stdin s).
  { intros s' Hdeal ->.
    rewrite (session_starts_with_a_read fuel rounds s _ e Hr Hdeal).
    cbn [fst snd]. split; [reflexivity|exact Hquiet]. }
  destruct Hbad as [Hlen Hend | Hlen Hend | data rest Hw Hlen Hnone
                    | data rest code rank suit Hw Hlen Hsome Hsuit
                    | data rest code rank suit Hw Hlen Hsome Hsuit Hcode].
  - pose proof (read_short s Ht Hlen) as Hread. rewrite Hend in Hread.
    destruct (_read_one_server_payload s) as [r s'] eqn:E.
    cbn [fst] in Hread. subst r.
    exact (Hfail s' (read_fails_deal_fails s s' _ E) eq_refl).
  - pose proof (read_short s Ht Hlen) as Hread. rewrite Hend in Hread.
    destruct (_read_one_server_payload s) as [r s'] eqn:E.
    cbn [fst] in Hread. subst r.
    exact (Hfail s' (read_fails_deal_fails s s' _ E) eq_refl).
  - destruct (read_whole s data rest Ht Hw Hlen) as [w' E].
    rewrite Hnone in E.
    apply (Hfail (mkClient w' (stdin s)));
      [exact (read_fails_deal_fails s _ _ E)|rewrite E; reflexivity].
  - destruct (read_whole s data rest Ht Hw Hlen) as [w' E].
    rewrite Hsome in E.
    apply (Hfail (mkClient w' (stdin s))); [|rewrite E; reflexivity].
    cbn [client_deal]. unfold cbind at 1. rewrite E.
    cbn [length Nat.ltb Nat.leb app].
    unfold cbind at 1. unfold print, cbind.
    rewrite (card_to_string_bad_suit rank suit Hsuit). reflexivity.
  - destruct (read_whole s data rest Ht Hw Hlen) as [w' E].
    rewrite Hsome in E.
    apply (Hfail (mkClient w' (stdin s))); [|rewrite E; reflexivity].
    cbn [client_deal]. unfold cbind at 1. rewrite E.
    cbn [length Nat.ltb Nat.leb app].
    destruct (card_to_string_valid rank suit Hsuit) as [text Htext].
    unfold cbind at 1. unfold print, cbind. rewrite Htext.
    unfold of_outcome, cret.
    replace (code =? RESULT_NOT_OVER) with false
      by (symmetry; apply Z.eqb_neq; exact Hcode).
    reflexivity.
Qed.

(** The server sends the five of an eighth suit and closes: the session
    ends by [IndexError], with nothing sent and no line read. *)
Lemma session_fails_on_a_bad_first_frame_witness :
  fst (play_session 10 1 (client_with_frame (pack_server_payload 0 5 7)))
  = Failed IndexError /\
  sends (trace (conn (snd (play_session
                             10 1
                             (client_with_frame (pack_server_payload 0 5 7))))))
  = sends (trace (conn (client_with_frame (pack_server_payload 0 5 7)))) /\
  stdin (snd (play_session 10 1 (client_with_frame (pack_server_payload 0 5 7))))
  = stdin (client_with_frame (pack_server_payload 0 5 7)).
Proof.
  apply session_fails_on_a_bad_first_frame.
  - lia.
  - repeat constructor. vm_compute. discriminate.
  - apply (NoSuchSuit _ (pack_server_payload 0 5 7) [] 0 5 7).
    + vm_compute. reflexivity.
    + reflexivity.
    + vm_compute. reflexivity.
    + lia.
Defined.

(* ================================================================== *)
(** * Rounds that complete *)

(** The player loop with decisions waiting: it ends by a result, by the
    break of a Stand, or on an empty deck, and it reads a decision only for
    a hand of 21 or less, each hit adding 2 or more to the hand. *)
Lemma player_turn_answered (n : nat) :
  forall (deck player : list Card) (last : Card) (ws : world)
         (lines : list pystr),
    (length deck < n)%nat ->
    Forall valid_card deck -> tidy ws -> wire ws = typed_frames lines ->
    22 - hand_value player <= 2 * Z.of_nat (length (all_decisions lines)) ->
    exists out ws' lines',
      player_turn deck player last ws = (out, ws') /\
      (forall e, out = Raise e -> e = IndexError) /\
      tidy ws' /\ wire ws' = typed_frames lines' /\
      2 * Z.of_nat (length (all_decisions lines))
      <= 2 * Z.of_nat (length (all_decisions lines'))
         + Z.max 0 (23 - hand_value player).
Proof.
  induction n as [|n IH]; intros deck player last ws lines Hn Hdeck Ht Hw Hneed;
    [lia|].
  destruct (gtb_cases (hand_value player)) as [[Hgt Hv] | [_ Hv]].
  { destruct (hand_value_nonempty player Hv) as (before & card & Hsplit).
    exists (Ret (PlayerReturn RESULT_LOSS)),
           (sent ws [card_frame RESULT_LOSS card]), lines.
    split.
    { rewrite player_turn_unfold, Hgt, Hsplit.
      rewrite (bind_ret _ _ _ _ _ (last_of_snoc before card ws)).
      rewrite (bind_ret _ _ _ _ _ (send_card_eq card RESULT_LOSS ws)).
      reflexivity. }
    split; [intros e He; discriminate He|].
    split; [exact Ht|]. split; [exact Hw|]. lia. }
  pose proof (ask_decision_from_spec lines) as Hspec.
  destruct (ask_decision_from lines) as [[d lines1]|] eqn:Hask.
  2: { rewrite Hspec in Hneed. cbn [length] in Hneed. lia. }
  destruct Hspec as [Hd Hall].
  destruct (typed_frames_next _ _ _ Hask) as [_ Hnext].
  rewrite Hnext in Hw.
  destruct (player_turn_reads deck player last ws d _ Hv Ht Hd Hw)
    as (w1 & Ht1 & Hw1 & _ & Hturn).
  rewrite Hall in Hneed |- *. cbn [length] in Hneed |- *.
  rewrite Nat2Z.inj_succ in Hneed |- *.
  destruct (str_eqb d Hittt).
  2: { exists (Ret (PlayerBreak deck player last)), w1, lines1.
       split; [exact Hturn|]. split; [intros e He; discriminate He|].
       split; [exact Ht1|]. split; [exact Hw1|]. lia. }
  destruct deck as [|card deck'].
  { exists (Raise IndexError), w1, lines1.
    split; [exact Hturn|]. split; [intros e He; injection He as <-; reflexivity|].
    split; [exact Ht1|]. split; [exact Hw1|]. lia. }
  inversion Hdeck as [|? ? Hcard Hdeck']; subst.
  rewrite (bind_ret _ _ _ _ _ (send_card_eq card RESULT_NOT_OVER w1)) in Hturn.
  pose proof (card_value_valid card Hcard) as Hcv.
  assert (Hhv : hand_value (player ++ [card])
                = hand_value player + card_value (fst card)).
  { rewrite hand_value_app, hand_value_cons, hand_value_nil. lia. }
  destruct (IH deck' (player ++ [card]) card
               (sent w1 [card_frame RESULT_NOT_OVER card]) lines1)
    as (out & ws' & lines' & Hrun & Hout & Ht' & Hw' & Hbound).
  { simpl in Hn. lia. }
  { exact Hdeck'. }
  { exact Ht1. }
  { exact Hw1. }
  { lia. }
  exists out, ws', lines'. split; [rewrite Hturn; exact Hrun|].
  split; [exact Hout|]. split; [exact Ht'|]. split; [exact Hw'|]. lia.
Qed.

(** The dealer phase reads nothing and fails only on an empty deck. *)
Lemma dealer_phase_reads_nothing (d0 d1 : Card) (deck player : list Card)
      (w : world) :
  inbox (snd (dealer_phase d0 d1 deck player w)) = inbox w /\
  forall e, fst (dealer_phase d0 d1 deck player w) = Raise e -> e = IndexError.
Proof.
  unfold dealer_phase.
  rewrite (bind_ret _ _ _ _ _ (send_card_eq d1 RESULT_NOT_OVER w)).
  destruct (dealer_loop_spec deck [d0; d1] d1 (sent w [card_frame RESULT_NOT_OVER d1]))
    as (drawn & rest & _ & _ & Hout).
  destruct (dealer_loop deck [d0; d1] d1 (sent w [card_frame RESULT_NOT_OVER d1]))
    as [[[c|deck' dealer' last']|e] w1] eqn:Hloop;
    cbn [fst snd dealer_outcome] in Hout.
  - destruct Hout as (_ & _ & before & card & _ & ->).
    rewrite (bind_ret _ _ _ _ _ Hloop). cbn [fst snd].
    split; [reflexivity|intros e He; discriminate He].
  - destruct Hout as (_ & _ & _ & _ & ->).
    rewrite (bind_ret _ _ _ _ _ Hloop). cbv zeta.
    rewrite (bind_ret _ _ _ _ _ (send_card_eq _ _ _)). cbn [fst snd].
    split; [reflexivity|intros e He; discriminate He].
  - destruct Hout as (-> & _ & _ & ->).
    rewrite (bind_raises _ _ _ _ _ Hloop). cbn [fst snd].
    split; [reflexivity|intros e He; injection He as <-; reflexivity].
Qed.

(** A round on a deck of at least 20 valid cards, with nine decisions
    waiting: it completes, and reads at most nine of them. *)
Lemma round_completes (deck : list Card) (ws : world) (lines : list pystr) :
  Forall valid_card deck -> (20 <= length deck)%nat ->
  tidy ws -> wire ws = typed_frames lines ->
  (9 <= length (all_decisions lines))%nat ->
  exists code ws' lines',
    play_round_with deck ws = (Ret code, ws') /\
    tidy ws' /\ wire ws' = typed_frames lines' /\
    (length (all_decisions lines) <= length (all_decisions lines') + 9)%nat.
Proof.
  intros Hvalid Hlen Ht Hw Hnine.
  destruct deck as [|p0 [|p1 [|d0 [|d1 deck0]]]]; try (simpl in Hlen; lia).
  assert (Hnever : forall e, fst (play_round_with (p0 :: p1 :: d0 :: d1 :: deck0) ws)
                             = Raise e -> e <> IndexError).
  { intros e He.
    destruct (play_round_story p0 p1 d0 d1 deck0 ws) as (frames & _ & Hstory).
    rewrite He in Hstory.
    destruct (round_story_never_runs_out p0 p1 d0 d1 deck0 frames e Hvalid
                                         ltac:(simpl in Hlen; lia) Hstory)
      as [-> | ->]; discriminate. }
  rewrite play_round_from in Hnever |- *.
  inversion Hvalid as [|? ? Hp0 Hv1]; subst.
  inversion Hv1 as [|? ? Hp1 Hv2]; subst.
  inversion Hv2 as [|? ? Hd0 Hv3]; subst.
  inversion Hv3 as [|? ? Hd1 Hdeck0]; subst.
  pose proof (card_value_valid p0 Hp0) as Hc0.
  pose proof (card_value_valid p1 Hp1) as Hc1.
  assert (Hhv : hand_value [p0; p1] = card_value (fst p0) + card_value (fst p1)).
  { rewrite !hand_value_cons, hand_value_nil. lia. }
  destruct (player_turn_answered (S (length deck0)) deck0 [p0; p1] d0
                                 (sent ws (deal_events p0 p1 d0)) lines
                                 ltac:(lia) Hdeck0 Ht Hw ltac:(lia))
    as (out & w1 & lines' & Hturn & Hout & Ht1 & Hw1 & Hbound).
  unfold round_from in Hnever |- *.
  destruct out as [[code|deck' player' last']|e].
  - exists code, w1, lines'. rewrite (bind_ret _ _ _ _ _ Hturn).
    split; [reflexivity|]. split; [exact Ht1|]. split; [exact Hw1|]. lia.
  - rewrite (bind_ret _ _ _ _ _ Hturn) in Hnever |- *.
    destruct (dealer_phase_reads_nothing d0 d1 deck' player' w1) as [Hin Hraise].
    destruct (dealer_phase d0 d1 deck' player' w1) as [[code|e] ws'] eqn:Hphase;
      cbn [fst snd] in Hin, Hraise, Hnever.
    + exists code, ws', lines'. split; [reflexivity|].
      split; [unfold tidy; rewrite Hin; exact Ht1|].
      split; [unfold wire; rewrite Hin; exact Hw1|]. lia.
    + exfalso. apply (Hnever e eq_refl). apply Hraise. reflexivity.
  - exfalso. rewrite (bind_raises _ _ _ _ _ Hturn) in Hnever.
    apply (Hnever e eq_refl). apply Hout. reflexivity.
Qed.

(** X18. A round completes within nine decisions.  On a deck of at least 20
    cards with ranks 1..13, with the frames of nine decisions or more
    waiting on the stream, [play_one_round] returns a result: it raises
    nothing, it reads at most nine of the decisions, and it leaves the
    others on the stream for the next round. *)
Theorem round_completes_within_nine_decisions :
  forall (deck : list Card) (ws : world) (lines : list pystr),
    Forall valid_card deck -> (20 <= length deck)%nat ->
    tidy ws -> wire ws = typed_frames lines ->
    (9 <= length (all_decisions lines))%nat ->
    exists code ws' lines',
      play_round_with deck ws = (Ret code, ws') /\
      1 <= code <= 3 /\
      wire ws' = typed_frames lines' /\
      (length (all_decisions lines) <= length (all_decisions lines') + 9)%nat.
Proof.
  intros deck ws lines Hvalid Hlen Ht Hw Hnine.
  destruct (round_completes deck ws lines Hvalid Hlen Ht Hw Hnine)
    as (code & ws' & lines' & Hrun & _ & Hw' & Hbound).
  exists code, ws', lines'. split; [exact Hrun|].
  split; [|split; [exact Hw'|exact Hbound]].
  destruct (round_agreement deck ws ws' code lines Hvalid Ht Hw Hrun)
    as (_ & _ & _ & _ & _ & _ & _ & Hcode & _).
  exact Hcode.
Qed.

(** The player holds King and 5 and the user goes on typing Hittt: the
    first hit, a 9, ends the round. *)
Lemma round_completes_within_nine_decisions_witness :
  exists code ws' lines',
    play_round_with deck_B (server_of types_nine_hits deck_B) = (Ret code, ws') /\
    1 <= code <= 3 /\
    wire ws' = typed_frames lines' /\
    (length (all_decisions types_nine_hits)
     <= length (all_decisions lines') + 9)%nat.
Proof.
  apply round_completes_within_nine_decisions.
  - exact (proj1 (shuffle_valid deck_B
                                (proj1 (proj2 scenario_decks_are_shuffles)))).
  - vm_compute. lia.
  - repeat constructor. vm_compute. discriminate.
  - vm_compute. reflexivity.
  - vm_compute. lia.
Defined.

(* ================================================================== *)
(** * Sessions that finish *)

Lemma rounds_complete (n : nat) :
  forall (ws : world) (lines : list pystr),
    (forall k, Forall valid_card (rng ws k) /\ (20 <= length (rng ws k))%nat) ->
    tidy ws -> wire ws = typed_frames lines ->
    (9 * n <= length (all_decisions lines))%nat ->
    exists ws', play_rounds n ws = (Ret tt, ws').
Proof.
  induction n as [|n IH]; intros ws lines Hrng Ht Hw Hlen.
  - exists ws. reflexivity.
  - cbn [play_rounds].
    pose proof (play_one_round_deals ws) as [Hrng1 _].
    destruct (round_completes
                (rng ws (dealt ws))
                (mkWorld (inbox ws) (at_end ws) (trace ws) (rng ws) (S (dealt ws)))
                lines (proj1 (Hrng _)) (proj2 (Hrng _)) Ht Hw ltac:(lia))
      as (code & w1 & lines1 & Hrun & Ht1 & Hw1 & Hbound).
    assert (Hone : play_one_round ws = (Ret code, w1))
      by (unfold play_one_round, bind, create_deck; exact Hrun).
    rewrite Hone in Hrng1. cbn [snd] in Hrng1.
    rewrite (bind_ret _ _ _ _ _ Hone).
    apply (IH w1 lines1).
    + intros k. rewrite Hrng1. apply Hrng.
    + exact Ht1.
    + exact Hw1.
    + lia.
Qed.

(** X19. A session finishes when the decisions wait.  The Request asks for
    1 to 255 rounds, every shuffle leaves a permutation of the 52 cards, and
    the stream holds, after the Request, the frames of nine decisions or
    more for each round: then [handle_client] plays all the rounds and ends
    the session normally, with no exception and no timeout. *)
Theorem session_finishes_when_decisions_wait :
  forall (rounds : Z) (name : pystr) (ws : world) (lines : list pystr),
    1 <= rounds <= 255 ->
    (forall k, Permutation (rng ws k) sorted_deck) ->
    tidy ws ->
    wire ws = pack_request rounds name ++ typed_frames lines ->
    (9 * Z.to_nat rounds <= length (all_decisions lines))%nat ->
    exists ws', handle_client ws = (Ret Finished, ws').
Proof.
  intros rounds name ws lines Hr Hrng Ht Hw Hlen.
  destruct (recv_exact_stream REQUEST_SIZE ws _ _ Ht Hw
                              (length_pack_request rounds name))
    as (w1 & parts & Hrecv & Ht1 & Hw1 & Hstep & _).
  assert (Hq1 : quiet ws w1) by (rewrite Hstep; apply quiet_read).
  pose proof (unpack_pack_request_mod rounds name) as Hreq.
  rewrite Z.mod_small in Hreq by lia.
  pose proof (session_runs_rounds ws w1 _ _ _ Hrecv Hreq) as Hsession.
  replace (rounds_to_play rounds) with (Z.to_nat rounds) in Hsession
    by (unfold rounds_to_play;
        replace (rounds =? 0) with false by (symmetry; apply Z.eqb_neq; lia);
        reflexivity).
  destruct (rounds_complete (Z.to_nat rounds) w1 lines) as [ws' Hplay].
  { intros k. destruct Hq1 as (_ & _ & -> & _).
    destruct (shuffle_valid (rng ws k) (Hrng k)) as [Hv Hl].
    split; [exact Hv|rewrite Hl; lia]. }
  { exact Ht1. }
  { exact Hw1. }
  { exact Hlen. }
  exists ws'. unfold handle_client. rewrite Hsession.
  unfold bind. rewrite Hplay. reflexivity.
Qed.

(** A session of one round on the deck of scenario B, the user typing
    Hittt nine times. *)
Lemma session_finishes_when_decisions_wait_witness :
  exists ws',
    handle_client (session_server 1 types_nine_hits deck_B) = (Ret Finished, ws').
Proof.
  apply (session_finishes_when_decisions_wait 1 CLIENT_NAME _ types_nine_hits).
  - lia.
  - intros k. exact (proj1 (proj2 scenario_decks_are_shuffles)).
  - repeat constructor. vm_compute. discriminate.
  - vm_compute. reflexivity.
  - vm_compute. lia.
Defined.

